(** * Verification of the spare-part recommendation trainer ([train.py])

    A shallow embedding of the learning and evaluation core of
    [src/Old Maybe_final/Archive/train.py]: target construction, the top-K
    ranking metrics, the quantity safeguard, the grouped cross-validation
    loop and the final refit of the quantity models.

    Conventions of the embedding.
    - A NumPy integer matrix is a [list (list Z)].  Python integers are
      unbounded; the one place where they enter a NumPy array, the
      [np.array(...).astype(int)] of [make_targets], is modelled with its
      64-bit conversion ([astype_int]).  Behind it the cells are presence
      bits, counts and quantities of 64 bits, and no operation of the
      program takes them out of that range.
    - A probability matrix is a [list (list Q)]: floating-point division is
      idealised as exact rational division, and the one non-number the code
      can produce ([np.mean] of an empty selection, 0/0) is the constructor
      [NaN].
    - A Python exception ([IndexError], [ValueError], [ZeroDivisionError])
      is [None] in the [option] monad.
    - Python [set]s of column indices are [gset nat], the [dict]s are
      [gmap]s.
    - scikit-learn's estimators are the operations of a type class; its
      grouped splitter is modelled by its algorithm. *)

From Stdlib Require Import QArith Lqa.
From stdpp Require Import base list sorting strings gmap sets fin_maps.

Local Open Scope Z_scope.

(** ** NumPy and Python primitives *)

Module Np.

(** Result of a floating-point reduction: a number or not-a-number. *)
Inductive npfloat : Type :=
  | Num (q : Q)
  | NaN.

Definition Qsum (xs : list Q) : Q := foldr Qplus 0%Q xs.

(** [np.mean(xs)]: the arithmetic mean; NaN (with a warning, no exception)
    when [xs] is empty. *)
Definition mean (xs : list Q) : npfloat :=
  match xs with
  | [] => NaN
  | _ :: _ => Num (Qsum xs / inject_Z (Z.of_nat (length xs)))
  end.

(** [np.sum(row)] of an integer row. *)
Definition sum (row : list Z) : Z := foldr Z.add 0 row.

(** [np.where(row == v)[0]]: the positions holding [v], ascending. *)
Definition where_eq (v : Z) (row : list Z) : list nat :=
  (imap (λ j x, (j, x)) row) ≫= (λ '(j, x), if decide (x = v) then [j] else []).

(** [a[start:]] for a Python or NumPy sequence: a negative start counts
    from the end, and both ends are clamped. *)
Definition slice_from {A} (start : Z) (l : list A) : list A :=
  let n := Z.of_nat (length l) in
  let s := if decide (start < 0) then Z.max 0 (start + n) else Z.min start n in
  drop (Z.to_nat s) l.

(** [np.unique(xs)] on integers: the distinct values, ascending. *)
Definition unique (xs : list Z) : list Z := remove_dups (merge_sort Z.le xs).

(** [np.bincount(xs)] for non-negative [xs]: entry [v] counts the
    occurrences of [v], for [v] from 0 to the maximum of [xs]. *)
Definition count_occ (v : Z) (xs : list Z) : nat :=
  length (filter (λ x, x = v) xs).

Definition bincount (xs : list Z) : list nat :=
  match xs with
  | [] => []
  | _ :: _ =>
      let m := foldr Z.max 0 xs in
      (λ v, count_occ (Z.of_nat v) xs) <$> seq 0 (S (Z.to_nat m))
  end.

(** [a.argmax()] / [a.argmin()]: the first position of an extreme value. *)
Fixpoint argmax_from (best : nat) (bv : nat) (j : nat) (l : list nat) : nat :=
  match l with
  | [] => best
  | x :: l' =>
      if decide (bv < x)%nat then argmax_from j x (S j) l'
      else argmax_from best bv (S j) l'
  end.

Definition argmax (l : list nat) : nat :=
  match l with
  | [] => 0%nat
  | x :: l' => argmax_from 0 x 1 l'
  end.

Fixpoint argmin_from (best : nat) (bv : nat) (j : nat) (l : list nat) : nat :=
  match l with
  | [] => best
  | x :: l' =>
      if decide (x < bv)%nat then argmin_from j x (S j) l'
      else argmin_from best bv (S j) l'
  end.

Definition argmin (l : list nat) : nat :=
  match l with
  | [] => 0%nat
  | x :: l' => argmin_from 0 x 1 l'
  end.

(** Value of a row at a position produced by an index computation. *)
Definition key (row : list Q) (j : nat) : Q := default 0%Q (row !! j).

Definition key_le (row : list Q) (a b : nat) : Prop := (key row a <= key row b)%Q.

#[export] Instance key_le_dec row : RelDecision (key_le row).
Proof.
  intros a b. unfold key_le.
  destruct (Qlt_le_dec (key row b) (key row a)) as [Hlt|Hle].
  - right. intros Hle. exact (Qlt_not_le _ _ Hlt Hle).
  - left. exact Hle.
Defined.

(** [np.argsort(row)]: the positions of [row] rearranged so that the values
    ascend.  The default sort kind is not stable, so the order among equal
    values is left open: an argsort is any function with this contract. *)
Class ArgSort : Type := {
  argsort : list Q → list nat;
  argsort_perm : ∀ row, argsort row ≡ₚ seq 0 (length row);
  argsort_sorted : ∀ row, Sorted (key_le row) (argsort row)
}.

(** One argsort: merge sort of the positions by value. *)
Definition merge_argsort (row : list Q) : list nat :=
  merge_sort (key_le row) (seq 0 (length row)).

(** *** [np.array(rows).astype(int)] on Python integers

    The element type NumPy finds for a nested list of Python integers: a
    value that fits a signed 64-bit integer is an [int64], a larger one
    below 2^64 a [uint64], any other one a Python object; [int64] and
    [uint64] together promote to [float64], an object makes the array an
    object array, and an array without elements is [float64]. *)
Inductive dtype : Type := Int64 | UInt64 | Float64 | Object.

#[export] Instance dtype_eq_dec : EqDecision dtype.
Proof. solve_decision. Defined.

Definition int64_min : Z := - 2 ^ 63.
Definition int64_max : Z := 2 ^ 63 - 1.
Definition uint64_max : Z := 2 ^ 64 - 1.

Definition fits_int64 (v : Z) : Prop := int64_min ≤ v ≤ int64_max.

#[export] Instance fits_int64_dec v : Decision (fits_int64 v).
Proof. unfold fits_int64. apply _. Defined.

Definition discover (v : Z) : dtype :=
  if decide (fits_int64 v) then Int64
  else if decide (0 ≤ v ≤ uint64_max) then UInt64
  else Object.

Definition promote (a b : dtype) : dtype :=
  match a, b with
  | Object, _ | _, Object => Object
  | Int64, Int64 => Int64
  | UInt64, UInt64 => UInt64
  | _, _ => Float64
  end.

Definition result_type (cells : list Z) : dtype :=
  match cells with
  | [] => Float64
  | v :: vs => foldl (λ d w, promote d (discover w)) (discover v) vs
  end.

(** The integer a [float64] holds for the integer [v]: 53 significant
    bits, rounded to nearest, ties to even. *)
Definition to_float64 (v : Z) : Z :=
  let a := Z.abs v in
  if decide (a < 2 ^ 53) then v
  else
    let u := 2 ^ (Z.log2 a - 52) in
    let q := a / u in
    let r := a mod u in
    let h := u / 2 in
    let q' := if decide (r < h) then q
              else if decide (h < r) then q + 1
              else if Z.even q then q else q + 1 in
    Z.sgn v * (q' * u).

(** The conversion of one cell to [int64]: the identity on an [int64]
    array; the same 64 bits read as a signed number on a [uint64] array;
    on a [float64] array the value of the float when it is in range, and
    otherwise the smallest [int64] (what the conversion instruction of
    x86-64 returns for a value out of range). *)
Definition astype_int_cell (d : dtype) (v : Z) : Z :=
  match d with
  | Int64 | Object => v
  | UInt64 => if decide (v ≤ int64_max) then v else v - 2 ^ 64
  | Float64 => let x := to_float64 v in if decide (fits_int64 x) then x else int64_min
  end.

(** [np.array(rows).astype(int)]: an object array raises [OverflowError]
    at its first integer that is too large for a C long. *)
Definition astype_int (rows : list (list Z)) : option (list (list Z)) :=
  let d := result_type (concat rows) in
  if decide (d = Object) then None
  else Some ((λ row : list Z, astype_int_cell d <$> row) <$> rows).

End Np.

Export Np.

(** ** Matrices indexed as [M[i, j]] *)

Section matrix.
Context {A : Type}.
Implicit Types (M : list (list A)) (i j : nat).

(** Reading [M[i, j]]; out of range is an [IndexError]. *)
Definition mat_get M i j : option A := M !! i ≫= (.!! j).

(** Writing [M[i, j] = x] in place; out of range is an [IndexError]. *)
Definition mat_set M i j (x : A) : option (list (list A)) :=
  row ← M !! i;
  if decide (j < length row)%nat then Some (<[i := <[j := x]> row]> M) else None.

(** A [for] loop whose body may raise: the state is threaded through the
    elements from left to right and the first exception ends the loop. *)
Fixpoint for_each {B} (body : A → B → option B) (l : list A) (s : B) : option B :=
  match l with
  | [] => Some s
  | x :: l' => s' ← body x s; for_each body l' s'
  end.

(** Shape of a rectangular matrix with [n] rows and [m] columns. *)
Definition has_shape (n m : nat) M : Prop :=
  length M = n ∧ Forall (λ row, length row = m) M.
End matrix.

(** ** Top-K selection and the quantity safeguard *)

Definition TOP_K : Z := 5.
Definition K_FOLDS : nat := 5.

Section topk.
Context `{!ArgSort}.

(** [np.argsort(proba, axis=1)[:, -k:]]: per row, the last [k] positions
    of the ascending argsort. *)
Definition topk_row (k : Z) (row : list Q) : list nat :=
  slice_from (- k) (argsort row).

Definition topk (k : Z) (proba : list (list Q)) : list (list nat) :=
  topk_row k <$> proba.

(** The body of the inner loop of [apply_quantity_safeguard]. *)
Definition safeguard_cell (i j : nat) (qty : list (list Z)) : option (list (list Z)) :=
  v ← mat_get qty i j;
  if decide (v = 0) then mat_set qty i j 1 else Some qty.

Definition safeguard_row (ir : nat * list nat) (qty : list (list Z)) :
    option (list (list Z)) :=
  for_each (safeguard_cell ir.1) ir.2 qty.

Definition apply_quantity_safeguard (proba : list (list Q)) (qty_pred : list (list Z))
    (k : Z) : option (list (list Z)) :=
  for_each safeguard_row (imap (λ i idxs, (i, idxs)) (topk k proba)) qty_pred.
End topk.

(** ** Ranking metrics *)

(** True division [a / b] of two counts. *)
Definition ratio (a b : nat) : Q := (inject_Z (Z.of_nat a) / inject_Z (Z.of_nat b))%Q.

(** [set(np.where(row == 1)[0])]. *)
Definition ones_set (row : list Z) : gset nat := list_to_set (where_eq 1 row).

(** [if x] on a float: zero is false, everything else (NaN included) true;
    and the arithmetic of [f1_at_k] with NaN propagating. *)
Definition f1_combine (p r : npfloat) : npfloat :=
  match p, r with
  | Num p, Num r =>
      if Qeq_bool (p + r) 0 then Num 0%Q else Num (2 * p * r / (p + r))%Q
  | _, _ => NaN
  end.

Section metrics.
Context `{!ArgSort}.

(** [precision_at_k]: the comprehension evaluates [y_true[i]], [topk[i]]
    and the division by [k] for every row. *)
Definition precision_term (tk : list (list nat)) (k : Z) (iy : nat * list Z) : option Q :=
  idxs ← tk !! iy.1;
  if decide (k = 0) then None
  else Some (inject_Z (Z.of_nat (size (ones_set iy.2 ∩ list_to_set idxs))) / inject_Z k)%Q.

Definition precision_at_k (y_true : list (list Z)) (proba : list (list Q)) (k : Z) :
    option npfloat :=
  terms ← mapM (precision_term (topk k proba) k) (imap pair y_true);
  Some (mean terms).

(** [recall_at_k]: rows with an empty true set append nothing (and do not
    read [topk[i]]). *)
Definition recall_body (tk : list (list nat)) (iy : nat * list Z) (scores : list Q) :
    option (list Q) :=
  let true_set := ones_set iy.2 in
  if decide (true_set = ∅) then Some scores
  else
    idxs ← tk !! iy.1;
    Some (scores ++ [ratio (size (true_set ∩ list_to_set idxs)) (size true_set)]).

Definition recall_at_k (y_true : list (list Z)) (proba : list (list Q)) (k : Z) :
    option npfloat :=
  scores ← for_each (recall_body (topk k proba)) (imap pair y_true) [];
  Some (match scores with [] => Num 0%Q | _ :: _ => mean scores end).

Definition f1_at_k (y_true : list (list Z)) (proba : list (list Q)) (k : Z) :
    option npfloat :=
  p ← precision_at_k y_true proba k;
  r ← recall_at_k y_true proba k;
  Some (f1_combine p r).

(** [weighted_proba_score]: sums [proba[i, j]] over the top-K positions
    that are true labels. *)
Definition weighted_body (proba : list (list Q)) (tk : list (list nat))
    (iy : nat * list Z) (scores : list Q) : option (list Q) :=
  let true_set := ones_set iy.2 in
  if decide (true_set = ∅) then Some scores
  else
    idxs ← tk !! iy.1;
    ps ← mapM (mat_get proba iy.1) (filter (λ j, j ∈ true_set) idxs);
    Some (scores ++ [(Qsum ps / inject_Z (Z.of_nat (size true_set)))%Q]).

Definition weighted_proba_score (y_true : list (list Z)) (proba : list (list Q)) (k : Z) :
    option npfloat :=
  scores ← for_each (weighted_body proba (topk k proba)) (imap pair y_true) [];
  Some (match scores with [] => Num 0%Q | _ :: _ => mean scores end).

(** [partial_coverage_score]: every row contributes; the denominator is
    [max(1, np.sum(y_true[i]))]. *)
Definition coverage_term (tk : list (list nat)) (iy : nat * list Z) : option Q :=
  idxs ← tk !! iy.1;
  Some (inject_Z (Z.of_nat (size (ones_set iy.2 ∩ list_to_set idxs)))
        / inject_Z (Z.max 1 (Np.sum iy.2)))%Q.

Definition partial_coverage_score (y_true : list (list Z)) (proba : list (list Q)) (k : Z) :
    option npfloat :=
  terms ← mapM (coverage_term (topk k proba)) (imap pair y_true);
  Some (mean terms).

Definition recall_scorer (y_true : list (list Z)) (decision_vals : list (list Q)) :
    option npfloat :=
  recall_at_k y_true decision_vals TOP_K.
End metrics.

(** [iou_score]: the score of one row, from its true set [t] and its
    predicted set [p]. *)
Definition iou_row (t p : gset nat) : Q :=
  if decide (t = ∅ ∧ p = ∅) then 1%Q else ratio (size (t ∩ p)) (size (t ∪ p)).

Definition iou_term (y_pred : list (list Z)) (iy : nat * list Z) : option Q :=
  prow ← y_pred !! iy.1;
  Some (iou_row (ones_set iy.2) (ones_set prow)).

Definition iou_score (y_true y_pred : list (list Z)) : option npfloat :=
  scores ← mapM (iou_term y_pred) (imap pair y_true);
  Some (mean scores).

(** Number of columns, [M.shape[1]], of a matrix with at least one row. *)
Definition ncols {A} (M : list (list A)) : nat :=
  match M with
  | [] => 0
  | row :: _ => length row
  end.

Definition same_shape {A B} (M : list (list A)) (M' : list (list B)) : Prop :=
  Forall2 (λ r r', length r = length r') M M'.

#[export] Instance same_shape_dec {A B} (M : list (list A)) (M' : list (list B)) :
  Decision (same_shape M M').
Proof. unfold same_shape. apply _. Defined.

(** [hamming_score]: per row, the number of agreeing cells over the number
    of columns of [y_true]; a row of width zero yields 0/0. *)
Definition hamming_row (yt yp : list Z) : npfloat :=
  if decide (length yt = 0%nat) then NaN
  else Num (ratio (length (filter (λ ab, ab.1 = ab.2) (zip yt yp))) (length yt)).

Definition mean_f (xs : list npfloat) : npfloat :=
  match mapM (λ x, match x with Num q => Some q | NaN => None end) xs with
  | Some qs => mean qs
  | None => NaN
  end.

(** Broadcasting of [y_true == y_pred]: two lengths are compatible when
    they are equal or one of them is 1, and the axis of length 1 is
    repeated along the other.  A matrix is given by its rows, so one
    without rows has no width of its own: it counts as 0 columns. *)
Definition broadcastable (a b : nat) : Prop := a = b ∨ a = 1%nat ∨ b = 1%nat.

#[export] Instance broadcastable_dec a b : Decision (broadcastable a b).
Proof. unfold broadcastable. apply _. Defined.

Definition broadcast_len (a b : nat) : nat := if decide (a = 1%nat) then b else a.

Definition stretch {A} (n : nat) (l : list A) : list A :=
  match l with
  | [x] => replicate n x
  | _ => l
  end.

Definition hamming_broadcast (y_true y_pred : list (list Z)) : option npfloat :=
  let n := length y_true in
  let m := ncols y_true in
  if decide (broadcastable n (length y_pred) ∧ broadcastable m (ncols y_pred)) then
    let N := broadcast_len n (length y_pred) in
    let M := broadcast_len m (ncols y_pred) in
    let score (yt yp : list Z) : npfloat :=
      if decide (m = 0%nat) then NaN
      else Num (ratio (length (filter (λ ab, ab.1 = ab.2) (zip yt yp))) m) in
    Some (mean_f (zip_with score (stretch N (stretch M <$> y_true))
                                 (stretch N (stretch M <$> y_pred))))
  else None.

(** Matrices of the same shape are compared cell by cell; other shapes
    are broadcast, or raise when they are incompatible. *)
Definition hamming_score (y_true y_pred : list (list Z)) : option npfloat :=
  if decide (same_shape y_true y_pred)
  then Some (mean_f (zip_with hamming_row y_true y_pred))
  else hamming_broadcast y_true y_pred.

(** [accuracy_counts]: the boolean mask [y_true_cnt > 0] selects cells of
    both matrices (an [IndexError] when the shapes differ); the mean is taken
    over the selected comparisons. *)
Definition accuracy_counts (y_true_cnt y_pred_cnt : list (list Z)) : option npfloat :=
  if decide (same_shape y_true_cnt y_pred_cnt) then
    let cells := filter (λ tp, 0 < tp.1) (zip (concat y_true_cnt) (concat y_pred_cnt)) in
    Some (mean ((λ tp, if decide (tp.1 = tp.2) then 1%Q else 0%Q) <$> cells))
  else None.

Section evaluate.
Context `{!ArgSort}.

(** [y_pred[i, idxs] = 1] on a zero row: the top-K positions set to one.
    The positions come from an argsort of the same row, so they are in
    range. *)
Definition binarize_row (k : Z) (row : list Q) : list Z :=
  foldr (λ j r, <[j := 1]> r) (replicate (length row) 0) (topk_row k row).

(** The dictionary of metrics; the entry [quantity_acc] is absent until the
    cross-validation loop adds it. *)
Record metrics : Type := {
  m_precision : npfloat;
  m_recall : npfloat;
  m_f1 : npfloat;
  m_hamming : npfloat;
  m_weighted : npfloat;
  m_partial_cov : npfloat;
  m_iou : npfloat;
  m_quantity_acc : option npfloat
}.

(** [pm["quantity_acc"] = acc] *)
Definition set_quantity_acc (pm : metrics) (acc : npfloat) : metrics :=
  {| m_precision := m_precision pm; m_recall := m_recall pm; m_f1 := m_f1 pm;
     m_hamming := m_hamming pm; m_weighted := m_weighted pm;
     m_partial_cov := m_partial_cov pm; m_iou := m_iou pm;
     m_quantity_acc := Some acc |}.

Definition evaluate (y_true : list (list Z)) (proba : list (list Q)) : option metrics :=
  let y_pred := binarize_row TOP_K <$> proba in
  p ← precision_at_k y_true proba TOP_K;
  r ← recall_at_k y_true proba TOP_K;
  f ← f1_at_k y_true proba TOP_K;
  h ← hamming_score y_true y_pred;
  w ← weighted_proba_score y_true proba TOP_K;
  c ← partial_coverage_score y_true proba TOP_K;
  u ← iou_score y_true y_pred;
  Some {| m_precision := p; m_recall := r; m_f1 := f; m_hamming := h;
          m_weighted := w; m_partial_cov := c; m_iou := u; m_quantity_acc := None |}.
End evaluate.

(** ** Target construction *)

Section targets.
(** Part identifiers: any type with decidable equality, hashable (so it
    can key a [dict]) and ordered (so [sorted] applies). *)
Context {L : Type} `{Countable L} (label_le : relation L) `{!RelDecision label_le}.
Context {G : Type}.

(** One dataframe row, with the columns the trainer reads; [G] is the
    type of work-order keys. *)
Record sample : Type := {
  Instructions : string;
  Asset : string;
  Work_Order : G;
  Product_ID : list L;
  Quantity : list Z
}.

(** [MultiLabelBinarizer.classes_] after fitting: the distinct labels of
    all rows, sorted. *)
Definition classes_ (label_lists : list (list L)) : list L :=
  merge_sort label_le (remove_dups (concat label_lists)).

(** One row of [MultiLabelBinarizer.fit_transform]: the indicator of the
    row's labels over the classes. *)
Definition binarize (classes : list L) (labels : list L) : list Z :=
  (λ cls, if decide (cls ∈ labels) then 1 else 0) <$> classes.

(** [{p: q for p, q in zip(...)}]: [zip] stops at the shorter list, a
    repeated key keeps its last value. *)
Definition dict_insert (m : gmap L Z) (pq : L * Z) : gmap L Z := <[pq.1 := pq.2]> m.

Definition dict_of_zip (ps : list L) (qs : list Z) : gmap L Z :=
  foldl dict_insert ∅ (zip ps qs).

Definition cnt_vec (classes : list L) (row : sample) : list Z :=
  let mapping := dict_of_zip (Product_ID row) (Quantity row) in
  (λ cls, default 0 (mapping !! cls)) <$> classes.

(** [make_targets] returns the feature columns, [Y_bin], [Y_cnt] and the
    fitted binarizer (represented by its classes).  [cnt_vec] returns
    Python integers; [Y_cnt] is their conversion to a 64-bit array. *)
Definition make_targets (df : list sample) :
    option (list (string * string) * list (list Z) * list (list Z) * list L) :=
  let X := (λ r, (Instructions r, Asset r)) <$> df in
  let classes := classes_ (Product_ID <$> df) in
  let Y_bin := (λ r, binarize classes (Product_ID r)) <$> df in
  Y_cnt ← astype_int (cnt_vec classes <$> df);
  Some (X, Y_bin, Y_cnt, classes).
End targets.

Arguments sample L G : clear implicits.

(** ** Grouped K-fold splitting *)

Section group_k_fold.
Context `{!ArgSort} {G : Type} `{EqDecision G}.
Context (group_le : relation G) `{!RelDecision group_le}.

(** [np.unique(groups, return_inverse=True)]: the sorted distinct groups
    and, per sample, the position of its group among them. *)
Definition unique_groups (groups : list G) : list G :=
  merge_sort group_le (remove_dups groups).

Definition index_of (g : G) (us : list G) : nat :=
  default 0%nat (fst <$> list_find (λ u, u = g) us).

Definition group_index (groups : list G) : list nat :=
  (λ g, index_of g (unique_groups groups)) <$> groups.

Definition occurrences (v : nat) (l : list nat) : nat :=
  length (filter (λ x, x = v) l).

(** [np.bincount(group_idx)]: the number of samples of each group. *)
Definition n_samples_per_group (groups : list G) : list nat :=
  (λ u, occurrences u (group_index groups)) <$> seq 0 (length (unique_groups groups)).

(** [np.argsort(n_samples_per_group)[::-1]]: groups by decreasing size. *)
Definition groups_by_size (counts : list nat) : list nat :=
  reverse (argsort ((λ c, inject_Z (Z.of_nat c)) <$> counts)).

(** One step of the greedy loop: the next group goes to the lightest
    fold.  State: the weight of each fold and the fold of each group.
    Both positions written are in range ([argmin] of a non-empty array, a
    position returned by [argsort]). *)
Definition assign_group (counts : list nat) (st : list nat * list nat) (g : nat) :
    list nat * list nat :=
  let lightest_fold := argmin st.1 in
  let weight := default 0%nat (counts !! g) in
  (alter (λ w, (w + weight)%nat) lightest_fold st.1, <[g := lightest_fold]> st.2).

Definition group_to_fold (groups : list G) (n_splits : nat) : list nat :=
  let counts := n_samples_per_group groups in
  (foldl (assign_group counts)
         (replicate n_splits 0%nat, replicate (length counts) 0%nat)
         (groups_by_size counts)).2.

(** The fold of a group. *)
Definition fold_of_group (groups : list G) (n_splits : nat) (g : G) : nat :=
  default 0%nat (group_to_fold groups n_splits !! index_of g (unique_groups groups)).

(** The fold of every sample: [group_to_fold[group_idx]]. *)
Definition fold_of_sample (groups : list G) (n_splits : nat) : list nat :=
  (λ gi, default 0%nat (group_to_fold groups n_splits !! gi)) <$> group_index groups.

Definition positions (P : nat → bool) (l : list nat) : list nat :=
  (imap (λ i x, (i, x)) l) ≫= (λ ix, if P ix.2 then [ix.1] else []).

(** Modelled from the spec: [GroupKFold(n_splits).split] is scikit-learn's
    and not part of the repository; section 4.2 and the fold-plan entry
    of section 3 describe it as a fold number per sample that is a
    function of the sample's group, failing when there are fewer distinct
    groups than folds.  Which fold a group goes to follows the library's
    greedy rule (the largest group first, into the fold with the fewest
    samples so far); the properties proved of a plan hold for every
    assignment of groups to folds.  The result lists, per fold, the
    training and the validation positions. *)
Definition gkf_split (groups : list G) (n_splits : nat) :
    option (list (list nat * list nat)) :=
  if decide (n_splits < 2)%nat then None
  else if decide (length (unique_groups groups) < n_splits)%nat then None
  else
    let folds := fold_of_sample groups n_splits in
    Some ((λ f, (positions (λ x, bool_decide (x ≠ f)) folds,
                 positions (λ x, bool_decide (x = f)) folds)) <$> seq 0 n_splits).
End group_k_fold.

(** ** The two-stage models *)

Definition SVM_MAX_ITER : Z := 200000.
Definition RANDOM_STATE : Z := 42.
Definition N_TOPICS : Z := 100.

(** The estimators of scikit-learn that the trainer calls, over feature
    rows of type [X].  Fitting may raise ([None]); a fitted estimator
    predicts one value per row. *)
Class Learner (X : Type) : Type := {
  preprocessor : Type;
  svc : Type;
  calibrated : Type;
  (** [build_preprocessor(max_features, n_topics).fit(frame)] *)
  fit_preprocessor : Z → Z → list (string * string) → preprocessor;
  transform : preprocessor → list (string * string) → list X;
  (** [LinearSVC(max_iter, random_state).fit(X, y)] *)
  svc_fit : Z → Z → list X → list Z → option svc;
  svc_predict : svc → list X → list Z;
  (** [CalibratedClassifierCV(base, cv=3, method="sigmoid").fit(X, y)];
      [None] is the [ValueError] of an infeasible internal split. *)
  calibrate_cv : svc → list X → list Z → option calibrated;
  (** [CalibratedClassifierCV(base, cv="prefit", method="sigmoid").fit(X, y)] *)
  calibrate_prefit : svc → list X → list Z → option calibrated;
  (** [calib.predict_proba(X)[:, 1]] *)
  predict_proba1 : calibrated → list X → list Q;
  svc_predict_length : ∀ m xs, length (svc_predict m xs) = length xs;
  predict_proba1_length : ∀ m xs, length (predict_proba1 m xs) = length xs;
  (** a classifier predicts classes it was fitted on *)
  svc_predict_classes : ∀ max_iter random_state xs y m,
    svc_fit max_iter random_state xs y = Some m →
    ∀ xs' v, v ∈ svc_predict m xs' → v ∈ y
}.

Section models.
Context {X : Type} `{!Learner X}.

(** A quantity model: the constant [DummyClassifier] or a fitted SVC. *)
Inductive quantity_model : Type :=
  | Dummy (constant : Z)
  | QuantitySVC (qclf : svc).

Definition quantity_predict (m : quantity_model) (xs : list X) : list Z :=
  match m with
  | Dummy constant => replicate (length xs) constant
  | QuantitySVC qclf => svc_predict qclf xs
  end.

(** The base SVM followed by [try: cv=3 calibration; except ValueError:
    prefit calibration]. *)
Definition fit_calibrated (max_iter random_state : Z) (xs : list X) (y : list Z) :
    option calibrated :=
  base ← svc_fit max_iter random_state xs y;
  match calibrate_cv base xs y with
  | Some calib => Some calib
  | None => calibrate_prefit base xs y
  end.
End models.

(** Fancy indexing: [M[idx]], [M[idx, lbl]] and [M[idx, lbl] = vals]. *)
Definition select {A} (M : list A) (idx : list nat) : option (list A) :=
  mapM (λ i, M !! i) idx.

Definition column {A} (M : list (list A)) (idx : list nat) (lbl : nat) : option (list A) :=
  mapM (λ i, mat_get M i lbl) idx.

Definition write_cell {A} (lbl : nat) (iv : nat * A) (M : list (list A)) :
    option (list (list A)) :=
  mat_set M iv.1 lbl iv.2.

Definition write_column {A} (M : list (list A)) (idx : list nat) (lbl : nat)
    (vals : list A) : option (list (list A)) :=
  if decide (length idx = length vals)
  then for_each (write_cell lbl) (zip idx vals) M
  else None.

(** [np.zeros(M.shape)] *)
Definition zeros_like {A B} (zero : B) (M : list (list A)) : list (list B) :=
  (λ row, replicate (length row) zero) <$> M.

(** [a[mask]] for a boolean mask: the elements at the true positions; a
    mask of another length than [a] is an [IndexError]. *)
Definition mask_select {A} (mask : list bool) (l : list A) : option (list A) :=
  if decide (length mask = length l)
  then Some ((zip mask l) ≫= (λ bx, if bx.1 : bool then [bx.2] else []))
  else None.

(** ** Cross-validation *)

Section cross_validation.
Context `{!ArgSort} {X : Type} `{!Learner X}.
Context {G : Type} `{EqDecision G} (group_le : relation G) `{!RelDecision group_le}.

(** Stage 1 for one label of one fold. *)
Definition stage1_label (Y_bin : list (list Z)) (tr te : list nat) (Xt_tr Xt_te : list X)
    (lbl : nat) (proba : list (list Q)) : option (list (list Q)) :=
  y_tr ← column Y_bin tr lbl;
  if decide (length (unique y_tr) < 2)%nat then Some proba
  else
    calib ← fit_calibrated SVM_MAX_ITER RANDOM_STATE Xt_tr y_tr;
    write_column proba te lbl (predict_proba1 calib Xt_te).

(** The model Stage 2 builds for one label from the label's column of
    [Y_cnt] on the training rows. *)
Definition stage2_model (Xt_tr : list X) (col : list Z) : option quantity_model :=
  let mask := (λ q, bool_decide (0 < q)) <$> col in
  yq ← mask_select mask col;
  if decide (length yq < 3 ∨ length (unique yq) < 2)%nat then
    let constant :=
      if decide (length yq = 0%nat) then 0 else Z.of_nat (argmax (bincount yq)) in
    Some (Dummy constant)
  else
    xs ← mask_select mask Xt_tr;
    qclf ← svc_fit SVM_MAX_ITER RANDOM_STATE xs yq;
    Some (QuantitySVC qclf).

(** Stage 2 for one label of one fold. *)
Definition stage2_label (Y_cnt : list (list Z)) (tr te : list nat) (Xt_tr Xt_te : list X)
    (lbl : nat) (qty_pred : list (list Z)) : option (list (list Z)) :=
  col ← column Y_cnt tr lbl;
  m ← stage2_model Xt_tr col;
  write_column qty_pred te lbl (quantity_predict m Xt_te).

Record cv_state : Type := {
  cv_proba : list (list Q);
  cv_qty_pred : list (list Z);
  cv_train_metrics : list (nat * metrics);
  cv_val_metrics : list (nat * metrics)
}.

(** The body of the loop over folds. *)
Definition cv_fold (Xt : list X) (Y_bin Y_cnt : list (list Z))
    (it : nat * (list nat * list nat)) (st : cv_state) : option cv_state :=
  let fold := it.1 in
  let tr := it.2.1 in
  let te := it.2.2 in
  Xt_tr ← select Xt tr;
  Xt_te ← select Xt te;
  proba ← for_each (stage1_label Y_bin tr te Xt_tr Xt_te) (seq 0 (ncols Y_bin)) (cv_proba st);
  qty ← for_each (stage2_label Y_cnt tr te Xt_tr Xt_te) (seq 0 (ncols Y_cnt)) (cv_qty_pred st);
  qty ← apply_quantity_safeguard proba qty TOP_K;
  yb_tr ← select Y_bin tr; p_tr ← select proba tr;
  pm_tr ← evaluate yb_tr p_tr;
  yc_tr ← select Y_cnt tr; q_tr ← select qty tr;
  acc_tr ← accuracy_counts yc_tr q_tr;
  yb_te ← select Y_bin te; p_te ← select proba te;
  pm_val ← evaluate yb_te p_te;
  yc_te ← select Y_cnt te; q_te ← select qty te;
  acc_val ← accuracy_counts yc_te q_te;
  Some {| cv_proba := proba; cv_qty_pred := qty;
          cv_train_metrics :=
            cv_train_metrics st ++ [(fold, set_quantity_acc pm_tr acc_tr)];
          cv_val_metrics :=
            cv_val_metrics st ++ [(fold, set_quantity_acc pm_val acc_val)] |}.

(** [cross_validate_transformed].  The splitter first checks that its
    three arguments have the same number of rows. *)
Definition cross_validate_transformed (Xt : list X) (Y_bin Y_cnt : list (list Z))
    (groups : list G) : option cv_state :=
  if decide (length Xt = length Y_bin ∧ length Y_bin = length groups) then
    splits ← gkf_split group_le groups K_FOLDS;
    for_each (cv_fold Xt Y_bin Y_cnt) (imap (λ i s, (S i, s)) splits)
      {| cv_proba := zeros_like 0%Q Y_bin; cv_qty_pred := zeros_like 0 Y_cnt;
         cv_train_metrics := []; cv_val_metrics := [] |}
  else None.
End cross_validation.

(** ** Final refit on the full data *)

Section final_model.
Context {X : Type} `{!Learner X}.
Context {L : Type} `{Countable L} (label_le : relation L) `{!RelDecision label_le}.
Context {G : Type}.

(** The presence classifier of one label on the full data; labels with a
    single class get no entry. *)
Definition refit_presence (svm_max_iter random_state : Z) (X_final : list X)
    (Y_bin : list (list Z)) (il : nat * L) (class_clfs : gmap L calibrated) :
    option (gmap L calibrated) :=
  y ← mapM (λ row : list Z, row !! il.1) Y_bin;
  if decide (length (unique y) < 2)%nat then Some class_clfs
  else
    calibrator ← fit_calibrated svm_max_iter random_state X_final y;
    Some (<[il.2 := calibrator]> class_clfs).

(** The quantity model of one label on the full data, from the label's
    column of [Y_cnt]. *)
Definition refit_quantity_model (svm_max_iter random_state : Z) (X_final : list X)
    (col : list Z) : option quantity_model :=
  let mask := (λ q, bool_decide (0 < q)) <$> col in
  yq ← mask_select mask col;
  let uniq_vals := unique yq in
  if decide (3 ≤ length yq ∧ 2 ≤ length uniq_vals)%nat then
    xs ← mask_select mask X_final;
    qclf ← svc_fit svm_max_iter random_state xs yq;
    Some (QuantitySVC qclf)
  else
    let constant :=
      if decide (length yq ≠ 0%nat) then default 0 (head uniq_vals) else 0 in
    Some (Dummy constant).

Definition refit_quantity (svm_max_iter random_state : Z) (X_final : list X)
    (Y_cnt : list (list Z)) (il : nat * L) (qty_clfs : gmap L quantity_model) :
    option (gmap L quantity_model) :=
  col ← mapM (λ row : list Z, row !! il.1) Y_cnt;
  m ← refit_quantity_model svm_max_iter random_state X_final col;
  Some (<[il.2 := m]> qty_clfs).

(** [train_and_export_final_model], up to writing the four artifacts to
    disk. *)
Definition train_and_export_final_model (df : list (sample L G))
    (max_features n_topics svm_max_iter random_state : Z) :
    option (preprocessor * gmap L calibrated * list L * gmap L quantity_model) :=
  let frame := (λ r, (Instructions r, Asset r)) <$> df in
  let prep := fit_preprocessor max_features n_topics frame in
  let X_final := transform prep frame in
  '(_, Y_bin, Y_cnt, classes) ← make_targets label_le df;
  class_clfs ← for_each (refit_presence svm_max_iter random_state X_final Y_bin)
                 (imap pair classes) ∅;
  qty_clfs ← for_each (refit_quantity svm_max_iter random_state X_final Y_cnt)
               (imap pair classes) ∅;
  Some (prep, class_clfs, classes, qty_clfs).
End final_model.

(** ** The sets of the metrics

    [truth y_true i]: the labels of row [i] of the truth matrix, the
    columns that hold 1.  [predicted_set k proba i]: the positions the
    code selects for row [i], the slice [np.argsort(proba, axis=1)[i, -k:]],
    as a set. *)

Definition truth (y_true : list (list Z)) (i : nat) : gset nat :=
  let row := default [] (y_true !! i) in
  list_to_set (filter (λ l, row !! l = Some 1) (seq 0 (length row))).

Definition predicted_set `{!ArgSort} (k : Z) (proba : list (list Q)) (i : nat) : gset nat :=
  list_to_set (topk_row k (default [] (proba !! i))).

(** ** The top-K labels in the words of the specification

    "For each row select the top-K labels by probability": [S] is a set of
    [k] labels of the row, all of them when the row has fewer than [k],
    and no label left out is more probable than a label of [S].  The
    specification does not order equally probable labels, so a row with
    ties at the boundary has several such sets.  Nothing here refers to the
    code's sort. *)
Definition top_k_labels (k : Z) (row : list Q) (S : gset nat) : Prop :=
  (∀ j, j ∈ S → (j < length row)%nat)
  ∧ size S = Nat.min (Z.to_nat k) (length row)
  ∧ ∀ j j' p p', j ∈ S → j' ∉ S → row !! j = Some p → row !! j' = Some p' → (p' <= p)%Q.

(** A choice of [predicted_set(i)] for every row of the probability
    matrix. *)
Definition is_predicted_set (k : Z) (proba : list (list Q)) (pred : nat → gset nat) : Prop :=
  ∀ i row, proba !! i = Some row → top_k_labels k row (pred i).

(** No two labels of a row are equally probable. *)
Definition no_ties (row : list Q) : Prop :=
  ∀ j j' p p', row !! j = Some p → row !! j' = Some p' → (p == p')%Q → j = j'.

(** ** The safeguard as a cell-wise function

    The cells the two loops of [apply_quantity_safeguard] visit, in order,
    and the matrix the loops compute: a visited cell holding 0 becomes 1,
    every other cell keeps its value. *)

Definition visited_cells (tk : list (list nat)) : list (nat * nat) :=
  (imap (λ i idxs, (i, idxs)) tk) ≫= (λ ir, (λ j, (ir.1, j)) <$> ir.2).

Definition fix_cell (S : list (nat * nat)) (i j : nat) (v : Z) : Z :=
  if decide (v = 0 ∧ (i, j) ∈ S) then 1 else v.

Definition safeguard_pure (S : list (nat * nat)) (qty : list (list Z)) : list (list Z) :=
  imap (λ i row, imap (fix_cell S i) row) qty.

(** The body of the flattened loop. *)
Definition visit (c : nat * nat) (qty : list (list Z)) : option (list (list Z)) :=
  safeguard_cell c.1 c.2 qty.

(** ** The metrics in the words of the specification

    The formulas of the specification over a family [pred] of predicted
    sets, one per row. *)

(** |truth(i) ∩ predicted_set(i)| *)
Definition hits (pred : nat → gset nat) (y_true : list (list Z)) (i : nat) : nat :=
  size (truth y_true i ∩ pred i).

(** recall@K: the mean, over the rows with a non-empty truth set, of
    |truth(i) ∩ predicted_set(i)| / |truth(i)|; 0 when there is no such
    row. *)
Definition recall_at_k_spec (pred : nat → gset nat) (y_true : list (list Z)) : npfloat :=
  let rows := filter (λ i, truth y_true i ≠ ∅) (seq 0 (length y_true)) in
  match rows with
  | [] => Num 0%Q
  | _ :: _ =>
      mean ((λ i, ratio (hits pred y_true i) (size (truth y_true i))) <$> rows)
  end.

(** Partial coverage: the mean over all rows of
    |truth(i) ∩ predicted_set(i)| / max(1, |truth(i)|). *)
Definition coverage_term_spec (pred : nat → gset nat) (y_true : list (list Z))
    (i : nat) : Q :=
  ratio (hits pred y_true i) (Nat.max 1 (size (truth y_true i))).

Definition partial_coverage_spec (pred : nat → gset nat) (y_true : list (list Z)) :
    npfloat :=
  mean (coverage_term_spec pred y_true <$> seq 0 (length y_true)).

(** A binary matrix: every cell is 0 or 1. *)
Definition binary (M : list (list Z)) : Prop :=
  Forall (Forall (λ v, v = 0 ∨ v = 1)) M.

(** ** The constant of the specification *)

(** [c] is a most frequent value of [yq], or 0 when [yq] is empty. *)
Definition mode_or_zero (c : Z) (yq : list Z) : Prop :=
  match yq with
  | [] => c = 0
  | _ :: _ => c ∈ yq ∧ ∀ v, (count_occ v yq ≤ count_occ c yq)%nat
  end.

(** A quantity matrix without negative cells. *)
Definition nonneg (qty : list (list Z)) : Prop :=
  ∀ i j v, mat_get qty i j = Some v → 0 ≤ v.

(** ** Example data *)

(** Part identifiers as strings, in lexicographic order. *)
Definition string_le (a b : string) : Prop := String.leb a b = true.

#[export] Instance string_le_dec : RelDecision string_le.
Proof. intros a b. unfold string_le. apply _. Defined.

Definition df_two_rows : list (sample string Z) :=
  [ {| Instructions := "skift filter"; Asset := "pumpe"; Work_Order := 101;
       Product_ID := ["C"; "A"]; Quantity := [3; 2] |};
    {| Instructions := "smor leje"; Asset := "motor"; Work_Order := 102;
       Product_ID := ["B"]; Quantity := [1] |} ]%string.

(** A small learner for the examples: feature rows are numbers; the SVC
    predicts the first training target for every row; the internal
    three-fold calibration is infeasible on fewer than three rows; a model
    calibrated that way assigns probability 1/2, a prefit one 1/3. *)
#[export] Program Instance toy_learner : Learner nat := {|
  preprocessor := unit;
  svc := Z;
  calibrated := Q;
  fit_preprocessor _ _ _ := ();
  transform _ frame := seq 0 (length frame);
  svc_fit _ _ _ y := head y;
  svc_predict m xs := replicate (length xs) m;
  calibrate_cv _ xs _ := if decide (length xs < 3)%nat then None else Some (1 # 2)%Q;
  calibrate_prefit _ _ _ := Some (1 # 3)%Q;
  predict_proba1 c xs := replicate (length xs) c
|}.
Next Obligation. intros m xs. apply length_replicate. Qed.
Next Obligation. intros m xs. apply length_replicate. Qed.
Next Obligation.
  intros mi rs xs y m Hfit xs' v Hv. apply elem_of_replicate in Hv as [-> _].
  by apply head_Some_elem_of.
Qed.

(** Six jobs of five work orders over two parts: part 0 occurs in the
    first job only, part 1 in four jobs with quantities 4, 4, 2 and 2. *)
Definition cv_groups : list Z := [101; 102; 103; 104; 105; 105].
Definition cv_Xt : list nat := [0; 1; 2; 3; 4; 5]%nat.
Definition cv_Y_bin : list (list Z) := [[1; 1]; [0; 1]; [0; 0]; [0; 1]; [0; 1]; [0; 0]].
Definition cv_Y_cnt : list (list Z) := [[3; 4]; [0; 4]; [0; 0]; [0; 2]; [0; 2]; [0; 0]].

(** ** Notions used by the properties below *)

(** A number between 0 and 1. *)
Definition unit_interval (x : Q) : Prop := (0 <= x)%Q ∧ (x <= 1)%Q.

(** A metric that is a number between 0 and 1. *)
Definition unit_metric (x : npfloat) : Prop :=
  ∃ q, x = Num q ∧ unit_interval q.

(** A matrix of probabilities: every cell lies between 0 and 1. *)
Definition unit_cells (proba : list (list Q)) : Prop :=
  ∀ i j p, mat_get proba i j = Some p → unit_interval p.

(** The number [hamming_row] returns for a row of positive width: the share
    of agreeing cells. *)
Definition agreement (yt yp : list Z) : Q :=
  ratio (length (filter (λ ab, ab.1 = ab.2) (zip yt yp))) (length yt).

(** The cells [accuracy_counts] compares: truth and prediction where the
    truth is positive. *)
Definition positive_cells (y_true_cnt y_pred_cnt : list (list Z)) : list (Z * Z) :=
  filter (λ tp, 0 < tp.1) (zip (concat y_true_cnt) (concat y_pred_cnt)).

(** The least of the most frequent values. *)
Definition least_mode (c : Z) (yq : list Z) : Prop :=
  c ∈ yq ∧ (∀ v, (count_occ v yq ≤ count_occ c yq)%nat)
  ∧ ∀ v, v < c → (count_occ v yq < count_occ c yq)%nat.

(** The term of one row in [weighted_proba_score]: the probabilities of the
    top-K labels that are true, summed and divided by the number of true
    labels. *)
Definition weighted_term `{!ArgSort} (k : Z) (y_true : list (list Z))
    (proba : list (list Q)) (i : nat) : Q :=
  let prow := default [] (proba !! i) in
  (Qsum (key prow <$> filter (λ j, j ∈ truth y_true i) (topk_row k prow))
   / inject_Z (Z.of_nat (size (truth y_true i))))%Q.

(** Two jobs with numbered parts: the first repeats part 7, the second has
    one quantity for two parts. *)
Definition df_repeated_and_short : list (sample Z Z) :=
  [ {| Instructions := "skift pakning"; Asset := "ventil"; Work_Order := 201;
       Product_ID := [7; 3; 7]; Quantity := [2; 5; 4] |};
    {| Instructions := "rens filter"; Asset := "pumpe"; Work_Order := 202;
       Product_ID := [3; 9]; Quantity := [1] |} ]%string.

(** One job whose first quantity, 2^63, does not fit a signed 64-bit
    integer. *)
Definition df_huge_quantity : list (sample Z Z) :=
  [ {| Instructions := "skift filter"; Asset := "pumpe"; Work_Order := 301;
       Product_ID := [1; 2]; Quantity := [2 ^ 63; 5] |} ]%string.

(** * Proofs *)

(** ** An executable argsort *)

#[export] Instance key_le_total row : Total (key_le row).
Proof.
  intros a b. unfold key_le.
  destruct (Qlt_le_dec (key row b) (key row a)) as [Hlt|Hle]; [|by left].
  right. by apply Qlt_le_weak.
Qed.

#[export] Instance key_le_trans row : Transitive (key_le row).
Proof. intros a b c. unfold key_le. apply Qle_trans. Qed.

#[export] Program Instance merge_ArgSort : ArgSort := {|
  argsort := merge_argsort
|}.
Next Obligation. intros row. apply merge_sort_Permutation. Qed.
Next Obligation. intros row. apply (Sorted_merge_sort (key_le row)). Qed.

(** ** The model on small inputs *)

Example topk_row_last_two :
  topk_row 2 [1 # 10; 9 # 10; 1 # 2; 3 # 10]%Q = [2; 1]%nat.
Proof. vm_compute. reflexivity. Qed.

(** [a[-0:]] is the whole array: with [k = 0] every label is selected. *)
Example topk_row_zero_selects_all :
  topk_row 0 [1 # 10; 9 # 10; 1 # 2]%Q = [0; 2; 1]%nat.
Proof. vm_compute. reflexivity. Qed.

Example safeguard_fills_selected_zeros :
  apply_quantity_safeguard [[1 # 10; 9 # 10; 1 # 2]; [1 # 3; 0; 1 # 4]]%Q
    [[0; 0; 3]; [0; 2; 0]] 2
  = Some [[0; 1; 3]; [1; 2; 1]].
Proof. vm_compute. reflexivity. Qed.

(** A quantity matrix with fewer rows than the probability matrix: the
    second row raises. *)
Example safeguard_short_matrix_raises :
  apply_quantity_safeguard [[1 # 10; 9 # 10]; [1 # 3; 0]]%Q [[0; 0]] 1 = None.
Proof. vm_compute. reflexivity. Qed.

Example dict_of_zip_last_value_wins :
  dict_of_zip ["A"; "B"; "A"]%string [2; 1; 5] !! "A"%string = Some 5.
Proof. vm_compute. reflexivity. Qed.

Example bincount_argmax_first_mode :
  bincount [4; 2; 4; 2] = [0; 0; 2; 0; 2]%nat ∧ argmax (bincount [4; 2; 4; 2]) = 2%nat.
Proof. vm_compute. split; reflexivity. Qed.

(** A truth matrix of two rows against a prediction of one row: the row
    is compared with both. *)
Example hamming_score_broadcasts :
  (∃ q, hamming_score [[1; 0; 1]; [0; 0; 1]] [[1; 0; 0]] = Some (Num q) ∧ (q == 1 # 2)%Q)
  ∧ hamming_score [[1; 0; 1]; [0; 0; 1]] [[1; 0]] = None.
Proof. split; [|vm_compute; reflexivity]. eexists. split; [vm_compute|]; reflexivity. Qed.

(** A quantity of 2^63 is converted to the smallest 64-bit integer: no
    training row of the label is left, and the refit exports the
    constant 0 for it. *)
Example final_model_huge_quantity :
  (λ res, res.2 !! 1) <$> train_and_export_final_model (X := nat) Z.le df_huge_quantity
                            500 100 SVM_MAX_ITER RANDOM_STATE
  = Some (Some (Dummy 0)).
Proof. vm_compute. reflexivity. Qed.

Example gkf_split_too_few_groups : gkf_split Z.le [101; 101; 102] 5 = None.
Proof. vm_compute. reflexivity. Qed.

Example cross_validation_run :
  (λ res, (cv_proba res, cv_qty_pred res))
    <$> cross_validate_transformed Z.le cv_Xt cv_Y_bin cv_Y_cnt cv_groups
  = Some ([[0; 1 # 2]; [1 # 2; 1 # 2]; [1 # 2; 1 # 2];
           [1 # 2; 1 # 2]; [1 # 2; 1 # 2]; [1 # 2; 1 # 2]]%Q,
          [[1; 4]; [3; 4]; [3; 4]; [3; 4]; [3; 4]; [3; 4]]).
Proof. vm_compute. reflexivity. Qed.

(** ** The top-K selection *)

Section topk_facts.
Context `{!ArgSort}.

Lemma argsort_length (row : list Q) : length (argsort row) = length row.
Proof. rewrite (argsort_perm row). apply length_seq. Qed.

Lemma argsort_NoDup (row : list Q) : NoDup (argsort row).
Proof. rewrite (argsort_perm row). apply NoDup_seq. Qed.

Lemma topk_row_NoDup (k : Z) (row : list Q) : NoDup (topk_row k row).
Proof.
  unfold topk_row, slice_from. set (s := Z.to_nat _).
  pose proof (argsort_NoDup row) as Hnd.
  rewrite <- (take_drop s (argsort row)) in Hnd.
  by apply NoDup_app in Hnd as (_ & _ & ?).
Qed.

Lemma topk_row_nil (k : Z) : topk_row k [] = [].
Proof.
  unfold topk_row, slice_from.
  assert (Hnil : argsort [] = []).
  { apply length_zero_iff_nil. by rewrite argsort_length. }
  rewrite Hnil. by rewrite drop_nil.
Qed.

(** For a positive [k] the selection holds [k] labels, or all of them when
    the row has fewer. *)
Lemma topk_row_length (k : Z) (row : list Q) :
  0 < k → length (topk_row k row) = Nat.min (Z.to_nat k) (length row).
Proof.
  intros Hk. unfold topk_row, slice_from.
  assert (Hlen : length (argsort row) = length row).
  { rewrite (argsort_perm row). apply length_seq. }
  rewrite decide_True by lia. rewrite length_drop, Hlen. lia.
Qed.

(** No label outside the selection has a higher probability than a label
    inside it. *)
Lemma topk_row_highest (k : Z) (row : list Q) (j j' : nat) :
  j ∈ topk_row k row → (j' < length row)%nat → j' ∉ topk_row k row →
  (key row j' <= key row j)%Q.
Proof.
  unfold topk_row, slice_from. set (s := Z.to_nat _). intros Hj Hj' Hout.
  assert (Hin : j' ∈ argsort row).
  { rewrite (argsort_perm row). apply elem_of_seq. lia. }
  rewrite <- (take_drop s (argsort row)) in Hin.
  apply elem_of_app in Hin as [Hin|Hin]; [|done].
  pose proof (argsort_sorted row) as Hsorted.
  apply (Sorted_StronglySorted (key_le row)) in Hsorted.
  rewrite <- (take_drop s (argsort row)) in Hsorted.
  by apply (StronglySorted_app_1_elem_of _ _ _ j' j Hsorted).
Qed.
End topk_facts.

(** ** Loops that may raise *)

Section for_each_facts.
Context {A B : Type}.
Implicit Types (body : A → B → option B) (l : list A) (s : B).

Lemma for_each_app body l1 l2 s :
  for_each body (l1 ++ l2) s = for_each body l1 s ≫= for_each body l2.
Proof.
  revert s. induction l1 as [|x l1 IH]; intros s; simpl; [done|].
  destruct (body x s) as [s'|]; simpl; [apply IH|done].
Qed.

Lemma for_each_fmap {C} (g : C → A) body (l : list C) s :
  for_each body (g <$> l) s = for_each (λ c, body (g c)) l s.
Proof.
  revert s. induction l as [|x l IH]; intros s; simpl; [done|].
  destruct (body (g x) s) as [s'|]; simpl; [apply IH|done].
Qed.

(** A property of the state that every iteration maintains holds at the
    end of the loop. *)
Lemma for_each_invariant (P : B → Prop) body l s s' :
  (∀ x t t', x ∈ l → P t → body x t = Some t' → P t') →
  P s → for_each body l s = Some s' → P s'.
Proof.
  revert s. induction l as [|x l IH]; intros s Hstep Hs Hrun; simpl in Hrun.
  - by simplify_eq.
  - destruct (body x s) as [t|] eqn:Hb; simpl in Hrun; [|done].
    apply (IH t); [|by eapply Hstep; [left|..]|done].
    intros y u u' Hy. apply Hstep. by right.
Qed.
End for_each_facts.

(** ** The quantity safeguard *)

Section safeguard_facts.
Implicit Types (qty : list (list Z)) (S : list (nat * nat)).

Lemma mat_get_safeguard_pure S qty i j :
  mat_get (safeguard_pure S qty) i j = fix_cell S i j <$> mat_get qty i j.
Proof.
  unfold mat_get, safeguard_pure. rewrite list_lookup_imap.
  destruct (qty !! i) as [row|]; simpl; [|done].
  apply list_lookup_imap.
Qed.

Lemma mat_ext {A} (M M' : list (list A)) :
  length M = length M' →
  (∀ i r r', M !! i = Some r → M' !! i = Some r' → length r = length r') →
  (∀ i j, mat_get M i j = mat_get M' i j) → M = M'.
Proof.
  intros Hlen Hrows Hget. apply list_eq. intros i.
  destruct (M !! i) as [r|] eqn:Hr, (M' !! i) as [r'|] eqn:Hr'.
  - f_equal. apply list_eq. intros j.
    specialize (Hget i j). unfold mat_get in Hget. by rewrite Hr, Hr' in Hget.
  - apply lookup_lt_Some in Hr. apply lookup_ge_None in Hr'. lia.
  - apply lookup_lt_Some in Hr'. apply lookup_ge_None in Hr. lia.
  - done.
Qed.

Lemma safeguard_pure_nil qty : safeguard_pure [] qty = qty.
Proof.
  apply mat_ext.
  - unfold safeguard_pure. by rewrite length_imap.
  - unfold safeguard_pure. intros i r r'. rewrite list_lookup_imap.
    intros Hr Hr'. rewrite Hr' in Hr. simpl in Hr. simplify_eq.
    by rewrite length_imap.
  - intros i j. rewrite mat_get_safeguard_pure.
    destruct (mat_get qty i j) as [v|]; simpl; [|done].
    unfold fix_cell. case_decide as Hd; [|done]. destruct Hd as [_ Hd]. by apply elem_of_nil in Hd.
Qed.

Lemma fix_cell_cons S c i j v :
  fix_cell S i j (fix_cell [c] i j v) = fix_cell (c :: S) i j v.
Proof.
  unfold fix_cell. destruct (decide (v = 0 ∧ (i, j) ∈ [c])) as [[-> Hc]|Hn].
  - rewrite decide_False by (by intros [? _]).
    rewrite decide_True; [done|]. split; [done|].
    apply list_elem_of_singleton in Hc. subst c. left.
  - destruct (decide (v = 0 ∧ (i, j) ∈ S)) as [[-> Hc]|Hn'].
    + rewrite decide_True; [done|]. split; [done|]. by right.
    + rewrite decide_False; [done|]. intros [-> Hin].
      apply elem_of_cons in Hin as [<-|Hin].
      * apply Hn. split; [done|]. left.
      * by apply Hn'.
Qed.

Lemma safeguard_pure_cons S c qty :
  safeguard_pure S (safeguard_pure [c] qty) = safeguard_pure (c :: S) qty.
Proof.
  unfold safeguard_pure. apply list_eq. intros i.
  rewrite !list_lookup_imap. destruct (qty !! i) as [row|]; simpl; [|done].
  f_equal. apply list_eq. intros j. rewrite !list_lookup_imap.
  destruct (row !! j) as [v|]; simpl; [|done]. f_equal. apply fix_cell_cons.
Qed.

(** One visit, when the cell exists. *)
Lemma safeguard_cell_Some i j qty v :
  mat_get qty i j = Some v → safeguard_cell i j qty = Some (safeguard_pure [(i, j)] qty).
Proof.
  intros Hv. unfold safeguard_cell. rewrite Hv. simpl.
  assert (∃ row, qty !! i = Some row ∧ row !! j = Some v) as (row & Hrow & Hj).
  { unfold mat_get in Hv. destruct (qty !! i) as [row|]; simpl in Hv; [|done]. eauto. }
  assert (Hlt : (j < length row)%nat) by by eapply lookup_lt_Some.
  assert (Heq : (if decide (v = 0) then <[i := <[j := 1]> row]> qty else qty)
                = safeguard_pure [(i, j)] qty).
  { apply list_eq. intros i'. unfold safeguard_pure. rewrite list_lookup_imap.
    destruct (decide (i' = i)) as [->|Hne].
    - rewrite Hrow. simpl.
      transitivity (Some (if decide (v = 0) then <[j := 1]> row else row)).
      { case_decide; [|done]. apply list_lookup_insert_eq. by eapply lookup_lt_Some. }
      f_equal. apply list_eq. intros j'. rewrite list_lookup_imap.
      destruct (decide (j' = j)) as [->|Hnej].
      + rewrite Hj. simpl. unfold fix_cell.
        case_decide; subst.
        * rewrite list_lookup_insert_eq by done. rewrite decide_True; [done|set_solver].
        * rewrite Hj. rewrite decide_False; [done|]. intros [? _]. done.
      + transitivity (row !! j').
        { case_decide; [|done]. by apply list_lookup_insert_ne. }
        destruct (row !! j') as [v'|]; simpl; [|done]. unfold fix_cell.
        rewrite decide_False; [done|]. intros [_ Hin]. apply list_elem_of_singleton in Hin.
        simplify_eq.
    - transitivity (qty !! i').
      { case_decide; [|done]. by apply list_lookup_insert_ne. }
      destruct (qty !! i') as [row'|]; simpl; [|done]. f_equal.
      apply list_eq. intros j'. rewrite list_lookup_imap.
      destruct (row' !! j') as [v'|]; simpl; [|done]. unfold fix_cell.
      rewrite decide_False; [done|]. intros [_ Hin]. apply list_elem_of_singleton in Hin.
      simplify_eq. }
  rewrite <- Heq. case_decide; [|done].
  unfold mat_set. rewrite Hrow. simpl. by rewrite decide_True.
Qed.

Lemma safeguard_cell_is_Some i j qty :
  is_Some (safeguard_cell i j qty) → is_Some (mat_get qty i j).
Proof.
  unfold safeguard_cell. destruct (mat_get qty i j); [eauto|]. simpl. by intros [? ?].
Qed.
End safeguard_facts.

Section safeguard_run.
Context `{!ArgSort}.
Implicit Types (qty : list (list Z)) (S : list (nat * nat)).

Lemma mat_get_safeguard_pure_is_Some S qty i j :
  is_Some (mat_get (safeguard_pure S qty) i j) ↔ is_Some (mat_get qty i j).
Proof. rewrite mat_get_safeguard_pure. by rewrite fmap_is_Some. Qed.

(** The nested loops are one loop over the visited cells. *)
Lemma apply_quantity_safeguard_cells proba qty k :
  apply_quantity_safeguard proba qty k
  = for_each visit (visited_cells (topk k proba)) qty.
Proof.
  unfold apply_quantity_safeguard, visited_cells.
  generalize (imap (λ i idxs, (i, idxs)) (topk k proba)). intros irs. revert qty.
  induction irs as [|[i idxs] irs IH]; intros qty; [done|].
  rewrite bind_cons, for_each_app, for_each_fmap. cbn [fst snd].
  change (for_each safeguard_row ((i, idxs) :: irs) qty)
    with (safeguard_row (i, idxs) qty ≫= for_each safeguard_row irs).
  change (safeguard_row (i, idxs) qty) with (for_each (λ j, visit (i, j)) idxs qty).
  destruct (for_each (λ j, visit (i, j)) idxs qty) as [q|]; simpl; [apply IH|done].
Qed.

(** The loop succeeds exactly when every visited cell exists, and then
    computes [safeguard_pure]. *)
Lemma visit_cells_Some S qty :
  (∀ c, c ∈ S → is_Some (mat_get qty c.1 c.2)) →
  for_each visit S qty = Some (safeguard_pure S qty).
Proof.
  revert qty. induction S as [|[i j] S IH]; intros qty Hin.
  - simpl. by rewrite safeguard_pure_nil.
  - destruct (Hin (i, j)) as [v Hv]; [left|]. simpl in Hv.
    change (for_each visit ((i, j) :: S) qty)
      with (safeguard_cell i j qty ≫= for_each visit S).
    rewrite (safeguard_cell_Some _ _ _ _ Hv). simpl.
    rewrite IH, safeguard_pure_cons; [done|].
    intros c Hc. apply mat_get_safeguard_pure_is_Some. apply Hin. by right.
Qed.

Lemma visit_cells_inv S qty qty' :
  for_each visit S qty = Some qty' →
  (∀ c, c ∈ S → is_Some (mat_get qty c.1 c.2)) ∧ qty' = safeguard_pure S qty.
Proof.
  revert qty. induction S as [|[i j] S IH]; intros qty Hrun.
  - simpl in Hrun. simplify_eq. split; [|by rewrite safeguard_pure_nil].
    intros c Hc. by apply elem_of_nil in Hc.
  - change (for_each visit ((i, j) :: S) qty)
      with (safeguard_cell i j qty ≫= for_each visit S) in Hrun.
    destruct (safeguard_cell i j qty) as [q|] eqn:Hq; simpl in Hrun; [|done].
    destruct (safeguard_cell_is_Some i j qty) as [v Hv]; [by rewrite Hq|].
    rewrite (safeguard_cell_Some _ _ _ _ Hv) in Hq. simplify_eq.
    apply IH in Hrun as [Hin ->]. split; [|by rewrite safeguard_pure_cons].
    intros c Hc. apply elem_of_cons in Hc as [->|Hc]; [simpl; by rewrite Hv|].
    apply mat_get_safeguard_pure_is_Some with (S := [(i, j)]). by apply Hin.
Qed.

Lemma fix_cell_idemp S i j v : fix_cell S i j (fix_cell S i j v) = fix_cell S i j v.
Proof.
  unfold fix_cell. destruct (decide (v = 0 ∧ (i, j) ∈ S)) as [?|Hn].
  - by rewrite decide_False by (by intros [? _]).
  - by rewrite decide_False.
Qed.

Lemma safeguard_pure_idemp S qty :
  safeguard_pure S (safeguard_pure S qty) = safeguard_pure S qty.
Proof.
  unfold safeguard_pure. apply list_eq. intros i.
  rewrite !list_lookup_imap. destruct (qty !! i) as [row|]; simpl; [|done].
  f_equal. apply list_eq. intros j. rewrite !list_lookup_imap.
  destruct (row !! j) as [v|]; simpl; [|done]. f_equal. apply fix_cell_idemp.
Qed.

(** Positions returned by the top-K selection are columns of the row. *)
Lemma topk_row_lt k row j : j ∈ topk_row k row → (j < length row)%nat.
Proof.
  unfold topk_row, slice_from. intros Hj.
  assert (Hin : j ∈ argsort row).
  { revert Hj. generalize (Z.to_nat
      (if decide (- k < 0) then Z.max 0 (- k + Z.of_nat (length (argsort row)))
       else Z.min (- k) (Z.of_nat (length (argsort row))))). intros n Hj.
    apply list_elem_of_lookup in Hj as [p Hp]. rewrite lookup_drop in Hp.
    by eapply list_elem_of_lookup_2. }
  rewrite (argsort_perm row) in Hin. apply elem_of_seq in Hin. lia.
Qed.

Lemma elem_of_visited_cells tk i j :
  (i, j) ∈ visited_cells tk ↔ ∃ idxs, tk !! i = Some idxs ∧ j ∈ idxs.
Proof.
  unfold visited_cells. rewrite list_elem_of_bind. split.
  - intros ([i' idxs] & Hij & Hir). simpl in Hij.
    apply list_elem_of_fmap in Hij as (j' & Heq & Hj'). simplify_eq.
    apply list_elem_of_lookup in Hir as [p Hp].
    apply list_lookup_imap_Some in Hp as (idxs' & Hp & Heq). simplify_eq. eauto.
  - intros (idxs & Hi & Hj). exists (i, idxs). split.
    + simpl. apply list_elem_of_fmap. eauto.
    + apply list_elem_of_lookup. exists i. rewrite list_lookup_imap, Hi. done.
Qed.
End safeguard_run.

Lemma same_shape_lookup {A B} (M : list (list A)) (M' : list (list B)) i r :
  same_shape M M' → M !! i = Some r → ∃ r', M' !! i = Some r' ∧ length r = length r'.
Proof. intros Hs Hr. by apply (Forall2_lookup_l _ _ _ _ _ Hs Hr). Qed.

(** ** The selection against the words of the specification *)

Section topk_spec.
Context `{!ArgSort}.

(** For a positive [k] the slice the code takes is a set of the [k] most
    probable labels of the row. *)
Lemma topk_row_top_k_labels (k : Z) (row : list Q) :
  0 < k → top_k_labels k row (list_to_set (topk_row k row)).
Proof.
  intros Hk. split; [|split].
  - intros j Hj. apply elem_of_list_to_set in Hj. by eapply topk_row_lt.
  - rewrite size_list_to_set by apply topk_row_NoDup. by apply topk_row_length.
  - intros j j' p p' Hj Hj' Hp Hp'. rewrite elem_of_list_to_set in Hj, Hj'.
    pose proof (topk_row_highest k row j j' Hj (lookup_lt_Some _ _ _ Hp') Hj') as Hle.
    unfold key in Hle. by rewrite Hp, Hp' in Hle.
Qed.

Lemma predicted_set_top_k (k : Z) (proba : list (list Q)) :
  0 < k → is_predicted_set k proba (predicted_set k proba).
Proof.
  intros Hk i row Hrow. unfold predicted_set. rewrite Hrow. by apply topk_row_top_k_labels.
Qed.
End topk_spec.

Lemma difference_empty_subseteq (S S' : gset nat) : S ∖ S' = ∅ → S ⊆ S'.
Proof.
  intros Hempty x Hx. destruct (decide (x ∈ S')) as [|Hout]; [done|]. exfalso.
  assert (Hd : x ∈ S ∖ S') by (by apply elem_of_difference).
  rewrite Hempty in Hd. by apply not_elem_of_empty in Hd.
Qed.

(** Two sets of the same size, neither inside the other: each has an
    element the other lacks. *)
Lemma same_size_exchange (S S' : gset nat) :
  size S = size S' → S ≠ S' → ∃ j j', j ∈ S ∧ (j ∉ S') ∧ (j' ∈ S') ∧ (j' ∉ S).
Proof.
  intros Hsz Hne.
  destruct (decide (S ∖ S' = ∅)) as [He|He].
  { destruct Hne. apply set_subseteq_size_eq; [|lia].
    by apply difference_empty_subseteq. }
  destruct (decide (S' ∖ S = ∅)) as [He'|He'].
  { destruct Hne. symmetry. apply set_subseteq_size_eq; [|lia].
    by apply difference_empty_subseteq. }
  apply set_choose_L in He as [j Hj]. apply set_choose_L in He' as [j' Hj'].
  apply elem_of_difference in Hj as [? ?]. apply elem_of_difference in Hj' as [? ?].
  by exists j, j'.
Qed.

(** Without ties the specification determines the top-K set of a row. *)
Lemma top_k_labels_unique (k : Z) (row : list Q) (S S' : gset nat) :
  no_ties row → top_k_labels k row S → top_k_labels k row S' → S = S'.
Proof.
  intros Hnt (Hin & Hsz & Hhi) (Hin' & Hsz' & Hhi').
  destruct (decide (S = S')) as [|Hne]; [done|]. exfalso.
  destruct (same_size_exchange S S') as (j & j' & Hj & Hjo & Hj' & Hjo'); [lia|done|].
  destruct (lookup_lt_is_Some_2 row j (Hin j Hj)) as [p Hp].
  destruct (lookup_lt_is_Some_2 row j' (Hin' j' Hj')) as [p' Hp'].
  pose proof (Hhi j j' p p' Hj Hjo' Hp Hp') as Hle.
  pose proof (Hhi' j' j p' p Hj' Hjo Hp' Hp) as Hle'.
  assert (Heq : j = j') by (apply (Hnt j j' p p' Hp Hp'); by apply Qle_antisym).
  subst j'. done.
Qed.

Lemma is_predicted_set_unique (k : Z) (proba : list (list Q)) (pred pred' : nat → gset nat) :
  (∀ i row, proba !! i = Some row → no_ties row) →
  is_predicted_set k proba pred → is_predicted_set k proba pred' →
  ∀ i, (i < length proba)%nat → pred i = pred' i.
Proof.
  intros Hnt Hp Hp' i Hi. destruct (lookup_lt_is_Some_2 proba i Hi) as [row Hrow].
  eapply top_k_labels_unique; [by eapply Hnt|by apply Hp|by apply Hp'].
Qed.




(** C9.  The safeguard is idempotent: a second application with the same
    probability matrix returns the matrix the first application returned
    (and the first application returns whenever the shapes agree). *)
Theorem apply_quantity_safeguard_idempotent `{!ArgSort} (proba : list (list Q))
    (qty : list (list Z)) (k : Z) :
  (∀ qty', apply_quantity_safeguard proba qty k = Some qty' →
           apply_quantity_safeguard proba qty' k = Some qty') ∧
  (same_shape proba qty → is_Some (apply_quantity_safeguard proba qty k)).
Proof.
  split.
  - intros qty'. rewrite !apply_quantity_safeguard_cells. intros Hrun.
    apply visit_cells_inv in Hrun as [Hin ->].
    rewrite visit_cells_Some; [by rewrite safeguard_pure_idemp|].
    intros c Hc. apply mat_get_safeguard_pure_is_Some. by apply Hin.
  - intros Hshape. rewrite apply_quantity_safeguard_cells, visit_cells_Some; [done|].
    intros [i j] Hc. apply elem_of_visited_cells in Hc as (idxs & Hi & Hj).
    unfold topk in Hi. rewrite list_lookup_fmap in Hi.
    destruct (proba !! i) as [row|] eqn:Hrow; simpl in Hi; [|done]. simplify_eq.
    apply topk_row_lt in Hj.
    destruct (same_shape_lookup _ _ _ _ Hshape Hrow) as (qrow & Hq & Hlen).
    simpl. unfold mat_get. rewrite Hq. simpl. apply lookup_lt_is_Some_2. lia.
Qed.

Lemma apply_quantity_safeguard_idempotent_witness :
  apply_quantity_safeguard
    [[1 # 10; 9 # 10; 1 # 2]]%Q [[0; 1; 3]] 2 = Some [[0; 1; 3]].
Proof.
  apply (proj1 (apply_quantity_safeguard_idempotent
                  [[1 # 10; 9 # 10; 1 # 2]]%Q [[0; 0; 3]] 2)).
  vm_compute. reflexivity.
Defined.

(** ** The conversion to 64-bit integers *)

Lemma discover_fits (v : Z) : fits_int64 v → discover v = Int64.
Proof. intros Hv. unfold discover. by rewrite decide_True. Qed.

Lemma foldl_promote_int64 (vs : list Z) :
  Forall fits_int64 vs → foldl (λ d w, promote d (discover w)) Int64 vs = Int64.
Proof.
  induction 1 as [|v vs Hv _ IH]; [done|]. cbn [foldl].
  by rewrite (discover_fits v Hv).
Qed.

Lemma result_type_fits (cells : list Z) :
  cells ≠ [] → Forall fits_int64 cells → result_type cells = Int64.
Proof.
  destruct cells as [|v vs]; [done|]. intros _ Hall.
  apply Forall_cons in Hall as [Hv Hvs]. unfold result_type.
  rewrite (discover_fits v Hv). by apply foldl_promote_int64.
Qed.

Lemma concat_nil_rows {A} (rows : list (list A)) :
  concat rows = [] → Forall (λ row, row = []) rows.
Proof.
  induction rows as [|row rows IH]; [done|]. simpl. intros Hnil.
  apply app_eq_nil in Hnil as [-> Hrows]. constructor; [done|by apply IH].
Qed.

Lemma Forall_concat_rows {A} (P : A → Prop) (rows : list (list A)) :
  Forall (Forall P) rows → Forall P (concat rows).
Proof.
  induction 1 as [|row rows Hrow _ IH]; [done|]. simpl. by apply Forall_app.
Qed.

(** Integers that fit 64 bits are converted to themselves. *)
Lemma astype_int_fits (rows : list (list Z)) :
  Forall (Forall fits_int64) rows → astype_int rows = Some rows.
Proof.
  intros Hall. unfold astype_int. destruct (decide (concat rows = [])) as [Hnil|Hne].
  - rewrite Hnil. simpl. f_equal. apply concat_nil_rows in Hnil.
    induction Hnil as [|row rows -> _ IH]; [done|].
    apply Forall_cons in Hall as [_ Hall]. rewrite fmap_cons, IH by done. done.
  - rewrite result_type_fits by (done || by apply Forall_concat_rows). simpl. f_equal.
    clear. induction rows as [|row rows IH]; [done|]. rewrite fmap_cons, IH. f_equal.
    induction row as [|v row IHrow]; [done|]. by rewrite fmap_cons, IHrow.
Qed.

(** When the conversion returns, it has applied one cell conversion to
    every cell. *)
Lemma astype_int_Some (rows rows' : list (list Z)) :
  astype_int rows = Some rows' →
  ∃ d, rows' = (λ row : list Z, astype_int_cell d <$> row) <$> rows.
Proof. unfold astype_int. case_decide; [done|]. intros ?; simplify_eq. eauto. Qed.

Lemma astype_int_cell_zero (d : dtype) : astype_int_cell d 0 = 0.
Proof. by destruct d. Qed.

Lemma mat_get_astype_int (rows rows' : list (list Z)) :
  astype_int rows = Some rows' →
  ∃ d, ∀ i j, mat_get rows' i j = astype_int_cell d <$> mat_get rows i j.
Proof.
  intros Hrun. apply astype_int_Some in Hrun as [d ->]. exists d. intros i j.
  unfold mat_get. rewrite list_lookup_fmap. destruct (rows !! i) as [row|]; simpl; [|done].
  by rewrite list_lookup_fmap.
Qed.

(** ** Target construction *)

Section targets_facts.
Context {L : Type} `{Countable L} (label_le : relation L) `{!RelDecision label_le}.
Context {G : Type}.
Implicit Types (m : gmap L Z) (pqs : list (L * Z)).

Lemma dict_foldl_lookup_Some pqs m k v :
  foldl dict_insert m pqs !! k = Some v → (k, v) ∈ pqs ∨ m !! k = Some v.
Proof.
  revert m. induction pqs as [|[p q] pqs IH]; intros m Hk; simpl in Hk; [by right|].
  apply IH in Hk as [Hk|Hk]; [left; by right|].
  unfold dict_insert in Hk. simpl in Hk.
  destruct (decide (p = k)) as [->|Hne].
  - rewrite lookup_insert_eq in Hk. simplify_eq. left. left.
  - rewrite lookup_insert_ne in Hk by done. by right.
Qed.

Lemma dict_foldl_lookup_is_Some pqs m k :
  k ∈ pqs.*1 ∨ is_Some (m !! k) → is_Some (foldl dict_insert m pqs !! k).
Proof.
  revert m. induction pqs as [|[p q] pqs IH]; intros m Hk; simpl.
  - destruct Hk as [Hk|Hk]; [by apply elem_of_nil in Hk|done].
  - apply IH. destruct Hk as [Hk|Hk].
    + simpl in Hk. apply elem_of_cons in Hk as [->|Hk]; [|by left].
      right. unfold dict_insert. simpl. by rewrite lookup_insert_eq.
    + right. unfold dict_insert. simpl.
      destruct (decide (p = k)) as [->|Hne];
        [by rewrite lookup_insert_eq|by rewrite lookup_insert_ne].
Qed.

(** With aligned lists of positive quantities, the dictionary holds a
    positive quantity exactly for the labels of the row. *)
Lemma dict_of_zip_positive (ps : list L) (qs : list Z) (cls : L) :
  length qs = length ps → Forall (λ q, 0 < q) qs →
  0 < default 0 (dict_of_zip ps qs !! cls) ↔ cls ∈ ps.
Proof.
  intros Hlen Hpos. unfold dict_of_zip. split.
  - destruct (foldl dict_insert ∅ (zip ps qs) !! cls) as [v|] eqn:Hv; simpl; [|lia].
    intros _. apply dict_foldl_lookup_Some in Hv as [Hv|Hv]; [|by rewrite lookup_empty in Hv].
    by apply elem_of_zip_l in Hv.
  - intros Hcls.
    destruct (dict_foldl_lookup_is_Some (zip ps qs) ∅ cls) as [v Hv].
    { left. rewrite fst_zip by lia. done. }
    rewrite Hv. simpl.
    apply dict_foldl_lookup_Some in Hv as [Hv|Hv]; [|by rewrite lookup_empty in Hv].
    apply elem_of_zip_r in Hv. by eapply Forall_forall in Hpos.
Qed.

(** The counts [cnt_vec] returns are quantities of the row, or 0. *)
Lemma cnt_vec_fits (classes : list L) (r : sample L G) :
  Forall fits_int64 (Quantity r) → Forall fits_int64 (cnt_vec classes r).
Proof.
  intros Hq. unfold cnt_vec. apply Forall_fmap, Forall_forall. intros cls _. simpl.
  unfold dict_of_zip.
  destruct (foldl dict_insert ∅ (zip (Product_ID r) (Quantity r)) !! cls) as [v|] eqn:Hv;
    simpl; [|done].
  apply dict_foldl_lookup_Some in Hv as [Hv|Hv]; [|by rewrite lookup_empty in Hv].
  apply elem_of_zip_r in Hv. by eapply Forall_forall in Hq.
Qed.

Lemma make_targets_Some (df : list (sample L G)) X Y_bin Y_cnt mlb :
  make_targets label_le df = Some (X, Y_bin, Y_cnt, mlb) →
  mlb = classes_ label_le (Product_ID <$> df)
  ∧ Y_bin = (λ r, binarize mlb (Product_ID r)) <$> df
  ∧ astype_int (cnt_vec mlb <$> df) = Some Y_cnt.
Proof.
  unfold make_targets. intros Hmk.
  destruct (astype_int _) as [Y|] eqn:Hcast; simpl in Hmk; [|done]. by simplify_eq.
Qed.

(** With quantities of 64 bits the conversion changes nothing. *)
Lemma make_targets_fits (df : list (sample L G)) :
  Forall (λ r, Forall fits_int64 (Quantity r)) df →
  make_targets label_le df
  = Some ((λ r, (Instructions r, Asset r)) <$> df,
          (λ r, binarize (classes_ label_le (Product_ID <$> df)) (Product_ID r)) <$> df,
          cnt_vec (classes_ label_le (Product_ID <$> df)) <$> df,
          classes_ label_le (Product_ID <$> df)).
Proof.
  intros Hdf. unfold make_targets. rewrite astype_int_fits; [done|].
  apply Forall_fmap. eapply Forall_impl; [done|]. intros r Hr. by apply cnt_vec_fits.
Qed.

(** C1 (LabelSpace.transform).  For a dataframe whose quantity lists are
    aligned with the label lists and hold positive integers of 64 bits
    (at most 2^63 - 1), [make_targets] returns, and its two matrices
    have one row per sample and one column per class such that, in every
    cell, the count is positive exactly when the presence bit is 1. *)
Theorem make_targets_count_positive_iff_present (df : list (sample L G)) :
  Forall (λ r, length (Quantity r) = length (Product_ID r)
               ∧ Forall (λ q, 0 < q ≤ int64_max) (Quantity r)) df →
  is_Some (make_targets label_le df)
  ∧ ∀ X Y_bin Y_cnt mlb, make_targets label_le df = Some (X, Y_bin, Y_cnt, mlb) →
    ∀ i l, (i < length df)%nat → (l < length mlb)%nat →
      ∃ b c, mat_get Y_bin i l = Some b ∧ mat_get Y_cnt i l = Some c
             ∧ (0 < c ↔ b = 1).
Proof.
  intros Hdf.
  assert (Hfits : Forall (λ r : sample L G, Forall fits_int64 (Quantity r)) df).
  { eapply Forall_impl; [done|]. intros r [_ Hq]. simpl.
    eapply Forall_impl; [done|]. intros q Hpos.
    unfold fits_int64, int64_min, int64_max in *. lia. }
  pose proof (make_targets_fits df Hfits) as Hrun. split; [by rewrite Hrun|].
  intros X Y_bin Y_cnt mlb Hmk i l Hi Hl. rewrite Hrun in Hmk. simplify_eq.
  destruct (lookup_lt_is_Some_2 df i Hi) as [r Hr].
  destruct (lookup_lt_is_Some_2 _ l Hl) as [cls Hcls].
  eapply Forall_lookup_1 in Hdf as [Hlen Hpos]; [|exact Hr].
  exists (if decide (cls ∈ Product_ID r) then 1 else 0),
         (default 0 (dict_of_zip (Product_ID r) (Quantity r) !! cls)).
  split; [|split].
  - unfold mat_get, binarize. rewrite list_lookup_fmap, Hr. simpl.
    by rewrite list_lookup_fmap, Hcls.
  - unfold mat_get, cnt_vec. rewrite list_lookup_fmap, Hr. simpl.
    by rewrite list_lookup_fmap, Hcls.
  - rewrite dict_of_zip_positive; [case_decide; split; (done || lia)|done|].
    eapply Forall_impl; [done|]. intros q [? _]. done.
Qed.
End targets_facts.

Lemma make_targets_count_positive_iff_present_witness :
  is_Some (make_targets string_le df_two_rows)
  ∧ ∃ b c, mat_get [[1; 0; 1]; [0; 1; 0]] 0 2 = Some b
           ∧ mat_get [[2; 0; 3]; [0; 1; 0]] 0 2 = Some c
           ∧ (0 < c ↔ b = 1).
Proof.
  destruct (make_targets_count_positive_iff_present string_le df_two_rows) as [Hret Hcells].
  - repeat constructor; simpl; unfold int64_max; lia.
  - split; [exact Hret|].
    apply (Hcells [("skift filter", "pumpe"); ("smor leje", "motor")]%string
             [[1; 0; 1]; [0; 1; 0]] [[2; 0; 3]; [0; 1; 0]] ["A"; "B"; "C"]%string).
    + vm_compute. reflexivity.
    + simpl. lia.
    + simpl. lia.
Defined.

(** The claim without the bound: one quantity of 2^63 beside a quantity of
    5.  The row of Python integers becomes a [float64] array, and its
    conversion leaves the smallest 64-bit integer in the cell of a label
    that is present. *)
Lemma make_targets_count_not_positive_at_2_pow_63 :
  Forall (λ r : sample Z Z, length (Quantity r) = length (Product_ID r)
                            ∧ Forall (λ q, 0 < q) (Quantity r)) df_huge_quantity
  ∧ make_targets Z.le df_huge_quantity
    = Some ([("skift filter", "pumpe")]%string, [[1; 1]], [[- 2 ^ 63; 5]], [1; 2])
  ∧ mat_get [[1; 1]] 0 0 = Some 1
  ∧ mat_get [[- 2 ^ 63; 5]] 0 0 = Some (- 2 ^ 63)
  ∧ ¬ (0 < - 2 ^ 63 ↔ 1 = 1).
Proof.
  split; [repeat constructor; simpl; lia|]. split; [vm_compute; reflexivity|].
  split; [done|]. split; [done|]. intros [_ Hpos]. specialize (Hpos eq_refl). lia.
Qed.

(** ** Intersection over union *)

(** A comprehension over [range(len(M))] that reads row [i] of a second
    sequence [M'] raises only if [M'] is too short. *)
Lemma mapM_imap_lookup {A B C} (f : A → C → B) (g : nat * A → option B)
    (M : list A) (M' : list C) :
  (∀ iy, g iy = y' ← M' !! iy.1; Some (f iy.2 y')) →
  (length M ≤ length M')%nat →
  mapM g (imap pair M) = Some (zip_with f M M').
Proof.
  intros Hg Hlen. apply mapM_Some. apply Forall2_same_length_lookup. split.
  - rewrite length_imap, length_zip_with. lia.
  - intros i [i' y] z Hi Hz. apply list_lookup_imap_Some in Hi as (y0 & Hy & Heq).
    simplify_eq. apply lookup_zip_with_Some in Hz as (y1 & y' & -> & Hy1 & Hy').
    rewrite Hg. simpl. rewrite Hy'. simpl. by simplify_eq.
Qed.

(** C6.  The score of one row in [iou_score]: 1 when both sets are empty,
    1 for truth {a} against prediction {a}, 0 for truth {a} against
    prediction {b} with a ≠ b, and the size of the intersection over the
    size of the union in every other case; [iou_score] is the mean of these
    row scores. *)
Theorem iou_row_cases (t p : gset nat) (a b : nat) (y_true y_pred : list (list Z)) :
  iou_row ∅ ∅ = 1%Q
  ∧ (iou_row {[a]} {[a]} == 1)%Q
  ∧ (a ≠ b → (iou_row {[a]} {[b]} == 0)%Q)
  ∧ (¬ (t = ∅ ∧ p = ∅) → iou_row t p = ratio (size (t ∩ p)) (size (t ∪ p)))
  ∧ ((length y_true ≤ length y_pred)%nat →
     iou_score y_true y_pred
     = Some (mean (zip_with (λ yt yp, iou_row (ones_set yt) (ones_set yp)) y_true y_pred))).
Proof.
  split; [|split; [|split; [|split]]].
  - unfold iou_row. by rewrite decide_True.
  - unfold iou_row. rewrite decide_False.
    + rewrite (idemp_L (∩)), (idemp_L (∪)), size_singleton. reflexivity.
    + intros [Ha _]. by apply non_empty_singleton_L in Ha.
  - intros Hab. unfold iou_row. rewrite decide_False.
    + assert (Hd : ({[a]} ∩ {[b]} : gset nat) = ∅).
      { apply disjoint_intersection_L. by apply disjoint_singleton_l, not_elem_of_singleton. }
      rewrite Hd, size_empty. unfold ratio. simpl. unfold Qdiv. apply Qmult_0_l.
    + intros [Ha _]. by apply non_empty_singleton_L in Ha.
  - intros Hne. unfold iou_row. by rewrite decide_False.
  - intros Hlen. unfold iou_score.
    rewrite (mapM_imap_lookup (λ yt yp, iou_row (ones_set yt) (ones_set yp))
               (iou_term y_pred) y_true y_pred); done.
Qed.

Lemma iou_row_cases_witness :
  iou_row ∅ ∅ = 1%Q
  ∧ (iou_row {[0%nat]} {[0%nat]} == 1)%Q
  ∧ (iou_row {[0%nat]} {[1%nat]} == 0)%Q
  ∧ iou_row {[0%nat; 1%nat]} {[1%nat; 2%nat]}
    = ratio (size ({[0%nat; 1%nat]} ∩ {[1%nat; 2%nat]} : gset nat))
            (size ({[0%nat; 1%nat]} ∪ {[1%nat; 2%nat]} : gset nat))
  ∧ iou_score [[1; 1; 0]; [0; 0; 0]] [[0; 1; 1]; [0; 0; 0]] = Some (Num (4 # 6)).
Proof.
  destruct (iou_row_cases {[0%nat; 1%nat]} {[1%nat; 2%nat]} 0%nat 1%nat
              [[1; 1; 0]; [0; 0; 0]] [[0; 1; 1]; [0; 0; 0]])
    as (H1 & H2 & H3 & H4 & H5).
  split; [exact H1|]. split; [exact H2|]. split; [apply H3; lia|].
  split; [apply H4; by vm_compute; intros [? _]|].
  rewrite H5 by (simpl; lia). vm_compute. reflexivity.
Defined.

(** ** Quantity accuracy *)

(** The cells of two matrices of the same shape, paired in row-major
    order. *)
Lemma elem_of_zip_concat (M M' : list (list Z)) (v v' : Z) :
  same_shape M M' →
  (v, v') ∈ zip (concat M) (concat M') ↔
  ∃ i j, mat_get M i j = Some v ∧ mat_get M' i j = Some v'.
Proof.
  unfold same_shape. induction 1 as [|r r' M M' Hlen HF IH]; cbn [concat].
  - split; [intros Hin; by apply elem_of_nil in Hin|].
    intros (i & j & Hv & _). unfold mat_get in Hv. by rewrite lookup_nil in Hv.
  - rewrite zip_with_app by done. rewrite elem_of_app, IH. split.
    + intros [Hin|(i & j & Hv & Hv')].
      * apply list_elem_of_lookup in Hin as [j Hj].
        apply lookup_zip_with_Some in Hj as (x & y & Heq & Hx & Hy). simplify_eq.
        exists 0%nat, j. by split.
      * exists (S i), j. by split.
    + intros ([|i] & j & Hv & Hv').
      * left. unfold mat_get in Hv, Hv'. simpl in Hv, Hv'.
        apply list_elem_of_lookup. exists j. apply lookup_zip_with_Some. eauto.
      * right. exists i, j. by split.
Qed.

Lemma Qsum_indicator_bounds (xs : list Q) :
  Forall (λ x, x = 0%Q ∨ x = 1%Q) xs →
  (0 <= Qsum xs)%Q ∧ (Qsum xs <= inject_Z (Z.of_nat (length xs)))%Q.
Proof.
  induction 1 as [|x xs Hx _ [IH0 IH1]]; simpl.
  - split; apply Qle_refl.
  - assert (Hs : (inject_Z (Z.of_nat (S (length xs)))
                  == 1 + inject_Z (Z.of_nat (length xs)))%Q).
    { rewrite Nat2Z.inj_succ. unfold Z.succ. rewrite inject_Z_plus. simpl. ring. }
    rewrite Hs. destruct Hx as [->| ->]; split.
    + rewrite Qplus_0_l. done.
    + rewrite Qplus_0_l. apply Qle_trans with (inject_Z (Z.of_nat (length xs))); [done|].
      rewrite <- (Qplus_0_l (inject_Z _)) at 1. apply Qplus_le_compat; [done|apply Qle_refl].
    + apply (Qplus_le_compat 0 1 0); done.
    + apply Qplus_le_compat; [apply Qle_refl|done].
Qed.

(** C10.  [accuracy_counts] on two matrices of the same shape: when some
    cell of the truth matrix is positive the result is a number between 0
    and 1; when no cell is positive (in particular for an all-zero truth
    matrix) the mean runs over an empty selection and the result is NaN, not
    0. *)
Theorem accuracy_counts_partial (y_true_cnt y_pred_cnt : list (list Z)) :
  same_shape y_true_cnt y_pred_cnt →
  ((∃ i j v, mat_get y_true_cnt i j = Some v ∧ 0 < v) →
   ∃ q, accuracy_counts y_true_cnt y_pred_cnt = Some (Num q) ∧ (0 <= q)%Q ∧ (q <= 1)%Q)
  ∧ ((∀ i j v, mat_get y_true_cnt i j = Some v → v = 0) →
     accuracy_counts y_true_cnt y_pred_cnt = Some NaN).
Proof.
  intros Hshape. unfold accuracy_counts. rewrite decide_True by done.
  set (cells := filter (λ tp : Z * Z, 0 < tp.1) (zip (concat y_true_cnt) (concat y_pred_cnt))).
  split.
  - intros (i & j & v & Hv & Hpos).
    assert (Hin : ∃ v', (v, v') ∈ cells) .
    { assert (∃ v', mat_get y_pred_cnt i j = Some v') as [v' Hv'].
      { unfold mat_get in *. destruct (y_true_cnt !! i) as [r|] eqn:Hr; simpl in Hv; [|done].
        destruct (same_shape_lookup _ _ _ _ Hshape Hr) as (r' & -> & Hlen). simpl.
        apply lookup_lt_is_Some_2. apply lookup_lt_Some in Hv. lia. }
      exists v'. apply list_elem_of_filter. split; [done|].
      apply elem_of_zip_concat; eauto. }
    destruct Hin as [v' Hin].
    destruct cells as [|c cells'] eqn:Hcells; [by apply elem_of_nil in Hin|].
    rewrite <- Hcells. clear Hin.
    set (xs := (λ tp : Z * Z, if decide (tp.1 = tp.2) then 1%Q else 0%Q) <$> cells).
    assert (Hxs : xs ≠ []) by (unfold xs; rewrite Hcells; done).
    destruct (Qsum_indicator_bounds xs) as [H0 H1].
    { unfold xs. apply Forall_fmap, Forall_forall. intros tp _. simpl.
      case_decide; [by right|by left]. }
    assert (Hn : (0 < inject_Z (Z.of_nat (length xs)))%Q).
    { rewrite <- (Zlt_Qlt 0). destruct xs; [done|]. simpl. lia. }
    exists (Qsum xs / inject_Z (Z.of_nat (length xs)))%Q. split; [|split].
    + unfold mean. by destruct xs.
    + apply Qle_shift_div_l; [done|]. by rewrite Qmult_0_l.
    + apply Qle_shift_div_r; [done|]. by rewrite Qmult_1_l.
  - intros Hzero. assert (Hnil : cells = []).
    { apply elem_of_nil_inv. intros [v v'] Hin.
      apply list_elem_of_filter in Hin as [Hpos Hin]. simpl in Hpos.
      apply elem_of_zip_concat in Hin as (i & j & Hv & _); [|done].
      apply Hzero in Hv. lia. }
    by rewrite Hnil.
Qed.

Lemma accuracy_counts_partial_witness :
  (∃ q, accuracy_counts [[2; 0]; [0; 3]] [[2; 1]; [0; 1]] = Some (Num q)
        ∧ (0 <= q)%Q ∧ (q <= 1)%Q)
  ∧ accuracy_counts [[0; 0]; [0; 0]] [[1; 0]; [0; 0]] = Some NaN.
Proof.
  split.
  - apply (accuracy_counts_partial [[2; 0]; [0; 3]] [[2; 1]; [0; 1]]).
    + repeat constructor.
    + exists 0%nat, 0%nat, 2. split; [reflexivity|lia].
  - apply (accuracy_counts_partial [[0; 0]; [0; 0]] [[1; 0]; [0; 0]]).
    + repeat constructor.
    + intros [|[|i]] [|[|j]] v Hv; vm_compute in Hv; congruence.
Defined.

(** ** Recall and partial coverage against the specification *)

Section metrics_facts.
Context `{!ArgSort}.
Implicit Types (y_true : list (list Z)) (proba : list (list Q)) (row : list Z).

Lemma elem_of_where_eq v row j : j ∈ where_eq v row ↔ row !! j = Some v.
Proof.
  unfold where_eq. rewrite list_elem_of_bind. split.
  - intros ([j' x] & Hj & Hin). apply elem_of_lookup_imap in Hin as (i & y & Heq & Hy).
    simplify_eq. case_decide; [|by apply elem_of_nil in Hj].
    apply list_elem_of_singleton in Hj. by subst.
  - intros Hj. exists (j, v). split.
    + rewrite decide_True by done. apply list_elem_of_singleton. done.
    + apply elem_of_lookup_imap. eauto.
Qed.

(** The set the code builds from a row is the truth set of the
    specification. *)
Lemma ones_set_truth y_true i : ones_set (default [] (y_true !! i)) = truth y_true i.
Proof.
  unfold ones_set, truth. apply set_eq. intros j.
  rewrite !elem_of_list_to_set, elem_of_where_eq, list_elem_of_filter, elem_of_seq.
  split; [|by intros [? _]]. intros Hj. split; [done|].
  apply lookup_lt_Some in Hj. lia.
Qed.

Lemma topk_lookup k proba i prow :
  proba !! i = Some prow → topk k proba !! i = Some (topk_row k prow).
Proof. intros Hp. unfold topk. by rewrite list_lookup_fmap, Hp. Qed.

Lemma predicted_set_lookup k proba i prow :
  proba !! i = Some prow → predicted_set k proba i = list_to_set (topk_row k prow).
Proof. intros Hp. unfold predicted_set. by rewrite Hp. Qed.

Lemma imap_pair_seq {A} `{!Inhabited A} (M : list A) :
  imap pair M = (λ i, (i, default inhabitant (M !! i))) <$> seq 0 (length M).
Proof.
  rewrite <- (imap_seq_0 M (λ i, (i, default inhabitant (M !! i)))).
  apply imap_ext. intros i x Hx. by rewrite Hx.
Qed.

Lemma recall_body_unfold (tk : list (list nat)) i row (scores : list Q) :
  recall_body tk (i, row) scores
  = if decide (ones_set row = ∅) then Some scores
    else idxs ← tk !! i;
         Some (scores ++ [ratio (size (ones_set row ∩ list_to_set idxs)) (size (ones_set row))]).
Proof. done. Qed.

(** The loop of [recall_at_k] appends one score per row with a non-empty
    truth set, in row order. *)
Lemma recall_loop y_true proba k (rows : list nat) (scores : list Q) :
  Forall (λ i, (i < length proba)%nat) rows →
  for_each (recall_body (topk k proba))
    ((λ i, (i, default [] (y_true !! i))) <$> rows) scores
  = Some (scores ++
      ((λ i, ratio (hits (predicted_set k proba) y_true i) (size (truth y_true i)))
         <$> filter (λ i, truth y_true i ≠ ∅) rows)).
Proof.
  intros Hrows. revert scores.
  induction Hrows as [|i rows Hi _ IH]; intros scores.
  - simpl. by rewrite app_nil_r.
  - rewrite fmap_cons.
    change (for_each ?b (?x :: ?l) ?s) with (b x s ≫= for_each b l).
    rewrite recall_body_unfold, ones_set_truth.
    destruct (lookup_lt_is_Some_2 proba i Hi) as [prow Hp].
    destruct (decide (truth y_true i = ∅)) as [He|Hne].
    + simpl. rewrite IH. by rewrite filter_cons_False by (by intros ?).
    + rewrite (topk_lookup _ _ _ _ Hp). simpl. rewrite IH.
      rewrite filter_cons_True by done. rewrite fmap_cons. unfold hits at 2.
      rewrite (predicted_set_lookup _ _ _ _ Hp). by rewrite <- app_assoc.
Qed.

(** The formulas of the specification read the predicted sets of the rows
    of the truth matrix only. *)
Lemma recall_at_k_spec_ext (pred pred' : nat → gset nat) y_true :
  (∀ i, (i < length y_true)%nat → pred i = pred' i) →
  recall_at_k_spec pred y_true = recall_at_k_spec pred' y_true.
Proof.
  intros Heq. unfold recall_at_k_spec.
  assert (Hterms : ∀ rows, Forall (λ i, (i < length y_true)%nat) rows →
            (λ i, ratio (hits pred y_true i) (size (truth y_true i))) <$> rows
            = (λ i, ratio (hits pred' y_true i) (size (truth y_true i))) <$> rows).
  { intros rows Hrows. apply list_fmap_ext. intros n i Hi.
    eapply Forall_lookup_1 in Hrows; [|done]. unfold hits. by rewrite Heq. }
  rewrite Hterms; [done|]. apply Forall_forall. intros i Hi.
  apply list_elem_of_filter in Hi as [_ Hi]. apply elem_of_seq in Hi. lia.
Qed.

Lemma partial_coverage_spec_ext (pred pred' : nat → gset nat) y_true :
  (∀ i, (i < length y_true)%nat → pred i = pred' i) →
  partial_coverage_spec pred y_true = partial_coverage_spec pred' y_true.
Proof.
  intros Heq. unfold partial_coverage_spec. f_equal. apply list_fmap_ext.
  intros n i Hi. apply lookup_seq in Hi as [-> Hi].
  unfold coverage_term_spec, hits. by rewrite Heq.
Qed.


Lemma filter_ext_in {A} (P Q : A → Prop) `{∀ x, Decision (P x)} `{∀ x, Decision (Q x)}
    (l : list A) :
  (∀ x, x ∈ l → P x ↔ Q x) → filter P l = filter Q l.
Proof.
  induction l as [|x l IH]; intros HPQ; [done|].
  rewrite !filter_cons. rewrite IH by (intros y Hy; apply HPQ; by right).
  destruct (decide (P x)) as [HP|HP], (decide (Q x)) as [HQ|HQ]; try done.
  - destruct HQ. apply HPQ; [left|done].
  - destruct HP. apply HPQ; [left|done].
Qed.

Lemma sum_app (l1 l2 : list Z) : Np.sum (l1 ++ l2) = Np.sum l1 + Np.sum l2.
Proof. unfold Np.sum. induction l1 as [|x l1 IH]; simpl; lia. Qed.

(** On a binary row [np.sum] counts the ones. *)
Lemma sum_binary_count row :
  Forall (λ v, v = 0 ∨ v = 1) row →
  Np.sum row
  = Z.of_nat (length (filter (λ l, row !! l = Some 1) (seq 0 (length row)))).
Proof.
  induction row as [|x row IH] using rev_ind; intros Hbin; [done|].
  apply Forall_app in Hbin as [Hrow Hx]. apply Forall_inv in Hx.
  rewrite sum_app, length_app, Nat.add_1_r, seq_S, filter_app, length_app. simpl.
  rewrite (filter_ext_in _ (λ l, row !! l = Some 1)).
  - rewrite IH by done. rewrite filter_cons, filter_nil.
    rewrite lookup_app_r by lia. rewrite Nat.sub_diag. simpl. unfold Np.sum. simpl.
    destruct Hx as [->| ->].
    + rewrite decide_False by done. simpl. lia.
    + rewrite decide_True by done. simpl. lia.
  - intros l Hl. apply elem_of_seq in Hl. by rewrite lookup_app_l by lia.
Qed.

Lemma sum_binary_size row :
  Forall (λ v, v = 0 ∨ v = 1) row → Np.sum row = Z.of_nat (size (ones_set row)).
Proof.
  intros Hbin. rewrite (sum_binary_count _ Hbin).
  change (ones_set row) with (ones_set (default [] ([row] !! 0%nat))).
  rewrite ones_set_truth. unfold truth. simpl.
  rewrite size_list_to_set; [done|]. apply NoDup_filter, NoDup_seq.
Qed.


End metrics_facts.



(** ** The quantity fallback *)

Lemma elem_of_unique (xs : list Z) v : v ∈ unique xs ↔ v ∈ xs.
Proof. unfold unique. by rewrite elem_of_remove_dups, merge_sort_Permutation. Qed.

Lemma NoDup_unique (xs : list Z) : NoDup (unique xs).
Proof. apply NoDup_remove_dups. Qed.

(** Fewer than two distinct values: all values are the same. *)
Lemma unique_short_iff (xs : list Z) :
  (length (unique xs) < 2)%nat ↔ ∀ a b, a ∈ xs → b ∈ xs → a = b.
Proof.
  split.
  - intros Hlen a b Ha Hb. apply elem_of_unique in Ha, Hb.
    destruct (unique xs) as [|u [|u' us]]; simpl in Hlen; [|..|lia].
    + by apply elem_of_nil in Ha.
    + apply list_elem_of_singleton in Ha, Hb. congruence.
  - intros Heq. pose proof (NoDup_unique xs) as Hnd.
    destruct (unique xs) as [|u [|u' us]] eqn:Hu; simpl; [lia..|].
    exfalso. apply NoDup_cons in Hnd as [Hnin _]. apply Hnin.
    rewrite (Heq u u'); [left|apply elem_of_unique; rewrite Hu..].
    + left.
    + right; left.
Qed.

Lemma count_occ_pos (v : Z) (xs : list Z) : (0 < count_occ v xs)%nat ↔ v ∈ xs.
Proof.
  unfold count_occ. split.
  - intros Hpos. destruct (filter (λ x, x = v) xs) as [|y ys] eqn:Hf; [simpl in Hpos; lia|].
    assert (Hy : y ∈ filter (λ x, x = v) xs) by (rewrite Hf; left).
    apply list_elem_of_filter in Hy as [-> Hy]. done.
  - intros Hin. assert (Hv : v ∈ filter (λ x, x = v) xs) by by apply list_elem_of_filter.
    destruct (filter (λ x, x = v) xs); [by apply elem_of_nil in Hv|simpl; lia].
Qed.

Lemma count_occ_all (v : Z) (xs : list Z) :
  (∀ x, x ∈ xs → x = v) → count_occ v xs = length xs.
Proof.
  intros Hall. unfold count_occ. induction xs as [|x xs IH]; [done|].
  rewrite filter_cons_True by (apply Hall; left). simpl. f_equal.
  apply IH. intros y Hy. apply Hall. by right.
Qed.

Lemma count_occ_le_length (v : Z) (xs : list Z) : (count_occ v xs ≤ length xs)%nat.
Proof. apply length_filter. Qed.

(** In a list whose values are all equal, each of them is a mode. *)
Lemma mode_of_constant (c : Z) (yq : list Z) :
  c ∈ yq → (∀ a b, a ∈ yq → b ∈ yq → a = b) → mode_or_zero c yq.
Proof.
  intros Hc Heq. destruct yq as [|y ys]; [by apply elem_of_nil in Hc|].
  split; [done|]. intros v.
  rewrite (count_occ_all c) by (intros x Hx; by apply Heq). apply count_occ_le_length.
Qed.

(** In a list of at most two values, each of them is a mode: two distinct
    values occur once each. *)
Lemma mode_of_short (c : Z) (yq : list Z) :
  (length yq < 3)%nat → c ∈ yq → mode_or_zero c yq.
Proof.
  intros Hlen Hc.
  destruct (decide (length (unique yq) < 2)%nat) as [Heq|Hne];
    [apply mode_of_constant; [done|by apply unique_short_iff]|].
  rewrite unique_short_iff in Hne.
  destruct yq as [|a [|b [|? ?]]]; simpl in Hlen; [by apply elem_of_nil in Hc| | |lia].
  - destruct Hne. intros x y Hx Hy. apply list_elem_of_singleton in Hx, Hy. congruence.
  - assert (Hab : a ≠ b).
    { intros ->. apply Hne. intros x y Hx Hy.
      apply elem_of_cons in Hx as [->|Hx]; apply elem_of_cons in Hy as [->|Hy];
        try apply list_elem_of_singleton in Hx; try apply list_elem_of_singleton in Hy;
        congruence. }
    split; [done|]. intros v. unfold count_occ.
    apply elem_of_cons in Hc as [->|Hc]; [|apply list_elem_of_singleton in Hc as ->].
    + rewrite (filter_cons_True (λ x, x = a)) by done.
      rewrite (filter_cons_False (λ x, x = a)) by done. simpl.
      rewrite !filter_cons, filter_nil. repeat case_decide; simpl; lia.
    + rewrite (filter_cons_False (λ x, x = b)) by done.
      rewrite (filter_cons_True (λ x, x = b)) by done. simpl.
      rewrite !filter_cons, filter_nil. repeat case_decide; simpl; lia.
Qed.

Lemma argmax_from_spec (l pre : list nat) (best bv j : nat) :
  length pre = j → pre !! best = Some bv → (∀ x, x ∈ pre → (x ≤ bv)%nat) →
  ∃ rv, (pre ++ l) !! argmax_from best bv j l = Some rv
        ∧ ∀ x, x ∈ pre ++ l → (x ≤ rv)%nat.
Proof.
  revert pre best bv j. induction l as [|x l IH]; intros pre best bv j Hlen Hbest Hmax.
  - simpl. exists bv. rewrite app_nil_r. by split.
  - simpl. rewrite (cons_middle x pre l), app_assoc.
    case_decide as Hlt.
    + apply IH.
      * rewrite length_app. simpl. lia.
      * rewrite lookup_app_r by lia. by rewrite Hlen, Nat.sub_diag.
      * intros y Hy. apply elem_of_app in Hy as [Hy|Hy].
        -- apply Hmax in Hy. lia.
        -- apply list_elem_of_singleton in Hy. lia.
    + apply IH.
      * rewrite length_app. simpl. lia.
      * rewrite lookup_app_l; [done|]. by eapply lookup_lt_Some.
      * intros y Hy. apply elem_of_app in Hy as [Hy|Hy].
        -- by apply Hmax.
        -- apply list_elem_of_singleton in Hy. lia.
Qed.

(** [argmax] of a non-empty array is the position of a maximum. *)
Lemma argmax_spec (l : list nat) :
  l ≠ [] → ∃ rv, l !! argmax l = Some rv ∧ ∀ x, x ∈ l → (x ≤ rv)%nat.
Proof.
  destruct l as [|x l]; [done|]. intros _. unfold argmax.
  apply (argmax_from_spec l [x] 0 x 1); [done..|].
  intros y Hy. apply list_elem_of_singleton in Hy. lia.
Qed.

Lemma le_foldr_max (xs : list Z) v : v ∈ xs → v ≤ foldr Z.max 0 xs.
Proof.
  induction xs as [|x xs IH]; intros Hv; [by apply elem_of_nil in Hv|].
  simpl. apply elem_of_cons in Hv as [->|Hv]; [lia|]. apply IH in Hv. lia.
Qed.

(** [np.bincount(yq).argmax()] is a most frequent value of [yq]. *)
Lemma bincount_argmax_mode (yq : list Z) :
  yq ≠ [] → Forall (λ q, 0 < q) yq →
  mode_or_zero (Z.of_nat (argmax (bincount yq))) yq.
Proof.
  intros Hne Hpos. destruct yq as [|y ys] eqn:Hyq; [done|]. rewrite <- Hyq in *.
  assert (Hb : bincount yq
    = (λ v, count_occ (Z.of_nat v) yq) <$> seq 0 (S (Z.to_nat (foldr Z.max 0 yq))))
    by by rewrite Hyq.
  destruct (argmax_spec (bincount yq)) as (rv & Hrv & Hmax); [by rewrite Hb|].
  set (c := Z.of_nat (argmax (bincount yq))).
  assert (Hcnt : rv = count_occ c yq).
  { unfold c. revert Hrv. generalize (argmax (bincount yq)). intros a.
    rewrite Hb, list_lookup_fmap. intros Hrv.
    destruct (seq 0 (S (Z.to_nat (foldr Z.max 0 yq))) !! a) as [a'|] eqn:Ha;
      simpl in Hrv; [|done].
    apply lookup_seq in Ha as [Ha _]. simpl in Ha. by simplify_eq. }
  subst rv. rewrite Hb in Hmax.
  assert (Hle : ∀ v, (count_occ v yq ≤ count_occ c yq)%nat).
  { intros v. destruct (decide (v ∈ yq)) as [Hv|Hv].
    - apply Hmax. apply list_elem_of_fmap. exists (Z.to_nat v).
      assert (0 < v) by by eapply Forall_forall in Hpos.
      pose proof (le_foldr_max _ _ Hv). split; [f_equal; lia|].
      apply elem_of_seq. lia.
    - rewrite <- count_occ_pos in Hv. lia. }
  assert (Hc : c ∈ yq).
  { apply count_occ_pos. specialize (Hle y).
    assert (0 < count_occ y yq)%nat; [|lia]. apply count_occ_pos. rewrite Hyq. left. }
  rewrite Hyq in Hc, Hle |- *. by split.
Qed.

Lemma mask_select_positive (col : list Z) :
  mask_select ((λ q, bool_decide (0 < q)) <$> col) col = Some (filter (λ q, 0 < q) col).
Proof.
  unfold mask_select. rewrite decide_True by by rewrite length_fmap. f_equal.
  induction col as [|x col IH]; [done|].
  rewrite fmap_cons. cbn [zip_with]. rewrite bind_cons, IH, filter_cons. simpl.
  destruct (decide (0 < x)).
  - by rewrite bool_decide_true.
  - by rewrite bool_decide_false.
Qed.

Lemma head_unique_elem (yq : list Z) :
  yq ≠ [] → default 0 (head (unique yq)) ∈ yq.
Proof.
  intros Hne. destruct (unique yq) as [|u us] eqn:Hu.
  - destruct yq as [|y ys]; [done|].
    assert (Hy : y ∈ unique (y :: ys)) by (apply elem_of_unique; left).
    rewrite Hu in Hy. by apply elem_of_nil in Hy.
  - simpl. apply elem_of_unique. rewrite Hu. left.
Qed.

(** ** Writing a column *)

Section write_facts.
Context {A : Type}.
Implicit Types (M : list (list A)) (idx : list nat) (vals : list A).

Lemma mat_get_set M M' i j x i' j' :
  mat_set M i j x = Some M' →
  mat_get M' i' j' = if decide (i' = i ∧ j' = j) then Some x else mat_get M i' j'.
Proof.
  unfold mat_set. destruct (M !! i) as [row|] eqn:Hrow; simpl; [|done].
  case_decide as Hj; [|done]. intros ?; simplify_eq. unfold mat_get.
  destruct (decide (i' = i)) as [->|Hi].
  - rewrite list_lookup_insert_eq by by eapply lookup_lt_Some. simpl.
    rewrite Hrow. simpl. destruct (decide (j' = j)) as [->|Hj'].
    + rewrite decide_True by done. by apply list_lookup_insert_eq.
    + rewrite decide_False by (by intros [_ ?]). by apply list_lookup_insert_ne.
  - rewrite decide_False by (by intros [? _]). by rewrite list_lookup_insert_ne.
Qed.

(** After the writes, a cell outside the written column or the written rows
    is unchanged, and a cell of a written row holds one of the values. *)
Lemma write_cells_spec lbl (ivs : list (nat * A)) M M' :
  for_each (write_cell lbl) ivs M = Some M' →
  (∀ i j, j ≠ lbl ∨ i ∉ ivs.*1 → mat_get M' i j = mat_get M i j)
  ∧ (∀ i, i ∈ ivs.*1 → ∃ v, v ∈ ivs.*2 ∧ mat_get M' i lbl = Some v).
Proof.
  revert M. induction ivs as [|[i0 v0] ivs IH]; intros M Hrun.
  - simpl in Hrun. simplify_eq. split; [done|]. intros i Hi. by apply elem_of_nil in Hi.
  - change (for_each (write_cell lbl) ((i0, v0) :: ivs) M)
      with (mat_set M i0 lbl v0 ≫= for_each (write_cell lbl) ivs) in Hrun.
    destruct (mat_set M i0 lbl v0) as [M1|] eqn:Hset; simpl in Hrun; [|done].
    apply IH in Hrun as [Hout Hin]. split.
    + intros i j Hij. rewrite Hout.
      * rewrite (mat_get_set _ _ _ _ _ _ _ Hset). rewrite decide_False; [done|].
        intros [-> ->]. destruct Hij as [Hj|Hi]; [by apply Hj|]. apply Hi. left.
      * destruct Hij as [?|Hi]; [by left|]. right. intros ?. apply Hi. by right.
    + intros i Hi. destruct (decide (i ∈ ivs.*1)) as [Hr|Hr].
      * destruct (Hin i Hr) as (v & Hv & Hget). exists v. split; [by right|done].
      * apply elem_of_cons in Hi as [->|Hi]; [|done]. exists v0. split; [left|].
        rewrite Hout by by right. rewrite (mat_get_set _ _ _ _ _ _ _ Hset).
        by rewrite decide_True.
Qed.

Lemma write_column_spec M idx lbl vals M' :
  write_column M idx lbl vals = Some M' →
  (∀ i j, j ≠ lbl ∨ i ∉ idx → mat_get M' i j = mat_get M i j)
  ∧ (∀ i, i ∈ idx → ∃ v, v ∈ vals ∧ mat_get M' i lbl = Some v).
Proof.
  unfold write_column. case_decide as Hlen; [|done]. intros Hrun.
  apply (write_cells_spec lbl) in Hrun.
  by rewrite fst_zip, snd_zip in Hrun by lia.
Qed.
End write_facts.

Section quantity_fallback.
Context {X : Type} `{!Learner X}.

Lemma filter_positive_Forall (col : list Z) : Forall (λ q, 0 < q) (filter (λ q, 0 < q) col).
Proof. apply Forall_forall. intros q Hq. by apply list_elem_of_filter in Hq as [? _]. Qed.

(** The fallback of the cross-validation path. *)
Lemma stage2_model_fallback (Xt_tr : list X) (col : list Z) :
  let yq := filter (λ q, 0 < q) col in
  (length yq < 3)%nat ∨ (∀ a b, a ∈ yq → b ∈ yq → a = b) →
  ∃ c, stage2_model Xt_tr col = Some (Dummy c) ∧ mode_or_zero c yq.
Proof.
  intros yq Hcond. unfold stage2_model. rewrite mask_select_positive.
  cbn [mbind option_bind]. fold yq.
  rewrite decide_True by (rewrite unique_short_iff; done).
  eexists. split; [done|]. case_decide as Hlen.
  - by destruct yq.
  - apply bincount_argmax_mode; [by destruct yq|apply filter_positive_Forall].
Qed.

(** The fallback of the refit path. *)
Lemma refit_quantity_model_fallback (max_iter random_state : Z) (X_final : list X)
    (col : list Z) :
  let yq := filter (λ q, 0 < q) col in
  (length yq < 3)%nat ∨ (∀ a b, a ∈ yq → b ∈ yq → a = b) →
  ∃ c, refit_quantity_model max_iter random_state X_final col = Some (Dummy c)
       ∧ mode_or_zero c yq.
Proof.
  intros yq Hcond. unfold refit_quantity_model. rewrite mask_select_positive.
  cbn [mbind option_bind]. fold yq.
  rewrite decide_False.
  2:{ intros [H3 H2]. destruct Hcond as [?|Heq]; [lia|].
      apply unique_short_iff in Heq. lia. }
  eexists. split; [done|]. case_decide as Hlen.
  - assert (Hne : yq ≠ []) by (by destruct yq).
    pose proof (head_unique_elem yq Hne) as Hc.
    destruct Hcond as [Hshort|Heq]; [by apply mode_of_short|by apply mode_of_constant].
  - destruct yq; [done|]. simpl in Hlen. lia.
Qed.

(** C2 (constant-predictor fallback).  When fewer than three training rows
    have a positive quantity for the label, or all of them share one
    quantity, both the cross-validation path and the final refit build a
    constant predictor; its constant is a most frequent quantity among
    those rows, or 0 when there is none; the predictor returns the constant
    for every row it is asked about, the fold writes it at every validation
    row of the label's column, and with all positive quantities equal to
    one value [v] (two rows holding 4, say) the constant is [v]. *)
Theorem quantity_fallback_constant_mode (Xt_tr X_final : list X) (col : list Z)
    (max_iter random_state : Z) :
  let yq := filter (λ q, 0 < q) col in
  (length yq < 3)%nat ∨ (∀ a b, a ∈ yq → b ∈ yq → a = b) →
  (∃ c, stage2_model Xt_tr col = Some (Dummy c) ∧ mode_or_zero c yq)
  ∧ (∃ c, refit_quantity_model max_iter random_state X_final col = Some (Dummy c)
          ∧ mode_or_zero c yq)
  ∧ (∀ c (xs : list X), quantity_predict (Dummy c) xs = replicate (length xs) c)
  ∧ (∀ Y_cnt tr te Xt_te lbl qty qty',
       column Y_cnt tr lbl = Some col →
       stage2_label Y_cnt tr te Xt_tr Xt_te lbl qty = Some qty' →
       ∃ c, mode_or_zero c yq ∧ ∀ i, i ∈ te → mat_get qty' i lbl = Some c)
  ∧ (∀ c v, mode_or_zero c yq → yq ≠ [] → (∀ q, q ∈ yq → q = v) → c = v).
Proof.
  intros yq Hcond. split; [by apply stage2_model_fallback|].
  split; [by apply refit_quantity_model_fallback|]. split; [done|]. split.
  - intros Y_cnt tr te Xt_te lbl qty qty' Hcol Hrun. unfold stage2_label in Hrun.
    rewrite Hcol in Hrun. simpl in Hrun.
    destruct (stage2_model_fallback Xt_tr col Hcond) as (c & Hm & Hmode).
    rewrite Hm in Hrun. simpl in Hrun. exists c. split; [done|]. intros i Hi.
    apply write_column_spec in Hrun as [_ Hin].
    destruct (Hin i Hi) as (v & Hv & Hget).
    apply elem_of_replicate in Hv as [-> _]. done.
  - intros c v Hmode Hne Hall. destruct yq as [|y ys]; [done|].
    destruct Hmode as [Hc _]. by apply Hall.
Qed.
End quantity_fallback.

Lemma quantity_fallback_constant_mode_witness :
  stage2_model [0; 1; 2; 3]%nat [0; 4; 0; 4] = Some (Dummy 4)
  ∧ refit_quantity_model SVM_MAX_ITER RANDOM_STATE [0; 1; 2; 3]%nat [0; 4; 0; 4]
    = Some (Dummy 4).
Proof.
  destruct (quantity_fallback_constant_mode [0; 1; 2; 3]%nat [0; 1; 2; 3]%nat
              [0; 4; 0; 4] SVM_MAX_ITER RANDOM_STATE)
    as ((c1 & Hc1 & Hm1) & (c2 & Hc2 & Hm2) & _ & _ & Hv).
  { left. simpl. lia. }
  assert (Hall : ∀ q, q ∈ filter (λ q, 0 < q) [0; 4; 0; 4] → q = 4).
  { intros q Hq. apply list_elem_of_filter in Hq as [Hpos Hq].
    repeat (apply elem_of_cons in Hq as [->|Hq]; [lia|]). by apply elem_of_nil in Hq. }
  rewrite Hc1, Hc2, (Hv c1 4 Hm1), (Hv c2 4 Hm2); done.
Defined.

(** ** Grouped K-fold splitting *)

Lemma argmin_from_lt (l : list nat) (best bv j : nat) :
  (best < j)%nat → (argmin_from best bv j l < j + length l)%nat.
Proof.
  revert best bv j. induction l as [|x l IH]; intros best bv j Hlt; simpl; [lia|].
  case_decide.
  - specialize (IH j x (S j)). lia.
  - specialize (IH best bv (S j)). lia.
Qed.

Lemma argmin_lt (l : list nat) : l ≠ [] → (argmin l < length l)%nat.
Proof.
  destruct l as [|x l]; [done|]. intros _. unfold argmin.
  pose proof (argmin_from_lt l 0 x 1). simpl. lia.
Qed.

Lemma elem_of_positions (P : nat → bool) (l : list nat) i :
  i ∈ positions P l ↔ ∃ x, l !! i = Some x ∧ P x = true.
Proof.
  unfold positions. rewrite list_elem_of_bind. split.
  - intros ([i' x] & Hi & Hin). apply elem_of_lookup_imap in Hin as (p & y & Heq & Hy).
    simplify_eq. simpl in Hi. destruct (P y) eqn:HP; [|by apply elem_of_nil in Hi].
    apply list_elem_of_singleton in Hi. subst. eauto.
  - intros (x & Hx & HP). exists (i, x). split.
    + simpl. rewrite HP. by apply list_elem_of_singleton.
    + apply elem_of_lookup_imap. eauto.
Qed.

Section group_k_fold_facts.
Context `{!ArgSort} {G : Type} `{EqDecision G}.
Context (group_le : relation G) `{!RelDecision group_le}.
Implicit Types (groups : list G) (k : nat).

(** The greedy loop keeps every group in one of the [k] folds. *)
Lemma assign_groups_lt (counts : list nat) (order : list nat) (st : list nat * list nat) k :
  (0 < k)%nat → length st.1 = k → Forall (λ f, (f < k)%nat) st.2 →
  Forall (λ f, (f < k)%nat) (foldl (assign_group counts) st order).2.
Proof.
  intros Hk. revert st. induction order as [|g order IH]; intros st Hlen Hlt; [done|].
  simpl. apply IH.
  - unfold assign_group. simpl. by rewrite length_alter.
  - unfold assign_group. simpl. apply Forall_insert; [done|].
    rewrite <- Hlen. apply argmin_lt. destruct st.1; [simpl in Hlen; lia|done].
Qed.

Lemma group_to_fold_lt groups k :
  (0 < k)%nat → Forall (λ f, (f < k)%nat) (group_to_fold group_le groups k).
Proof.
  intros Hk. unfold group_to_fold. apply assign_groups_lt; simpl.
  - done.
  - by rewrite length_replicate.
  - apply Forall_replicate. done.
Qed.

Lemma fold_of_group_lt groups k g : (0 < k)%nat → (fold_of_group group_le groups k g < k)%nat.
Proof.
  intros Hk. unfold fold_of_group.
  destruct (group_to_fold group_le groups k !! _) as [f|] eqn:Hf; simpl; [|done].
  pose proof (group_to_fold_lt groups k Hk) as Hall.
  by eapply Forall_lookup_1 in Hall.
Qed.

Lemma fold_of_sample_lookup groups k i :
  fold_of_sample group_le groups k !! i = fold_of_group group_le groups k <$> groups !! i.
Proof.
  unfold fold_of_sample, group_index. rewrite <- list_fmap_compose.
  by rewrite list_lookup_fmap.
Qed.

(** The validation set of fold [f]: the samples whose group is in [f]. *)
Lemma gkf_split_validation groups k splits f tr te i :
  gkf_split group_le groups k = Some splits → splits !! f = Some (tr, te) →
  (f < k)%nat
  ∧ (i ∈ te ↔ ∃ g, groups !! i = Some g ∧ fold_of_group group_le groups k g = f)
  ∧ (i ∈ tr ↔ ∃ g, groups !! i = Some g ∧ fold_of_group group_le groups k g ≠ f).
Proof.
  unfold gkf_split. repeat case_decide; [done..|]. intros ? Hf. simplify_eq.
  rewrite list_lookup_fmap in Hf.
  destruct (seq 0 k !! f) as [f'|] eqn:Hseq; simpl in Hf; [|done].
  apply lookup_seq in Hseq as [-> Hlt]. simpl in Hf. simplify_eq.
  split; [done|]. rewrite !elem_of_positions. setoid_rewrite fold_of_sample_lookup.
  split; split.
  - intros (x & Hx & HP). destruct (groups !! i) as [g|]; simpl in Hx; [|done].
    simplify_eq. exists g. split; [done|]. by apply bool_decide_eq_true in HP.
  - intros (g & Hg & Hfold). rewrite Hg. simpl. eexists. split; [done|].
    by apply bool_decide_eq_true.
  - intros (x & Hx & HP). destruct (groups !! i) as [g|]; simpl in Hx; [|done].
    simplify_eq. exists g. split; [done|]. by apply bool_decide_eq_true in HP.
  - intros (g & Hg & Hfold). rewrite Hg. simpl. eexists. split; [done|].
    by apply bool_decide_eq_true.
Qed.

Lemma gkf_split_length groups k splits :
  gkf_split group_le groups k = Some splits → length splits = k ∧ (2 ≤ k)%nat.
Proof.
  unfold gkf_split. repeat case_decide; [done..|]. intros ?. simplify_eq.
  rewrite length_fmap, length_seq. lia.
Qed.

(** C7 (GroupedCrossValidator).  With at least two folds and at least as
    many distinct groups as folds the split returns a plan; in every plan
    the fold of a sample is a function of its group, so every group lies in
    exactly one validation set, no training set shares a group with its
    validation set, two validation sets with a common sample are the same
    fold, and the validation sets together are the full index set. *)
Theorem gkf_split_is_partition groups k :
  ((2 ≤ k ≤ length (unique_groups group_le groups))%nat →
   is_Some (gkf_split group_le groups k))
  ∧ ∀ splits, gkf_split group_le groups k = Some splits →
    length splits = k
    ∧ (∃ fold_of : G → nat, ∀ f tr te i, splits !! f = Some (tr, te) →
         (i ∈ te ↔ ∃ g, groups !! i = Some g ∧ fold_of g = f)
         ∧ (i ∈ tr ↔ ∃ g, groups !! i = Some g ∧ fold_of g ≠ f))
    ∧ (∀ f f' tr tr' te te' i,
         splits !! f = Some (tr, te) → splits !! f' = Some (tr', te') →
         i ∈ te → i ∈ te' → f = f')
    ∧ (∀ i, (i < length groups)%nat ↔
         ∃ f tr te, splits !! f = Some (tr, te) ∧ i ∈ te).
Proof.
  split.
  - intros [H2 Hk]. unfold gkf_split.
    rewrite decide_False by lia. rewrite decide_False by lia. done.
  - intros splits Hsplit. destruct (gkf_split_length _ _ _ Hsplit) as [Hlen Hk].
    split; [done|]. split; [|split].
    + exists (fold_of_group group_le groups k). intros f tr te i Hf.
      by destruct (gkf_split_validation _ _ _ _ _ _ i Hsplit Hf) as (_ & ? & ?).
    + intros f f' tr tr' te te' i Hf Hf' Hi Hi'.
      destruct (gkf_split_validation _ _ _ _ _ _ i Hsplit Hf) as (_ & Hte & _).
      destruct (gkf_split_validation _ _ _ _ _ _ i Hsplit Hf') as (_ & Hte' & _).
      apply Hte in Hi as (g & Hg & <-). apply Hte' in Hi' as (g' & Hg' & <-).
      congruence.
    + intros i. split.
      * intros Hi. destruct (lookup_lt_is_Some_2 groups i Hi) as [g Hg].
        assert (Hlt : (fold_of_group group_le groups k g < length splits)%nat).
        { rewrite Hlen. apply fold_of_group_lt. lia. }
        destruct (lookup_lt_is_Some_2 splits _ Hlt) as [[tr te] Hf].
        exists (fold_of_group group_le groups k g), tr, te. split; [done|].
        destruct (gkf_split_validation _ _ _ _ _ _ i Hsplit Hf) as (_ & Hte & _).
        apply Hte. eauto.
      * intros (f & tr & te & Hf & Hi).
        destruct (gkf_split_validation _ _ _ _ _ _ i Hsplit Hf) as (_ & Hte & _).
        apply Hte in Hi as (g & Hg & _). by eapply lookup_lt_Some.
Qed.
End group_k_fold_facts.

Lemma gkf_split_is_partition_witness :
  is_Some (gkf_split Z.le cv_groups 5)
  ∧ ∀ i, (i < 6)%nat ↔
      ∃ f tr te,
        [([0; 1; 2; 3], [4; 5]); ([0; 1; 2; 4; 5], [3]); ([0; 1; 3; 4; 5], [2]);
         ([0; 2; 3; 4; 5], [1]); ([1; 2; 3; 4; 5], [0])]%nat !! f = Some (tr, te)
        ∧ i ∈ te.
Proof.
  split.
  - apply (proj1 (gkf_split_is_partition Z.le cv_groups 5)). vm_compute. lia.
  - apply (proj2 (gkf_split_is_partition Z.le cv_groups 5)). vm_compute. reflexivity.
Defined.

(** ** Stage 1 of the cross-validation loop *)

Section cross_validation_facts.
Context `{!ArgSort} {X : Type} `{!Learner X}.
Context {G : Type} `{EqDecision G} (group_le : relation G) `{!RelDecision group_le}.
Implicit Types (proba : list (list Q)) (tr te : list nat).

(** Stage 1 for one label writes nothing outside the validation rows of the
    label's column. *)
Lemma stage1_label_frame Y_bin tr te (Xt_tr Xt_te : list X) l proba proba' i j :
  stage1_label Y_bin tr te Xt_tr Xt_te l proba = Some proba' →
  j ≠ l ∨ i ∉ te → mat_get proba' i j = mat_get proba i j.
Proof.
  unfold stage1_label. intros Hrun Hij.
  destruct (column Y_bin tr l) as [y_tr|]; simpl in Hrun; [|done].
  case_decide; [by simplify_eq|].
  destruct (fit_calibrated _ _ _ _) as [calib|]; simpl in Hrun; [|done].
  apply write_column_spec in Hrun as [Hout _]. by apply Hout.
Qed.

(** A label without two classes among the training rows is skipped. *)
Lemma stage1_label_skip Y_bin tr te (Xt_tr Xt_te : list X) lbl proba y_tr :
  column Y_bin tr lbl = Some y_tr → (length (unique y_tr) < 2)%nat →
  stage1_label Y_bin tr te Xt_tr Xt_te lbl proba = Some proba.
Proof.
  intros Hcol Hlen. unfold stage1_label. rewrite Hcol. simpl. by rewrite decide_True.
Qed.

(** What one fold does to a cell of the probability matrix: nothing
    outside its validation rows, and nothing in the column of a skipped
    label. *)
Lemma cv_fold_proba_frame (Xt : list X) Y_bin Y_cnt fold tr te st st' i lbl :
  cv_fold Xt Y_bin Y_cnt (fold, (tr, te)) st = Some st' →
  i ∉ te ∨ (∃ y_tr, column Y_bin tr lbl = Some y_tr ∧ (length (unique y_tr) < 2)%nat) →
  mat_get (cv_proba st') i lbl = mat_get (cv_proba st) i lbl.
Proof.
  unfold cv_fold. cbn [fst snd]. intros Hrun Hcase.
  destruct (select Xt tr) as [Xt_tr|]; simpl in Hrun; [|done].
  destruct (select Xt te) as [Xt_te|]; simpl in Hrun; [|done].
  destruct (for_each (stage1_label Y_bin tr te Xt_tr Xt_te) (seq 0 (ncols Y_bin))
              (cv_proba st)) as [proba|] eqn:Hs1; simpl in Hrun; [|done].
  assert (Hp : mat_get proba i lbl = mat_get (cv_proba st) i lbl).
  { revert Hs1.
    apply (for_each_invariant (λ p, mat_get p i lbl = mat_get (cv_proba st) i lbl)); [|done].
    intros l p p' _ Hp Hstep. rewrite <- Hp.
    destruct Hcase as [Hi|(y_tr & Hcol & Hlen)].
    - eapply stage1_label_frame; [done|by right].
    - destruct (decide (lbl = l)) as [<-|Hne].
      + rewrite (stage1_label_skip _ _ _ _ _ _ _ _ Hcol Hlen) in Hstep. by simplify_eq.
      + eapply stage1_label_frame; [done|by left]. }
  repeat match type of Hrun with
  | (?o ≫= _) = Some _ => destruct o; simpl in Hrun; [|done]
  end.
  by simplify_eq.
Qed.

Lemma mat_get_zeros_like {A B} (zero : B) (M : list (list A)) n m i j :
  has_shape n m M → (i < n)%nat → (j < m)%nat →
  mat_get (zeros_like zero M) i j = Some zero.
Proof.
  intros [Hn Hm] Hi Hj. unfold mat_get, zeros_like. rewrite list_lookup_fmap.
  destruct (lookup_lt_is_Some_2 M i) as [row Hrow]; [lia|]. rewrite Hrow. simpl.
  eapply Forall_lookup_1 in Hm; [|done]. apply lookup_replicate_2. lia.
Qed.

(** C8 (label-diversity skip).  When the training rows of a fold hold fewer
    than two distinct presence values for a label, Stage 1 skips the label
    without raising and leaves the probability matrix as it is; at the end
    of a cross-validation run the entries of that fold's validation rows in
    the label's column are still 0. *)
Theorem stage1_skip_leaves_zero (Xt : list X) (Y_bin Y_cnt : list (list Z))
    (groups : list G) splits (f : nat) tr te (lbl : nat) (y_tr : list Z) (n m : nat) :
  has_shape n m Y_bin → (lbl < m)%nat →
  gkf_split group_le groups K_FOLDS = Some splits →
  splits !! f = Some (tr, te) →
  column Y_bin tr lbl = Some y_tr →
  (length (unique y_tr) < 2)%nat →
  (∀ Xt_tr Xt_te proba, stage1_label Y_bin tr te Xt_tr Xt_te lbl proba = Some proba)
  ∧ (∀ res, cross_validate_transformed group_le Xt Y_bin Y_cnt groups = Some res →
       ∀ i, i ∈ te → mat_get (cv_proba res) i lbl = Some 0%Q).
Proof.
  intros Hshape Hlbl Hsplit Hf Hcol Hlen. split.
  - intros Xt_tr Xt_te proba. by eapply stage1_label_skip.
  - intros res Hrun i Hi. unfold cross_validate_transformed in Hrun.
    case_decide as Hlens; [|done]. destruct Hlens as [_ Hlens].
    rewrite Hsplit in Hrun. simpl in Hrun. revert Hrun.
    apply (for_each_invariant (λ st, mat_get (cv_proba st) i lbl = Some 0%Q)).
    + intros [fold [tr' te']] st st' Hin Hst Hstep. rewrite <- Hst.
      apply elem_of_lookup_imap in Hin as (f' & s & Heq & Hf'). simplify_eq.
      eapply cv_fold_proba_frame; [done|].
      destruct (decide (f' = f)) as [->|Hne].
      * right. rewrite Hf in Hf'. simplify_eq. eauto.
      * left. intros Hi'. apply Hne.
        destruct (gkf_split_validation group_le _ _ _ _ _ _ i Hsplit Hf) as (_ & Hte & _).
        destruct (gkf_split_validation group_le _ _ _ _ _ _ i Hsplit Hf') as (_ & Hte' & _).
        apply Hte in Hi as (g & Hg & <-). apply Hte' in Hi' as (g' & Hg' & <-).
        congruence.
    + simpl. eapply mat_get_zeros_like; [done| |done].
      destruct (gkf_split_validation group_le _ _ _ _ _ _ i Hsplit Hf) as (_ & Hte & _).
      apply Hte in Hi as (g & Hg & _). apply lookup_lt_Some in Hg.
      destruct Hshape as [Hn _]. lia.
Qed.
End cross_validation_facts.

Lemma stage1_skip_leaves_zero_witness :
  ∃ res, cross_validate_transformed Z.le cv_Xt cv_Y_bin cv_Y_cnt cv_groups = Some res
         ∧ ∀ i, i ∈ [0%nat] → mat_get (cv_proba res) i 0 = Some 0%Q.
Proof.
  destruct (cross_validate_transformed Z.le cv_Xt cv_Y_bin cv_Y_cnt cv_groups)
    as [res|] eqn:Hcv; [|by vm_compute in Hcv].
  exists res. split; [done|].
  destruct (stage1_skip_leaves_zero Z.le cv_Xt cv_Y_bin cv_Y_cnt cv_groups
    [([0; 1; 2; 3], [4; 5]); ([0; 1; 2; 4; 5], [3]); ([0; 1; 3; 4; 5], [2]);
     ([0; 2; 3; 4; 5], [1]); ([1; 2; 3; 4; 5], [0])]%nat
    4 [1; 2; 3; 4; 5]%nat [0%nat] 0 [0; 0; 0; 0; 0] 6 2) as [_ Hres].
  - split; [done|]. repeat constructor.
  - lia.
  - vm_compute. reflexivity.
  - reflexivity.
  - vm_compute. reflexivity.
  - vm_compute. lia.
  - exact (Hres res Hcv).
Defined.

(** ** Quantities at the end of cross-validation *)

Section cross_validation_quantities.
Context `{!ArgSort} {X : Type} `{!Learner X}.
Context {G : Type} `{EqDecision G} (group_le : relation G) `{!RelDecision group_le}.

Lemma write_column_nonneg (qty qty' : list (list Z)) idx lbl vals :
  nonneg qty → Forall (λ v, 0 ≤ v) vals →
  write_column qty idx lbl vals = Some qty' → nonneg qty'.
Proof.
  intros Hqty Hvals Hrun i j v Hv.
  apply write_column_spec in Hrun as [Hout Hin].
  destruct (decide (j = lbl ∧ i ∈ idx)) as [[-> Hi]|Hn].
  - destruct (Hin i Hi) as (v' & Hv' & Hget). rewrite Hget in Hv. simplify_eq.
    by eapply Forall_forall in Hvals.
  - rewrite Hout in Hv; [by eapply Hqty|].
    destruct (decide (j = lbl)) as [->|?]; [right|by left]. intros ?. by apply Hn.
Qed.

(** Every quantity model predicts non-negative quantities. *)
Lemma stage2_model_nonneg (Xt_tr Xt_te : list X) col m :
  stage2_model Xt_tr col = Some m → Forall (λ v, 0 ≤ v) (quantity_predict m Xt_te).
Proof.
  unfold stage2_model. rewrite mask_select_positive. cbn [mbind option_bind]. case_decide.
  - intros ?; simplify_eq. simpl. apply Forall_replicate. case_decide; lia.
  - destruct (mask_select _ Xt_tr) as [xs|]; simpl; [|done].
    destruct (svc_fit _ _ _ _) as [qclf|] eqn:Hfit; simpl; [|done].
    intros ?; simplify_eq. simpl. apply Forall_forall. intros v Hv.
    eapply svc_predict_classes in Hv; [|done].
    apply list_elem_of_filter in Hv as [? _]. lia.
Qed.

Lemma stage2_label_nonneg Y_cnt tr te (Xt_tr Xt_te : list X) lbl qty qty' :
  nonneg qty → stage2_label Y_cnt tr te Xt_tr Xt_te lbl qty = Some qty' → nonneg qty'.
Proof.
  unfold stage2_label. intros Hqty Hrun.
  destruct (column Y_cnt tr lbl) as [col|]; simpl in Hrun; [|done].
  destruct (stage2_model Xt_tr col) as [m|] eqn:Hm; simpl in Hrun; [|done].
  eapply write_column_nonneg; [done| |done]. by eapply stage2_model_nonneg.
Qed.

Lemma safeguard_pure_nonneg S qty : nonneg qty → nonneg (safeguard_pure S qty).
Proof.
  intros Hqty i j v. rewrite mat_get_safeguard_pure.
  destruct (mat_get qty i j) as [v'|] eqn:Hv'; simpl; [|done].
  intros ?; simplify_eq. apply Hqty in Hv'. unfold fix_cell. case_decide; lia.
Qed.

(** After one fold the quantities are non-negative, and at least 1 at the
    top-K labels of every row of the fold's probability matrix. *)
Lemma cv_fold_quantities (Xt : list X) Y_bin Y_cnt it st st' :
  nonneg (cv_qty_pred st) → cv_fold Xt Y_bin Y_cnt it st = Some st' →
  nonneg (cv_qty_pred st')
  ∧ ∀ i j, (i < length (cv_proba st'))%nat → j ∈ predicted_set TOP_K (cv_proba st') i →
      ∃ v, mat_get (cv_qty_pred st') i j = Some v ∧ 1 ≤ v.
Proof.
  unfold cv_fold. intros Hst Hrun.
  destruct (select Xt it.2.1) as [Xt_tr|]; simpl in Hrun; [|done].
  destruct (select Xt it.2.2) as [Xt_te|]; simpl in Hrun; [|done].
  destruct (for_each (stage1_label _ _ _ _ _) _ _) as [proba|]; simpl in Hrun; [|done].
  destruct (for_each (stage2_label _ _ _ _ _) _ _) as [qty|] eqn:Hs2;
    simpl in Hrun; [|done].
  assert (Hqty : nonneg qty).
  { revert Hs2. apply (for_each_invariant nonneg); [|done].
    intros l q q' _ Hq Hstep. by eapply stage2_label_nonneg. }
  destruct (apply_quantity_safeguard proba qty TOP_K) as [qty'|] eqn:Hsg;
    simpl in Hrun; [|done].
  rewrite apply_quantity_safeguard_cells in Hsg.
  apply visit_cells_inv in Hsg as [Hcells ->].
  repeat match type of Hrun with
  | (?o ≫= _) = Some _ => destruct o; simpl in Hrun; [|done]
  end.
  simplify_eq. simpl. split; [by apply safeguard_pure_nonneg|].
  intros i j Hi Hj. unfold predicted_set in Hj. apply elem_of_list_to_set in Hj.
  destruct (lookup_lt_is_Some_2 proba i Hi) as [row Hrow]. rewrite Hrow in Hj. simpl in Hj.
  assert (Hc : (i, j) ∈ visited_cells (topk TOP_K proba)).
  { apply elem_of_visited_cells. exists (topk_row TOP_K row). split; [|done].
    unfold topk. by rewrite list_lookup_fmap, Hrow. }
  destruct (Hcells _ Hc) as [v Hv]. simpl in Hv.
  exists (fix_cell (visited_cells (topk TOP_K proba)) i j v).
  rewrite mat_get_safeguard_pure, Hv. split; [done|].
  apply Hqty in Hv. unfold fix_cell. case_decide as Hd; [lia|].
  assert (v ≠ 0) by (intros ->; by apply Hd). lia.
Qed.

(** X21.  The quantity matrix the safeguard receives in the loop is never
    negative, and the matrices a run returns satisfy the guarantee of the
    safeguard: every top-K label of every row has a quantity of at least
    1. *)
Lemma cross_validation_quantities (Xt : list X) Y_bin Y_cnt (groups : list G) res :
  cross_validate_transformed group_le Xt Y_bin Y_cnt groups = Some res →
  nonneg (cv_qty_pred res)
  ∧ ∀ i j, (i < length (cv_proba res))%nat → j ∈ predicted_set TOP_K (cv_proba res) i →
      ∃ v, mat_get (cv_qty_pred res) i j = Some v ∧ 1 ≤ v.
Proof.
  unfold cross_validate_transformed. case_decide; [|done].
  destruct (gkf_split group_le groups K_FOLDS) as [splits|] eqn:Hsplit; simpl; [|done].
  apply gkf_split_length in Hsplit as [Hlen _].
  destruct splits as [|s splits _] using rev_ind; [done|].
  rewrite imap_app, for_each_app. simpl.
  set (st0 := {| cv_proba := _ |}).
  destruct (for_each _ _ st0) as [st|] eqn:Hpre; simpl; [|done].
  destruct (cv_fold Xt Y_bin Y_cnt _ st) as [st'|] eqn:Hlast; simpl; [|done].
  intros ?; simplify_eq. eapply cv_fold_quantities; [|done].
  revert Hpre. apply (for_each_invariant (λ st, nonneg (cv_qty_pred st))).
  - intros it t t' _ Ht Hstep. by eapply cv_fold_quantities.
  - intros i j v. unfold st0, mat_get, zeros_like. simpl. rewrite list_lookup_fmap.
    destruct (Y_cnt !! i) as [row|]; simpl; [|done].
    intros Hv. apply lookup_replicate in Hv as [-> _]. done.
Qed.
End cross_validation_quantities.

(** ** More on the top-K selection *)

Section topk_more.
Context `{!ArgSort}.

(** X1.  For a positive [k] the slice [argsort(row)[-k:]] holds [min(k, L)]
    distinct columns of the row, and no column left out has a higher
    probability than a column selected. *)
Theorem topk_row_selects_highest (k : Z) (row : list Q) :
  0 < k →
  NoDup (topk_row k row)
  ∧ length (topk_row k row) = Nat.min (Z.to_nat k) (length row)
  ∧ (∀ j, j ∈ topk_row k row → (j < length row)%nat)
  ∧ (∀ j j', j ∈ topk_row k row → (j' < length row)%nat → j' ∉ topk_row k row →
       (key row j' <= key row j)%Q).
Proof.
  intros Hk. split; [apply topk_row_NoDup|]. split; [by apply topk_row_length|].
  split; [apply topk_row_lt|]. intros j j'. apply topk_row_highest.
Qed.

(** X2.  The size of the selection for every [k]: [min(k, L)] columns for a
    positive [k]; for [k = 0] the slice [[-0:]] is the whole row, so every
    column is selected; a negative [k] drops the [|k|] lowest columns. *)
Theorem topk_row_size (k : Z) (row : list Q) :
  length (topk_row k row)
  = if decide (0 < k) then Nat.min (Z.to_nat k) (length row)
    else (length row - Z.to_nat (- k))%nat.
Proof.
  case_decide as Hk; [by apply topk_row_length|].
  unfold topk_row, slice_from. rewrite decide_False by lia.
  rewrite length_drop, argsort_length. lia.
Qed.
End topk_more.

Lemma topk_row_selects_highest_witness :
  NoDup (topk_row 2 [1 # 10; 9 # 10; 1 # 2; 3 # 10]%Q)
  ∧ length (topk_row 2 [1 # 10; 9 # 10; 1 # 2; 3 # 10]%Q) = 2%nat
  ∧ (∀ j, j ∈ topk_row 2 [1 # 10; 9 # 10; 1 # 2; 3 # 10]%Q → (j < 4)%nat)
  ∧ (∀ j j', j ∈ topk_row 2 [1 # 10; 9 # 10; 1 # 2; 3 # 10]%Q → (j' < 4)%nat →
       j' ∉ topk_row 2 [1 # 10; 9 # 10; 1 # 2; 3 # 10]%Q →
       (key [1 # 10; 9 # 10; 1 # 2; 3 # 10] j' <= key [1 # 10; 9 # 10; 1 # 2; 3 # 10] j)%Q).
Proof. apply (topk_row_selects_highest 2 [1 # 10; 9 # 10; 1 # 2; 3 # 10]%Q). lia. Defined.

(** ** More on the quantity safeguard *)

Section safeguard_more.
Context `{!ArgSort}.
Implicit Types (proba : list (list Q)) (qty : list (list Z)).

Lemma visited_cells_predicted_set proba k i j :
  (i, j) ∈ visited_cells (topk k proba) ↔ j ∈ predicted_set k proba i.
Proof.
  rewrite elem_of_visited_cells. unfold predicted_set, topk.
  rewrite elem_of_list_to_set, list_lookup_fmap.
  destruct (proba !! i) as [row|]; simpl.
  - split; [by intros (idxs & ? & ?); simplify_eq|eauto].
  - rewrite topk_row_nil. split; [by intros (? & ? & ?)|].
    intros Hj. by apply elem_of_nil in Hj.
Qed.

Lemma safeguard_pure_same_shape S qty : same_shape qty (safeguard_pure S qty).
Proof.
  unfold same_shape, safeguard_pure. apply Forall2_same_length_lookup. split.
  - by rewrite length_imap.
  - intros i r r' Hr Hr'. rewrite list_lookup_imap, Hr in Hr'. simpl in Hr'.
    simplify_eq. by rewrite length_imap.
Qed.

(** X3.  What the safeguard changes: the returned matrix has the shape of
    the one passed in; a cell that holds 0 and lies in the top-K of its row
    becomes 1; every other cell, a zero outside the top-K included, keeps
    its value. *)
Theorem safeguard_changes_only_selected_zeros proba qty (k : Z) qty' :
  apply_quantity_safeguard proba qty k = Some qty' →
  same_shape qty qty'
  ∧ ∀ i j v, mat_get qty i j = Some v →
      mat_get qty' i j
      = Some (if decide (v = 0 ∧ j ∈ predicted_set k proba i) then 1 else v).
Proof.
  rewrite apply_quantity_safeguard_cells. intros Hrun.
  apply visit_cells_inv in Hrun as [_ ->]. split; [apply safeguard_pure_same_shape|].
  intros i j v Hv. rewrite mat_get_safeguard_pure, Hv. simpl. f_equal.
  unfold fix_cell. destruct (decide (v = 0 ∧ (i, j) ∈ visited_cells (topk k proba)))
    as [[-> Hc]|Hn].
  - rewrite decide_True; [done|]. split; [done|]. by apply visited_cells_predicted_set.
  - rewrite decide_False; [done|]. intros [-> Hj]. apply Hn. split; [done|].
    by apply visited_cells_predicted_set.
Qed.

(** X4.  The safeguard returns exactly when every selected position is a
    cell of the quantity matrix; otherwise the read [qty_pred[i, j]]
    raises.  Extra rows or columns of the quantity matrix do no harm. *)
Theorem safeguard_returns_iff_cells_exist proba qty (k : Z) :
  is_Some (apply_quantity_safeguard proba qty k)
  ↔ ∀ i j, j ∈ predicted_set k proba i → is_Some (mat_get qty i j).
Proof.
  rewrite apply_quantity_safeguard_cells. split.
  - intros [qty' Hrun] i j Hj. apply visit_cells_inv in Hrun as [Hin _].
    apply visited_cells_predicted_set in Hj. by apply (Hin (i, j)).
  - intros Hall. rewrite visit_cells_Some; [done|]. intros [i j] Hc.
    apply Hall. by apply visited_cells_predicted_set.
Qed.
End safeguard_more.

Lemma safeguard_changes_only_selected_zeros_witness :
  same_shape [[0; 0; 3]; [0; 2; 0]] [[0; 1; 3]; [1; 2; 1]]
  ∧ ∀ i j v, mat_get [[0; 0; 3]; [0; 2; 0]] i j = Some v →
      mat_get [[0; 1; 3]; [1; 2; 1]] i j
      = Some (if decide (v = 0 ∧ j ∈ predicted_set 2
                  [[1 # 10; 9 # 10; 1 # 2]; [1 # 3; 0; 1 # 4]]%Q i) then 1 else v).
Proof.
  apply (safeguard_changes_only_selected_zeros
           [[1 # 10; 9 # 10; 1 # 2]; [1 # 3; 0; 1 # 4]]%Q [[0; 0; 3]; [0; 2; 0]] 2).
  vm_compute. reflexivity.
Defined.

(** ** More on target construction *)

Section targets_more.
Context {L : Type} `{Countable L} (label_le : relation L) `{!RelDecision label_le}.
Context {G : Type}.
Implicit Types (m : gmap L Z) (pqs : list (L * Z)) (df : list (sample L G)).

Lemma elem_of_concat {A} (ls : list (list A)) (x : A) :
  x ∈ concat ls ↔ ∃ l, l ∈ ls ∧ x ∈ l.
Proof.
  induction ls as [|l ls IH]; simpl.
  - split; [intros Hx; by apply elem_of_nil in Hx|].
    intros (l & Hl & _). by apply elem_of_nil in Hl.
  - rewrite elem_of_app, IH. split.
    + intros [Hx|(l' & Hl' & Hx)]; [exists l; split; [left|done]|].
      exists l'. split; [by right|done].
    + intros (l' & Hl' & Hx). apply elem_of_cons in Hl' as [->|Hl']; [by left|].
      right. eauto.
Qed.

Lemma elem_of_classes_ (label_lists : list (list L)) cls :
  cls ∈ classes_ label_le label_lists ↔ ∃ labels, labels ∈ label_lists ∧ cls ∈ labels.
Proof.
  unfold classes_. rewrite merge_sort_Permutation, elem_of_remove_dups.
  apply elem_of_concat.
Qed.

Lemma NoDup_classes_ (label_lists : list (list L)) : NoDup (classes_ label_le label_lists).
Proof. unfold classes_. rewrite merge_sort_Permutation. apply NoDup_remove_dups. Qed.

Lemma dict_foldl_lookup_notin pqs m k :
  k ∉ pqs.*1 → foldl dict_insert m pqs !! k = m !! k.
Proof.
  revert m. induction pqs as [|[p q] pqs IH]; intros m Hk; [done|].
  simpl. rewrite IH by (intros ?; apply Hk; by right).
  unfold dict_insert. simpl. apply lookup_insert_ne. intros ->. apply Hk. left.
Qed.

(** A key keeps the value of its last occurrence. *)
Lemma dict_foldl_last pqs m p k v :
  pqs !! p = Some (k, v) →
  (∀ p' v', (p < p')%nat → pqs !! p' ≠ Some (k, v')) →
  foldl dict_insert m pqs !! k = Some v.
Proof.
  revert m p. induction pqs as [|[k0 v0] pqs IH]; intros m p Hp Hlast; [done|].
  destruct p as [|p]; simpl in Hp.
  - simplify_eq. simpl. rewrite dict_foldl_lookup_notin.
    + unfold dict_insert. simpl. apply lookup_insert_eq.
    + intros Hin. apply list_elem_of_fmap in Hin as ([k' v'] & Hk & Hin). simpl in Hk.
      subst k'. apply list_elem_of_lookup in Hin as [p' Hp'].
      apply (Hlast (S p') v'); [lia|done].
  - simpl. apply (IH _ p); [done|]. intros p' v' Hlt. apply (Hlast (S p') v'). lia.
Qed.

Lemma cnt_vec_cell df (classes : list L) i l r cls :
  df !! i = Some r → classes !! l = Some cls →
  mat_get (cnt_vec classes <$> df) i l
  = Some (default 0 (dict_of_zip (Product_ID r) (Quantity r) !! cls)).
Proof.
  intros Hr Hcls. unfold mat_get, cnt_vec. rewrite list_lookup_fmap, Hr. simpl.
  by rewrite list_lookup_fmap, Hcls.
Qed.

(** A cell of the targets: the presence bit, and the converted count. *)
Lemma make_targets_cells df X Y_bin Y_cnt mlb i l r cls :
  make_targets label_le df = Some (X, Y_bin, Y_cnt, mlb) →
  df !! i = Some r → mlb !! l = Some cls →
  mat_get Y_bin i l = Some (if decide (cls ∈ Product_ID r) then 1 else 0)
  ∧ ∃ d, mat_get Y_cnt i l
         = Some (astype_int_cell d
                   (default 0 (dict_of_zip (Product_ID r) (Quantity r) !! cls))).
Proof.
  intros Hmk Hr Hcls. apply make_targets_Some in Hmk as (-> & -> & Hcast). split.
  - unfold mat_get, binarize. rewrite list_lookup_fmap, Hr. simpl.
    by rewrite list_lookup_fmap, Hcls.
  - apply mat_get_astype_int in Hcast as [d Hd]. exists d.
    by rewrite Hd, (cnt_vec_cell _ _ _ _ _ _ Hr Hcls).
Qed.

(** X5.  The two target matrices have one row per sample and one column per
    class, [Y_bin] is binary, and a row of [Y_bin] decodes to the row's
    labels: a label is in the row's list exactly when some column of that
    class holds 1.  No label of the data is dropped. *)
Theorem make_targets_shape_and_decoding df X Y_bin Y_cnt mlb :
  make_targets label_le df = Some (X, Y_bin, Y_cnt, mlb) →
  has_shape (length df) (length mlb) Y_bin
  ∧ has_shape (length df) (length mlb) Y_cnt
  ∧ binary Y_bin
  ∧ ∀ i r cls, df !! i = Some r →
      (cls ∈ Product_ID r ↔ ∃ l, mlb !! l = Some cls ∧ mat_get Y_bin i l = Some 1).
Proof.
  intros Hmk. destruct (make_targets_Some _ _ _ _ _ _ Hmk) as (Hmlb & -> & Hcast).
  assert (Hin_mlb : ∀ cls, cls ∈ mlb ↔ ∃ labels, labels ∈ Product_ID <$> df ∧ cls ∈ labels).
  { intros cls. rewrite Hmlb. apply elem_of_classes_. }
  clear Hmlb. split; [|split; [|split]].
  - split; [by rewrite length_fmap|]. apply Forall_fmap, Forall_forall. intros r _.
    simpl. unfold binarize. by rewrite length_fmap.
  - apply astype_int_Some in Hcast as [d ->].
    split; [by rewrite !length_fmap|]. apply Forall_fmap, Forall_fmap, Forall_forall.
    intros r _. simpl. unfold cnt_vec. by rewrite !length_fmap.
  - unfold binary. apply Forall_fmap, Forall_forall. intros r _. simpl.
    unfold binarize. apply Forall_fmap, Forall_forall. intros cls _. simpl.
    case_decide; [by right|by left].
  - intros i r cls Hr. split.
    + intros Hcls. assert (Hin : cls ∈ mlb).
      { apply Hin_mlb. exists (Product_ID r). split; [|done].
        apply list_elem_of_fmap. exists r. split; [done|]. by eapply list_elem_of_lookup_2. }
      apply list_elem_of_lookup in Hin as [l Hl]. exists l. split; [done|].
      destruct (make_targets_cells _ _ _ _ _ _ _ _ _ Hmk Hr Hl) as [Hb _]. rewrite Hb.
      by rewrite decide_True.
    + intros (l & Hl & Hbit).
      destruct (make_targets_cells _ _ _ _ _ _ _ _ _ Hmk Hr Hl) as [Hb _].
      rewrite Hb in Hbit. case_decide; [done|]. by simplify_eq.
Qed.

(** X6.  The classes (the columns of the targets): every label that occurs
    in some row and no other, each once, and every column of [Y_bin] holds
    a 1 in some row; under a total and transitive order the classes are
    sorted. *)
Theorem make_targets_classes `{!Total label_le} `{!Transitive label_le}
    df X Y_bin Y_cnt mlb :
  make_targets label_le df = Some (X, Y_bin, Y_cnt, mlb) →
  NoDup mlb
  ∧ StronglySorted label_le mlb
  ∧ (∀ cls, cls ∈ mlb ↔ ∃ r, r ∈ df ∧ cls ∈ Product_ID r)
  ∧ (∀ l, (l < length mlb)%nat → ∃ i, mat_get Y_bin i l = Some 1).
Proof.
  intros Hmk. destruct (make_targets_Some _ _ _ _ _ _ Hmk) as (Hmlb & _ & _).
  assert (Hmem : ∀ cls, cls ∈ mlb ↔ ∃ r, r ∈ df ∧ cls ∈ Product_ID r).
  { intros cls. rewrite Hmlb, elem_of_classes_. split.
    - intros (labels & Hl & Hcls). apply list_elem_of_fmap in Hl as (r & -> & Hr). eauto.
    - intros (r & Hr & Hcls). exists (Product_ID r). split; [|done].
      apply list_elem_of_fmap. eauto. }
  split; [rewrite Hmlb; apply NoDup_classes_|].
  split; [rewrite Hmlb; apply StronglySorted_merge_sort; apply _|].
  split; [done|]. intros l Hl.
  destruct (lookup_lt_is_Some_2 mlb l Hl) as [cls Hcls].
  destruct (proj1 (Hmem cls)) as (r & Hr & Hin); [by eapply list_elem_of_lookup_2|].
  apply list_elem_of_lookup in Hr as [i Hi]. exists i.
  destruct (make_targets_cells _ _ _ _ _ _ _ _ _ Hmk Hi Hcls) as [Hb _]. rewrite Hb.
  by rewrite decide_True.
Qed.

(** X7.  Without any assumption on the two lists of a row: a cell of
    [Y_cnt] that is not 0 belongs to a label of the row, so the presence
    bit of the cell is 1. *)
Theorem make_targets_count_implies_present df X Y_bin Y_cnt mlb i l c :
  make_targets label_le df = Some (X, Y_bin, Y_cnt, mlb) →
  mat_get Y_cnt i l = Some c → c ≠ 0 → mat_get Y_bin i l = Some 1.
Proof.
  intros Hmk Hc Hne.
  assert (∃ r cls, df !! i = Some r ∧ mlb !! l = Some cls) as (r & cls & Hr & Hcls).
  { destruct (make_targets_Some _ _ _ _ _ _ Hmk) as (_ & _ & Hcast).
    apply mat_get_astype_int in Hcast as [d Hd]. rewrite Hd in Hc.
    unfold mat_get in Hc. rewrite list_lookup_fmap in Hc.
    destruct (df !! i) as [r|]; simpl in Hc; [|done]. unfold cnt_vec in Hc.
    rewrite list_lookup_fmap in Hc.
    destruct (mlb !! l) as [cls|]; [eauto|done]. }
  destruct (make_targets_cells _ _ _ _ _ _ _ _ _ Hmk Hr Hcls) as [Hb [d Hcnt]].
  rewrite Hb. rewrite Hcnt in Hc. simplify_eq. rewrite decide_True; [done|].
  destruct (dict_of_zip (Product_ID r) (Quantity r) !! cls) as [v|] eqn:Hv;
    [|by rewrite astype_int_cell_zero in Hne].
  unfold dict_of_zip in Hv.
  apply dict_foldl_lookup_Some in Hv as [Hv|Hv]; [|by rewrite lookup_empty in Hv].
  by apply elem_of_zip_l in Hv.
Qed.

(** X8.  Reading a quantity back, for quantities of 64 bits: the cell of a
    label holds the quantity paired with the label's last occurrence among
    the zipped positions (a repeated label keeps its last quantity). *)
Theorem make_targets_count_last_occurrence df X Y_bin Y_cnt mlb i l r cls p q :
  Forall (λ r, Forall fits_int64 (Quantity r)) df →
  make_targets label_le df = Some (X, Y_bin, Y_cnt, mlb) →
  df !! i = Some r → mlb !! l = Some cls →
  Product_ID r !! p = Some cls → Quantity r !! p = Some q →
  (∀ p', (p < p' < length (Quantity r))%nat → Product_ID r !! p' ≠ Some cls) →
  mat_get Y_cnt i l = Some q.
Proof.
  intros Hfits Hmk Hr Hcls Hp Hq Hlast.
  rewrite (make_targets_fits label_le df Hfits) in Hmk. simplify_eq.
  rewrite (cnt_vec_cell _ _ _ _ _ _ Hr Hcls).
  unfold dict_of_zip. rewrite (dict_foldl_last _ _ p cls q); [done| |].
  - apply lookup_zip_with_Some. eauto.
  - intros p' v' Hlt Hp'. apply lookup_zip_with_Some in Hp' as (k' & v'' & ? & Hk & Hv).
    simplify_eq. apply (Hlast p'); [|done]. apply lookup_lt_Some in Hv. lia.
Qed.

(** X9.  A quantity list shorter than the label list: [zip] stops at the
    shorter one, so a label that only occurs past the end of the quantity
    list has presence bit 1 and count 0. *)
Theorem make_targets_truncated_quantities df X Y_bin Y_cnt mlb i l r cls :
  make_targets label_le df = Some (X, Y_bin, Y_cnt, mlb) →
  df !! i = Some r → mlb !! l = Some cls →
  cls ∈ Product_ID r → cls ∉ take (length (Quantity r)) (Product_ID r) →
  mat_get Y_bin i l = Some 1 ∧ mat_get Y_cnt i l = Some 0.
Proof.
  intros Hmk Hr Hcls Hin Hout.
  destruct (make_targets_cells _ _ _ _ _ _ _ _ _ Hmk Hr Hcls) as [Hb [d Hc]].
  rewrite Hb, Hc. split; [by rewrite decide_True|]. unfold dict_of_zip.
  rewrite dict_foldl_lookup_notin; [by rewrite lookup_empty, astype_int_cell_zero|].
  intros Hz. apply Hout. apply list_elem_of_fmap in Hz as ([k v] & -> & Hkv).
  apply list_elem_of_lookup in Hkv as [p Hp].
  apply lookup_zip_with_Some in Hp as (k' & v' & ? & Hk & Hv). simplify_eq. simpl.
  apply list_elem_of_lookup. exists p. rewrite lookup_take_lt; [done|].
  by eapply lookup_lt_Some.
Qed.
End targets_more.

Lemma make_targets_shape_and_decoding_witness :
  has_shape 2 3 [[1; 1; 0]; [1; 0; 1]]
  ∧ has_shape 2 3 [[5; 4; 0]; [1; 0; 0]]
  ∧ binary [[1; 1; 0]; [1; 0; 1]]
  ∧ ∀ i r cls, df_repeated_and_short !! i = Some r →
      (cls ∈ Product_ID r
       ↔ ∃ l, [3; 7; 9] !! l = Some cls ∧ mat_get [[1; 1; 0]; [1; 0; 1]] i l = Some 1).
Proof.
  apply (make_targets_shape_and_decoding Z.le df_repeated_and_short
           [("skift pakning", "ventil"); ("rens filter", "pumpe")]%string
           [[1; 1; 0]; [1; 0; 1]] [[5; 4; 0]; [1; 0; 0]] [3; 7; 9]).
  vm_compute. reflexivity.
Defined.

Lemma make_targets_classes_witness :
  NoDup [3; 7; 9]
  ∧ StronglySorted Z.le [3; 7; 9]
  ∧ (∀ cls, cls ∈ [3; 7; 9] ↔ ∃ r, r ∈ df_repeated_and_short ∧ cls ∈ Product_ID r)
  ∧ (∀ l, (l < 3)%nat → ∃ i, mat_get [[1; 1; 0]; [1; 0; 1]] i l = Some 1).
Proof.
  apply (make_targets_classes Z.le df_repeated_and_short
           [("skift pakning", "ventil"); ("rens filter", "pumpe")]%string
           [[1; 1; 0]; [1; 0; 1]] [[5; 4; 0]; [1; 0; 0]] [3; 7; 9]).
  vm_compute. reflexivity.
Defined.

Lemma make_targets_count_implies_present_witness :
  mat_get [[1; 1; 0]; [1; 0; 1]] 0 1 = Some 1.
Proof.
  apply (make_targets_count_implies_present Z.le df_repeated_and_short
           [("skift pakning", "ventil"); ("rens filter", "pumpe")]%string
           [[1; 1; 0]; [1; 0; 1]] [[5; 4; 0]; [1; 0; 0]] [3; 7; 9] 0 1 4).
  - vm_compute. reflexivity.
  - reflexivity.
  - lia.
Defined.

Lemma make_targets_count_last_occurrence_witness :
  mat_get [[5; 4; 0]; [1; 0; 0]] 0 1 = Some 4.
Proof.
  apply (make_targets_count_last_occurrence Z.le df_repeated_and_short
           [("skift pakning", "ventil"); ("rens filter", "pumpe")]%string
           [[1; 1; 0]; [1; 0; 1]] [[5; 4; 0]; [1; 0; 0]] [3; 7; 9] 0 1
           {| Instructions := "skift pakning"; Asset := "ventil"; Work_Order := 201;
              Product_ID := [7; 3; 7]; Quantity := [2; 5; 4] |} 7 2 4).
  - unfold fits_int64, int64_min, int64_max. repeat constructor; simpl; lia.
  - vm_compute. reflexivity.
  - reflexivity.
  - reflexivity.
  - reflexivity.
  - reflexivity.
  - intros p' Hp'. simpl in Hp'. lia.
Defined.

Lemma make_targets_truncated_quantities_witness :
  mat_get [[1; 1; 0]; [1; 0; 1]] 1 2 = Some 1
  ∧ mat_get [[5; 4; 0]; [1; 0; 0]] 1 2 = Some 0.
Proof.
  apply (make_targets_truncated_quantities Z.le df_repeated_and_short
           [("skift pakning", "ventil"); ("rens filter", "pumpe")]%string
           [[1; 1; 0]; [1; 0; 1]] [[5; 4; 0]; [1; 0; 0]] [3; 7; 9] 1 2
           {| Instructions := "rens filter"; Asset := "pumpe"; Work_Order := 202;
              Product_ID := [3; 9]; Quantity := [1] |} 9).
  - vm_compute. reflexivity.
  - reflexivity.
  - reflexivity.
  - simpl. right. left.
  - simpl. intros Hin. apply list_elem_of_singleton in Hin. lia.
Defined.

(** ** Bounds of the metrics *)

Lemma ratio_unit (a b : nat) : (a ≤ b)%nat → (0 < b)%nat → unit_interval (ratio a b).
Proof.
  intros Hab Hb. unfold unit_interval, ratio.
  assert (Hb' : (0 < inject_Z (Z.of_nat b))%Q) by (rewrite <- (Zlt_Qlt 0); lia).
  assert (Ha : (0 <= inject_Z (Z.of_nat a))%Q) by (rewrite <- (Zle_Qle 0); lia).
  assert (Hab' : (inject_Z (Z.of_nat a) <= inject_Z (Z.of_nat b))%Q)
    by (rewrite <- Zle_Qle; lia).
  split.
  - apply Qle_shift_div_l; [done|]. lra.
  - apply Qle_shift_div_r; [done|]. lra.
Qed.

Lemma Qsum_unit_bounds (xs : list Q) :
  Forall unit_interval xs →
  (0 <= Qsum xs)%Q ∧ (Qsum xs <= inject_Z (Z.of_nat (length xs)))%Q.
Proof.
  induction 1 as [|x xs [Hx0 Hx1] _ [IH0 IH1]]; simpl.
  - split; apply Qle_refl.
  - assert (Hs : (inject_Z (Z.of_nat (S (length xs)))
                  == 1 + inject_Z (Z.of_nat (length xs)))%Q).
    { rewrite Nat2Z.inj_succ. unfold Z.succ. rewrite inject_Z_plus. simpl. ring. }
    rewrite Hs. split; lra.
Qed.

(** The mean of numbers between 0 and 1 lies between 0 and 1. *)
Lemma mean_unit (xs : list Q) :
  Forall unit_interval xs → xs ≠ [] → ∃ q, mean xs = Num q ∧ unit_interval q.
Proof.
  intros Hxs Hne. destruct (Qsum_unit_bounds xs Hxs) as [H0 H1].
  assert (Hn : (0 < inject_Z (Z.of_nat (length xs)))%Q).
  { rewrite <- (Zlt_Qlt 0). destruct xs; [done|]. simpl. lia. }
  exists (Qsum xs / inject_Z (Z.of_nat (length xs)))%Q. split; [by destruct xs|].
  split.
  - apply Qle_shift_div_l; [done|]. lra.
  - apply Qle_shift_div_r; [done|]. lra.
Qed.

Lemma Qsum_le (xs ys : list Q) :
  Forall2 Qle xs ys → (Qsum xs <= Qsum ys)%Q.
Proof. induction 1; simpl; lra. Qed.

Section metrics_bounds.
Context `{!ArgSort}.
Implicit Types (y_true : list (list Z)) (proba : list (list Q)) (row : list Z).

Lemma size_inter_le_l (t p : gset nat) : (size (t ∩ p) ≤ size t)%nat.
Proof. apply subseteq_size, intersection_subseteq_l. Qed.

Lemma size_inter_le_r (t p : gset nat) : (size (t ∩ p) ≤ size p)%nat.
Proof. apply subseteq_size, intersection_subseteq_r. Qed.

Lemma size_topk_set (k : Z) (prow : list Q) :
  0 < k → (size (list_to_set (topk_row k prow) : gset nat) ≤ Z.to_nat k)%nat.
Proof.
  intros Hk. rewrite size_list_to_set by apply topk_row_NoDup.
  rewrite topk_row_length by done. lia.
Qed.

Lemma topk_length (k : Z) proba : length (topk k proba) = length proba.
Proof. unfold topk. by rewrite length_fmap. Qed.

(** The terms of [precision_at_k] for a non-zero [k]. *)
Lemma precision_terms y_true proba (k : Z) :
  k ≠ 0 → (length y_true ≤ length proba)%nat →
  mapM (precision_term (topk k proba) k) (imap pair y_true)
  = Some (zip_with
      (λ row idxs, (inject_Z (Z.of_nat (size (ones_set row ∩ list_to_set idxs)))
                    / inject_Z k)%Q)
      y_true (topk k proba)).
Proof.
  intros Hk Hlen. apply mapM_imap_lookup; [|by rewrite topk_length].
  intros iy. unfold precision_term. destruct (topk k proba !! iy.1); simpl; [|done].
  by rewrite decide_False.
Qed.

Lemma precision_at_k_positive y_true proba (k : Z) :
  (length y_true ≤ length proba)%nat → 0 < k → y_true ≠ [] →
  ∃ q, precision_at_k y_true proba k = Some (Num q) ∧ unit_interval q.
Proof.
  intros Hlen Hk Hne. unfold precision_at_k. rewrite precision_terms by (done || lia).
  simpl. set (terms := zip_with _ _ _).
  destruct (mean_unit terms) as (q & Hq & Hunit).
  - apply Forall_forall. intros x Hx. apply list_elem_of_lookup in Hx as [i Hi].
    apply lookup_zip_with_Some in Hi as (row & idxs & -> & _ & Hidx).
    unfold topk in Hidx. rewrite list_lookup_fmap in Hidx.
    destruct (proba !! i) as [prow|]; simpl in Hidx; [|done]. simplify_eq.
    pose proof (size_inter_le_r (ones_set row) (list_to_set (topk_row k prow))) as H1.
    pose proof (size_topk_set k prow Hk) as H2.
    set (n := size (ones_set row ∩ list_to_set (topk_row k prow))) in *.
    assert (Hk' : (0 < inject_Z k)%Q) by (by rewrite <- (Zlt_Qlt 0)).
    assert (H3 : (inject_Z (Z.of_nat n) <= inject_Z k)%Q) by (rewrite <- Zle_Qle; lia).
    assert (H4 : (0 <= inject_Z (Z.of_nat n))%Q) by (rewrite <- (Zle_Qle 0); lia).
    split.
    + apply Qle_shift_div_l; [done|]. lra.
    + apply Qle_shift_div_r; [done|]. lra.
  - intros Hnil. apply (f_equal length) in Hnil. unfold terms in Hnil.
    rewrite length_zip_with, topk_length in Hnil.
    assert (0 < length y_true)%nat by (destruct y_true; [done|simpl; lia]).
    change (length (@nil Q)) with 0%nat in Hnil. lia.
  - exists q. by rewrite Hq.
Qed.

(** X10.  [precision_at_k] on a truth matrix with a probability row for
    every truth row: a number between 0 and 1 for a positive [k] and at
    least one row; NaN when there is no row; and for [k = 0] with at least
    one row the division by [k] raises. *)
Theorem precision_at_k_cases y_true proba (k : Z) :
  (length y_true ≤ length proba)%nat →
  (0 < k → y_true ≠ [] →
     ∃ q, precision_at_k y_true proba k = Some (Num q) ∧ unit_interval q)
  ∧ (y_true = [] → precision_at_k y_true proba k = Some NaN)
  ∧ (k = 0 → y_true ≠ [] → precision_at_k y_true proba k = None).
Proof.
  intros Hlen. split; [|split].
  - by apply precision_at_k_positive.
  - intros ->. done.
  - intros -> Hne. unfold precision_at_k.
    destruct y_true as [|row y_true]; [done|].
    destruct proba as [|prow proba]; [simpl in Hlen; lia|].
    simpl. done.
Qed.

Lemma recall_at_k_returns_unit y_true proba (k : Z) :
  (length y_true ≤ length proba)%nat →
  ∃ q, recall_at_k y_true proba k = Some (Num q) ∧ unit_interval q.
Proof.
  intros Hlen. unfold recall_at_k. rewrite imap_pair_seq.
  change (@inhabitant (list Z) _) with (@nil Z).
  rewrite recall_loop
    by (apply Forall_forall; intros i Hi; apply elem_of_seq in Hi; lia).
  simpl. set (scores := _ <$> _).
  destruct scores as [|s scores'] eqn:Hs.
  - exists 0%Q. split; [done|]. split; lra.
  - rewrite <- Hs. destruct (mean_unit scores) as (q & Hq & Hunit).
    + unfold scores. apply Forall_fmap, Forall_forall. intros i Hi. simpl.
      apply list_elem_of_filter in Hi as [Hne _]. apply ratio_unit.
      * apply size_inter_le_l.
      * destruct (size (truth y_true i)) eqn:Hsz; [|lia].
        apply size_empty_inv in Hsz. by apply leibniz_equiv in Hsz.
    + by rewrite Hs.
    + exists q. by rewrite Hq.
Qed.

(** X11.  [recall_at_k] on a truth matrix with a probability row for every
    truth row always returns a number between 0 and 1, never NaN. *)
Theorem recall_at_k_unit_interval y_true proba (k : Z) :
  (length y_true ≤ length proba)%nat →
  ∃ q, recall_at_k y_true proba k = Some (Num q) ∧ unit_interval q.
Proof. apply recall_at_k_returns_unit. Qed.

Lemma f1_combine_unit (p r : Q) :
  unit_interval p → unit_interval r →
  ∃ q, f1_combine (Num p) (Num r) = Num q ∧ unit_interval q.
Proof.
  intros [Hp0 Hp1] [Hr0 Hr1]. unfold f1_combine.
  destruct (Qeq_bool (p + r) 0) eqn:Hz.
  - exists 0%Q. split; [done|]. split; lra.
  - apply Qeq_bool_neq in Hz. eexists. split; [done|].
    assert (Hpos : (0 < p + r)%Q).
    { destruct (Qlt_le_dec 0 (p + r)) as [?|Hle]; [done|]. destruct Hz. lra. }
    assert (Hpr0 : (0 <= p * r)%Q) by by apply Qmult_le_0_compat.
    assert (Hpr1 : (r * p <= 1 * p)%Q) by (by apply Qmult_le_compat_r).
    assert (Hpr2 : (p * r <= 1 * r)%Q) by (by apply Qmult_le_compat_r).
    split.
    + apply Qle_shift_div_l; [done|]. lra.
    + apply Qle_shift_div_r; [done|]. lra.
Qed.

(** X12.  [f1_at_k] on a truth matrix with a probability row for every
    truth row: a number between 0 and 1 for a positive [k] and at least one
    row.  With no row the NaN of the precision propagates: the result is
    NaN although the recall of the same input is 0. *)
Theorem f1_at_k_cases y_true proba (k : Z) :
  (length y_true ≤ length proba)%nat →
  (0 < k → y_true ≠ [] →
     ∃ q, f1_at_k y_true proba k = Some (Num q) ∧ unit_interval q)
  ∧ (y_true = [] →
     f1_at_k y_true proba k = Some NaN ∧ recall_at_k y_true proba k = Some (Num 0%Q)).
Proof.
  intros Hlen. split.
  - intros Hk Hne. unfold f1_at_k.
    destruct (precision_at_k_positive _ _ _ Hlen Hk Hne) as (p & -> & Hp).
    destruct (recall_at_k_returns_unit _ _ k Hlen) as (r & -> & Hr).
    destruct (f1_combine_unit p r Hp Hr) as (q & Hq & Hunit).
    exists q. split; [|done]. rewrite <- Hq. reflexivity.
  - intros ->. done.
Qed.
End metrics_bounds.

Lemma precision_at_k_cases_witness :
  (∃ q, precision_at_k [[1; 0; 1]; [0; 0; 0]]
          [[9 # 10; 1 # 10; 2 # 10]; [1 # 2; 1 # 3; 1 # 4]]%Q 2 = Some (Num q)
        ∧ unit_interval q)
  ∧ precision_at_k [] [[9 # 10; 1 # 10; 2 # 10]]%Q 2 = Some NaN
  ∧ precision_at_k [[1; 0; 1]; [0; 0; 0]]
      [[9 # 10; 1 # 10; 2 # 10]; [1 # 2; 1 # 3; 1 # 4]]%Q 0 = None.
Proof.
  split; [|split].
  - apply (precision_at_k_cases [[1; 0; 1]; [0; 0; 0]]
             [[9 # 10; 1 # 10; 2 # 10]; [1 # 2; 1 # 3; 1 # 4]]%Q 2); (simpl; lia) || done.
  - apply (precision_at_k_cases [] [[9 # 10; 1 # 10; 2 # 10]]%Q 2); (simpl; lia) || done.
  - apply (precision_at_k_cases [[1; 0; 1]; [0; 0; 0]]
             [[9 # 10; 1 # 10; 2 # 10]; [1 # 2; 1 # 3; 1 # 4]]%Q 0); (simpl; lia) || done.
Defined.

Lemma recall_at_k_unit_interval_witness :
  ∃ q, recall_at_k [[1; 0; 1]; [0; 0; 0]]
         [[9 # 10; 1 # 10; 2 # 10]; [1 # 2; 1 # 3; 1 # 4]]%Q 1 = Some (Num q)
       ∧ unit_interval q.
Proof.
  apply (recall_at_k_unit_interval [[1; 0; 1]; [0; 0; 0]]
           [[9 # 10; 1 # 10; 2 # 10]; [1 # 2; 1 # 3; 1 # 4]]%Q 1).
  simpl. lia.
Defined.

Lemma f1_at_k_cases_witness :
  (∃ q, f1_at_k [[1; 0; 1]; [0; 0; 0]]
          [[9 # 10; 1 # 10; 2 # 10]; [1 # 2; 1 # 3; 1 # 4]]%Q 2 = Some (Num q)
        ∧ unit_interval q)
  ∧ f1_at_k [] [[9 # 10; 1 # 10; 2 # 10]]%Q 2 = Some NaN
  ∧ recall_at_k [] [[9 # 10; 1 # 10; 2 # 10]]%Q 2 = Some (Num 0%Q).
Proof.
  split.
  - apply (f1_at_k_cases [[1; 0; 1]; [0; 0; 0]]
             [[9 # 10; 1 # 10; 2 # 10]; [1 # 2; 1 # 3; 1 # 4]]%Q 2); (simpl; lia) || done.
  - apply (f1_at_k_cases [] [[9 # 10; 1 # 10; 2 # 10]]%Q 2); (simpl; lia) || done.
Defined.

(** ** More on intersection over union, Hamming score and quantity accuracy *)

Lemma inject_nat_nonzero (n : nat) : (0 < n)%nat → ¬ (inject_Z (Z.of_nat n) == 0)%Q.
Proof. intros Hn Hz. unfold Qeq in Hz. simpl in Hz. lia. Qed.

Lemma inject_nat_inj (a b : nat) :
  (inject_Z (Z.of_nat a) == inject_Z (Z.of_nat b))%Q → a = b.
Proof. intros Hz. unfold Qeq in Hz. simpl in Hz. lia. Qed.

Lemma Qsum_all_one (xs : list Q) :
  Forall (λ x, x == 1)%Q xs → (Qsum xs == inject_Z (Z.of_nat (length xs)))%Q.
Proof.
  induction 1 as [|x xs Hx _ IH]; simpl; [reflexivity|].
  rewrite Hx, IH, Nat2Z.inj_succ. unfold Z.succ. rewrite inject_Z_plus. simpl. ring.
Qed.

(** The mean of a non-empty list of ones is one. *)
Lemma mean_all_one (xs : list Q) :
  Forall (λ x, x == 1)%Q xs → xs ≠ [] → ∃ q, mean xs = Num q ∧ (q == 1)%Q.
Proof.
  intros Hxs Hne. exists (Qsum xs / inject_Z (Z.of_nat (length xs)))%Q.
  split; [by destruct xs|]. rewrite (Qsum_all_one xs Hxs).
  apply Qmult_inv_r, inject_nat_nonzero. destruct xs; [done|]. simpl. lia.
Qed.

Lemma ratio_same (a : nat) : (0 < a)%nat → (ratio a a == 1)%Q.
Proof.
  intros Ha. unfold ratio. by apply Qmult_inv_r, inject_nat_nonzero.
Qed.

Lemma ratio_one_inv (a b : nat) : (0 < b)%nat → (ratio a b == 1)%Q → a = b.
Proof.
  intros Hb Hr. unfold ratio in Hr.
  assert (Hb' : ¬ (inject_Z (Z.of_nat b) == 0)%Q) by by apply inject_nat_nonzero.
  assert (Heq : (inject_Z (Z.of_nat a) == inject_Z (Z.of_nat b))%Q).
  { rewrite <- (Qmult_div_r (inject_Z (Z.of_nat a)) (inject_Z (Z.of_nat b)) Hb').
    rewrite Hr. ring. }
  by apply inject_nat_inj.
Qed.

Lemma iou_row_unit (t p : gset nat) : unit_interval (iou_row t p).
Proof.
  unfold iou_row. case_decide as Hd; [split; lra|]. apply ratio_unit.
  - apply subseteq_size. etrans; [apply intersection_subseteq_l|apply union_subseteq_l].
  - destruct (size (t ∪ p)) eqn:Hsz; [|lia]. exfalso. apply Hd.
    apply size_empty_inv, leibniz_equiv in Hsz. by apply empty_union_L in Hsz.
Qed.

(** X13.  The row score of [iou_score] is symmetric in the two sets, lies
    between 0 and 1, and equals 1 exactly when the predicted set is the
    true set; [iou_score] itself lies between 0 and 1 when there is at least
    one row (and a predicted row for every true row). *)
Theorem iou_row_properties (t p : gset nat) (y_true y_pred : list (list Z)) :
  iou_row t p = iou_row p t
  ∧ unit_interval (iou_row t p)
  ∧ ((iou_row t p == 1)%Q ↔ t = p)
  ∧ (y_true ≠ [] → (length y_true ≤ length y_pred)%nat →
     ∃ q, iou_score y_true y_pred = Some (Num q) ∧ unit_interval q).
Proof.
  split; [|split; [apply iou_row_unit|split]].
  - unfold iou_row. rewrite (comm_L (∩) t p), (comm_L (∪) t p).
    destruct (decide (t = ∅ ∧ p = ∅)) as [[? ?]|Hn].
    + by rewrite decide_True.
    + rewrite decide_False; [done|]. intros [? ?]. by apply Hn.
  - split.
    + unfold iou_row. case_decide as Hd; [intros _; destruct Hd; congruence|].
      intros Hr. apply ratio_one_inv in Hr.
      * assert (Heq : t ∩ p = t ∪ p).
        { apply set_subseteq_size_eq; [|lia].
          etrans; [apply intersection_subseteq_l|apply union_subseteq_l]. }
        apply set_eq. intros x. split; intros Hx.
        -- assert (x ∈ t ∩ p) as Hx' by (rewrite Heq; by apply elem_of_union_l).
           by apply elem_of_intersection in Hx' as [_ ?].
        -- assert (x ∈ t ∩ p) as Hx' by (rewrite Heq; by apply elem_of_union_r).
           by apply elem_of_intersection in Hx' as [? _].
      * destruct (size (t ∪ p)) eqn:Hsz; [|lia]. exfalso. apply Hd.
        apply size_empty_inv, leibniz_equiv in Hsz. by apply empty_union_L in Hsz.
    + intros <-. unfold iou_row. case_decide as Hd; [reflexivity|].
      rewrite (idemp_L (∩)), (idemp_L (∪)). apply ratio_same.
      destruct (size t) eqn:Hsz; [|lia]. exfalso. apply Hd.
      apply size_empty_inv, leibniz_equiv in Hsz. done.
  - intros Hne Hlen. unfold iou_score.
    rewrite (mapM_imap_lookup (λ yt yp, iou_row (ones_set yt) (ones_set yp))
               (iou_term y_pred) y_true y_pred) by done.
    simpl. destruct (mean_unit (zip_with (λ yt yp, iou_row (ones_set yt) (ones_set yp))
                                  y_true y_pred)) as (q & Hq & Hunit).
    + apply Forall_forall. intros x Hx. apply list_elem_of_lookup in Hx as [i Hi].
      apply lookup_zip_with_Some in Hi as (yt & yp & -> & _ & _). apply iou_row_unit.
    + intros Hnil. apply (f_equal length) in Hnil. rewrite length_zip_with in Hnil.
      assert (0 < length y_true)%nat by (destruct y_true; [done|simpl; lia]).
      change (length (@nil Q)) with 0%nat in Hnil. lia.
    + exists q. by rewrite Hq.
Qed.

Lemma iou_row_properties_witness :
  iou_row {[0%nat; 1%nat]} {[1%nat; 2%nat]} = iou_row {[1%nat; 2%nat]} {[0%nat; 1%nat]}
  ∧ unit_interval (iou_row {[0%nat; 1%nat]} {[1%nat; 2%nat]})
  ∧ ∃ q, iou_score [[1; 1; 0]; [0; 0; 0]] [[0; 1; 1]; [0; 0; 0]] = Some (Num q)
         ∧ unit_interval q.
Proof.
  destruct (iou_row_properties {[0%nat; 1%nat]} {[1%nat; 2%nat]}
              [[1; 1; 0]; [0; 0; 0]] [[0; 1; 1]; [0; 0; 0]]) as (H1 & H2 & _ & H4).
  split; [exact H1|]. split; [exact H2|]. apply H4; [done|simpl; lia].
Defined.

Lemma mean_f_Num (qs : list Q) : mean_f (Num <$> qs) = mean qs.
Proof.
  unfold mean_f.
  assert (Hm : mapM (λ x, match x with Num q => Some q | NaN => None end) (Num <$> qs)
               = Some qs).
  { apply mapM_Some. apply Forall2_fmap_l, Forall_Forall2_diag, Forall_forall. done. }
  by rewrite Hm.
Qed.

Lemma mean_f_NaN (xs : list npfloat) : NaN ∈ xs → mean_f xs = NaN.
Proof.
  intros Hin. unfold mean_f.
  destruct (mapM _ xs) as [qs|] eqn:Hm; [|done]. exfalso.
  apply mapM_Some in Hm. apply list_elem_of_lookup in Hin as [i Hi].
  destruct (Forall2_lookup_l _ _ _ _ _ Hm Hi) as (q & _ & Hq). done.
Qed.

Lemma hamming_rows_Num (y y' : list (list Z)) :
  Forall (λ row, row ≠ []) y →
  zip_with hamming_row y y' = Num <$> zip_with agreement y y'.
Proof.
  intros Hy. revert y'. induction Hy as [|row y Hrow _ IH]; intros y'; [done|].
  destruct y' as [|row' y']; [done|]. simpl. rewrite IH. f_equal.
  unfold hamming_row. rewrite decide_False; [done|]. by destruct row.
Qed.

Lemma agreement_unit (yt yp : list Z) : yt ≠ [] → unit_interval (agreement yt yp).
Proof.
  intros Hne. apply ratio_unit.
  - etrans; [apply length_filter|]. rewrite length_zip_with. lia.
  - destruct yt; [done|simpl; lia].
Qed.

Lemma agreement_same (yt : list Z) : yt ≠ [] → (agreement yt yt == 1)%Q.
Proof.
  intros Hne. unfold agreement.
  assert (Hf : filter (λ ab : Z * Z, ab.1 = ab.2) (zip yt yt) = zip yt yt).
  { clear Hne. induction yt as [|x yt IH]; [done|]. simpl.
    rewrite filter_cons_True by done. by rewrite IH. }
  rewrite Hf, length_zip_with, Nat.min_id. apply ratio_same.
  destruct yt; [done|simpl; lia].
Qed.

Lemma same_shape_refl {A} (M : list (list A)) : same_shape M M.
Proof. unfold same_shape. apply Forall_Forall2_diag, Forall_forall. done. Qed.

(** X14.  [hamming_score] on matrices of the same shape: with at least one
    row and at least one column the score lies between 0 and 1, and it is
    1 when the prediction is the truth; a matrix with a row of width zero
    gives NaN (0/0). *)
Theorem hamming_score_cases (y_true y_pred : list (list Z)) :
  (same_shape y_true y_pred → y_true ≠ [] → Forall (λ row, row ≠ []) y_true →
     ∃ q, hamming_score y_true y_pred = Some (Num q) ∧ unit_interval q)
  ∧ (y_true ≠ [] → Forall (λ row, row ≠ []) y_true →
     ∃ q, hamming_score y_true y_true = Some (Num q) ∧ (q == 1)%Q)
  ∧ (same_shape y_true y_pred → [] ∈ y_true → hamming_score y_true y_pred = Some NaN).
Proof.
  split; [|split].
  - intros Hs Hne Hrows. unfold hamming_score. rewrite decide_True by done.
    rewrite hamming_rows_Num, mean_f_Num by done.
    destruct (mean_unit (zip_with agreement y_true y_pred)) as (q & Hq & Hunit).
    + apply Forall_forall. intros x Hx. apply list_elem_of_lookup in Hx as [i Hi].
      apply lookup_zip_with_Some in Hi as (yt & yp & -> & Hyt & _).
      apply agreement_unit. by eapply Forall_lookup_1 in Hrows.
    + intros Hnil. apply (f_equal length) in Hnil. rewrite length_zip_with in Hnil.
      apply Forall2_length in Hs.
      assert (0 < length y_true)%nat by (destruct y_true; [done|simpl; lia]).
      change (length (@nil Q)) with 0%nat in Hnil. lia.
    + exists q. by rewrite Hq.
  - intros Hne Hrows. unfold hamming_score.
    rewrite decide_True by apply same_shape_refl.
    rewrite hamming_rows_Num, mean_f_Num by done.
    destruct (mean_all_one (zip_with agreement y_true y_true)) as (q & Hq & Hone).
    + apply Forall_forall. intros x Hx. apply list_elem_of_lookup in Hx as [i Hi].
      apply lookup_zip_with_Some in Hi as (yt & yp & -> & Hyt & Hyp). simplify_eq.
      apply agreement_same. by eapply Forall_lookup_1 in Hrows.
    + intros Hnil. apply (f_equal length) in Hnil. rewrite length_zip_with in Hnil.
      assert (0 < length y_true)%nat by (destruct y_true; [done|simpl; lia]).
      change (length (@nil Q)) with 0%nat in Hnil. lia.
    + exists q. by rewrite Hq.
  - intros Hs Hin. unfold hamming_score. rewrite decide_True by done. f_equal.
    apply mean_f_NaN. apply list_elem_of_lookup in Hin as [i Hi].
    destruct (same_shape_lookup _ _ _ _ Hs Hi) as (r' & Hr' & _).
    apply list_elem_of_lookup. exists i. apply lookup_zip_with_Some.
    exists [], r'. split; [|done]. unfold hamming_row. by rewrite decide_True.
Qed.

Lemma hamming_score_cases_witness :
  (∃ q, hamming_score [[1; 0; 1]; [0; 0; 0]] [[1; 1; 0]; [0; 0; 0]] = Some (Num q)
        ∧ unit_interval q)
  ∧ (∃ q, hamming_score [[1; 0; 1]; [0; 0; 0]] [[1; 0; 1]; [0; 0; 0]] = Some (Num q)
          ∧ (q == 1)%Q)
  ∧ hamming_score [[]; []] [[]; []] = Some NaN.
Proof.
  split; [|split].
  - apply (hamming_score_cases [[1; 0; 1]; [0; 0; 0]] [[1; 1; 0]; [0; 0; 0]]).
    + repeat constructor.
    + done.
    + repeat constructor; done.
  - apply (hamming_score_cases [[1; 0; 1]; [0; 0; 0]] [[1; 0; 1]; [0; 0; 0]]).
    + done.
    + repeat constructor; done.
  - apply (hamming_score_cases [[]; []] [[]; []]).
    + repeat constructor.
    + left.
Defined.

(** ** Quantity accuracy reads the positive cells only *)

Lemma positive_cells_row_ext (r rp rp' : list Z) :
  length r = length rp → length r = length rp' →
  (∀ j v, r !! j = Some v → 0 < v → rp !! j = rp' !! j) →
  filter (λ tp : Z * Z, 0 < tp.1) (zip r rp) = filter (λ tp : Z * Z, 0 < tp.1) (zip r rp').
Proof.
  revert rp rp'. induction r as [|x r IH]; intros rp rp' Hl Hl' Hagree; [done|].
  destruct rp as [|p rp]; [done|]. destruct rp' as [|p' rp']; [done|].
  simpl in Hl, Hl'. cbn [zip_with]. rewrite !filter_cons. simpl.
  rewrite (IH rp rp') by (first [lia | intros j v Hj Hv; apply (Hagree (S j) v Hj Hv)]).
  case_decide as Hx; [|done]. f_equal. f_equal.
  specialize (Hagree 0%nat x eq_refl Hx). simpl in Hagree. by simplify_eq.
Qed.

Lemma positive_cells_ext (yt yp yp' : list (list Z)) :
  same_shape yt yp → same_shape yt yp' →
  (∀ i j v, mat_get yt i j = Some v → 0 < v → mat_get yp i j = mat_get yp' i j) →
  positive_cells yt yp = positive_cells yt yp'.
Proof.
  unfold positive_cells, same_shape. intros Hs. revert yp'.
  induction Hs as [|r rp yt yp Hlen _ IH]; intros yp' Hs' Hagree.
  - by apply Forall2_nil_inv_l in Hs' as ->.
  - apply Forall2_cons_inv_l in Hs' as (rp' & yp'' & Hlen' & Hs' & ->).
    cbn [concat]. rewrite !zip_with_app, !filter_app by done. f_equal.
    + apply positive_cells_row_ext; [done..|]. intros j v Hj Hv.
      apply (Hagree 0%nat j v); [|done]. unfold mat_get. simpl. done.
    + apply IH; [done|]. intros i j v Hv Hpos. apply (Hagree (S i) j v); done.
Qed.

Lemma positive_cells_same (y : list (list Z)) :
  Forall (λ tp : Z * Z, tp.1 = tp.2) (positive_cells y y).
Proof.
  unfold positive_cells. apply Forall_forall. intros [a b] Hin.
  apply list_elem_of_filter in Hin as [_ Hin]. simpl.
  generalize (concat y) Hin. clear. intros l. induction l as [|x l IH]; simpl.
  - intros Hin. by apply elem_of_nil in Hin.
  - intros Hin. apply elem_of_cons in Hin as [?|Hin]; [by simplify_eq|by apply IH].
Qed.

(** X15.  [accuracy_counts] reads the prediction only where the truth
    quantity is positive: two predictions of the truth's shape that agree on
    those cells get the same score.  A prediction equal to the truth, with
    at least one positive cell, scores 1. *)
Theorem accuracy_counts_positive_cells_only (y_true_cnt y_pred y_pred' : list (list Z)) :
  (same_shape y_true_cnt y_pred → same_shape y_true_cnt y_pred' →
   (∀ i j v, mat_get y_true_cnt i j = Some v → 0 < v →
             mat_get y_pred i j = mat_get y_pred' i j) →
   accuracy_counts y_true_cnt y_pred = accuracy_counts y_true_cnt y_pred')
  ∧ ((∃ i j v, mat_get y_true_cnt i j = Some v ∧ 0 < v) →
     ∃ q, accuracy_counts y_true_cnt y_true_cnt = Some (Num q) ∧ (q == 1)%Q).
Proof.
  split.
  - intros Hs Hs' Hagree. unfold accuracy_counts. rewrite !decide_True by done.
    fold (positive_cells y_true_cnt y_pred). fold (positive_cells y_true_cnt y_pred').
    by rewrite (positive_cells_ext _ _ _ Hs Hs' Hagree).
  - intros (i & j & v & Hv & Hpos). unfold accuracy_counts.
    rewrite decide_True by apply same_shape_refl.
    fold (positive_cells y_true_cnt y_true_cnt).
    destruct (mean_all_one
      ((λ tp : Z * Z, if decide (tp.1 = tp.2) then 1%Q else 0%Q)
         <$> positive_cells y_true_cnt y_true_cnt)) as (q & Hq & Hone).
    + apply Forall_fmap. eapply Forall_impl; [apply positive_cells_same|].
      intros tp Heq. simpl. by rewrite decide_True.
    + intros Hnil. apply fmap_nil_inv in Hnil.
      assert (Hin : (v, v) ∈ positive_cells y_true_cnt y_true_cnt).
      { apply list_elem_of_filter. split; [done|].
        apply elem_of_zip_concat; [apply same_shape_refl|]. eauto. }
      rewrite Hnil in Hin. by apply elem_of_nil in Hin.
    + exists q. by rewrite Hq.
Qed.

Lemma accuracy_counts_positive_cells_only_witness :
  accuracy_counts [[2; 0]; [0; 3]] [[2; 7]; [9; 1]]
  = accuracy_counts [[2; 0]; [0; 3]] [[2; 0]; [0; 1]]
  ∧ ∃ q, accuracy_counts [[2; 0]; [0; 3]] [[2; 0]; [0; 3]] = Some (Num q) ∧ (q == 1)%Q.
Proof.
  split.
  - apply (accuracy_counts_positive_cells_only [[2; 0]; [0; 3]] [[2; 7]; [9; 1]]
             [[2; 0]; [0; 1]]).
    + repeat constructor.
    + repeat constructor.
    + intros [|[|i]] [|[|j]] v Hv Hpos; vm_compute in Hv; simplify_eq; (done || lia).
  - apply (accuracy_counts_positive_cells_only [[2; 0]; [0; 3]] [[2; 0]; [0; 3]]
             [[2; 0]; [0; 3]]).
    exists 0%nat, 0%nat, 2. split; [done|lia].
Defined.

(** ** The smallest mode *)

Lemma argmax_from_first (l pre : list nat) (best bv j : nat) :
  length pre = j → pre !! best = Some bv →
  (∀ i x, (i < best)%nat → pre !! i = Some x → (x < bv)%nat) →
  (∀ x, x ∈ pre → (x ≤ bv)%nat) →
  ∃ rv, (pre ++ l) !! argmax_from best bv j l = Some rv
        ∧ ∀ i x, (i < argmax_from best bv j l)%nat → (pre ++ l) !! i = Some x → (x < rv)%nat.
Proof.
  revert pre best bv j. induction l as [|x l IH]; intros pre best bv j Hlen Hbest Hfirst Hmax.
  - simpl. exists bv. rewrite app_nil_r. by split.
  - simpl. rewrite (cons_middle x pre l), app_assoc.
    case_decide as Hlt.
    + apply IH.
      * rewrite length_app. simpl. lia.
      * rewrite lookup_app_r by lia. by rewrite Hlen, Nat.sub_diag.
      * intros i y Hi Hy. rewrite lookup_app_l in Hy by lia.
        apply list_elem_of_lookup_2 in Hy. apply Hmax in Hy. lia.
      * intros y Hy. apply elem_of_app in Hy as [Hy|Hy].
        -- apply Hmax in Hy. lia.
        -- apply list_elem_of_singleton in Hy. lia.
    + apply IH.
      * rewrite length_app. simpl. lia.
      * apply lookup_app_l_Some. done.
      * intros i y Hi Hy. apply lookup_lt_Some in Hbest.
        rewrite lookup_app_l in Hy by lia. by eapply Hfirst.
      * intros y Hy. apply elem_of_app in Hy as [Hy|Hy].
        -- by apply Hmax.
        -- apply list_elem_of_singleton in Hy. lia.
Qed.

(** [argmax] returns the first position of the maximum. *)
Lemma argmax_first (l : list nat) :
  l ≠ [] → ∃ rv, l !! argmax l = Some rv
                 ∧ ∀ i x, (i < argmax l)%nat → l !! i = Some x → (x < rv)%nat.
Proof.
  destruct l as [|x l]; [done|]. intros _. unfold argmax.
  apply (argmax_from_first l [x] 0 x 1); [done..| |].
  - intros i y Hi. lia.
  - intros y Hy. apply list_elem_of_singleton in Hy. lia.
Qed.

Lemma bincount_lookup (yq : list Z) (a : nat) (n : nat) :
  bincount yq !! a = Some n → n = count_occ (Z.of_nat a) yq.
Proof.
  destruct yq as [|y ys]; [done|]. unfold bincount. rewrite list_lookup_fmap.
  intros Hn. apply fmap_Some in Hn as (a' & Ha & ->).
  apply lookup_seq in Ha as [Ha _]. simpl in Ha. by subst.
Qed.

(** Every value below [np.bincount(yq).argmax()] occurs less often. *)
Lemma bincount_argmax_least (yq : list Z) (v : Z) :
  yq ≠ [] → 0 ≤ v < Z.of_nat (argmax (bincount yq)) →
  (count_occ v yq < count_occ (Z.of_nat (argmax (bincount yq))) yq)%nat.
Proof.
  intros Hne Hv.
  destruct (argmax_first (bincount yq)) as (rv & Hrv & Hfirst); [by destruct yq|].
  pose proof (bincount_lookup _ _ _ Hrv) as ->.
  assert (Hlt : (Z.to_nat v < length (bincount yq))%nat).
  { apply lookup_lt_Some in Hrv. lia. }
  destruct (lookup_lt_is_Some_2 _ _ Hlt) as [n Hn].
  pose proof (bincount_lookup _ _ _ Hn) as Hcnt. rewrite Z2Nat.id in Hcnt by lia.
  rewrite <- Hcnt. apply (Hfirst (Z.to_nat v)); [lia|done].
Qed.

(** [np.unique(xs)[0]] is the least value. *)
Lemma head_remove_dups_sorted (l : list Z) :
  StronglySorted Z.le l → head (remove_dups l) = head l.
Proof.
  induction 1 as [|x l Hs IH Hall]; [done|]. simpl.
  destruct (decide_rel elem_of x l) as [Hx|Hx]; [|done].
  rewrite IH. destruct l as [|y l]; [by apply elem_of_nil in Hx|]. simpl.
  f_equal. apply Forall_cons in Hall as [Hxy _].
  apply elem_of_cons in Hx as [->|Hx]; [done|].
  apply StronglySorted_inv in Hs as [_ Hy].
  eapply Forall_forall in Hy; [|done]. lia.
Qed.

Lemma head_unique_least (xs : list Z) (x : Z) :
  x ∈ xs → default 0 (head (unique xs)) ≤ x.
Proof.
  intros Hx. unfold unique.
  assert (Hs : StronglySorted Z.le (merge_sort Z.le xs)).
  { apply Sorted_StronglySorted; [intros a b c; lia|]. apply Sorted_merge_sort.
    intros a b. lia. }
  rewrite head_remove_dups_sorted by done.
  assert (Hx' : x ∈ merge_sort Z.le xs) by by rewrite merge_sort_Permutation.
  destruct (merge_sort Z.le xs) as [|m l]; [by apply elem_of_nil in Hx'|]. simpl.
  apply elem_of_cons in Hx' as [->|Hx']; [lia|].
  apply StronglySorted_inv in Hs as [_ Hm]. by eapply Forall_forall in Hm.
Qed.

Lemma bincount_argmax_least_mode (yq : list Z) :
  yq ≠ [] → Forall (λ q, 0 < q) yq → least_mode (Z.of_nat (argmax (bincount yq))) yq.
Proof.
  intros Hne Hpos. pose proof (bincount_argmax_mode yq Hne Hpos) as Hmode.
  destruct yq as [|y ys] eqn:Hyq; [done|]. rewrite <- Hyq in *.
  assert (Hm : Z.of_nat (argmax (bincount yq)) ∈ yq
               ∧ ∀ v, (count_occ v yq ≤ count_occ (Z.of_nat (argmax (bincount yq))) yq)%nat).
  { rewrite Hyq in Hmode |- *. exact Hmode. }
  destruct Hm as [Hc Hle]. split; [done|]. split; [done|].
  intros v Hv. destruct (decide (0 ≤ v)) as [H0|H0].
  - apply bincount_argmax_least; [done|lia].
  - apply count_occ_pos in Hc.
    assert (Hnin : v ∉ yq).
    { intros Hin. eapply Forall_forall in Hpos; [|done]. lia. }
    rewrite <- count_occ_pos in Hnin. lia.
Qed.

Lemma least_mode_unique (c c' : Z) (yq : list Z) :
  least_mode c yq → least_mode c' yq → c = c'.
Proof.
  intros (_ & Hle & Hlt) (_ & Hle' & Hlt').
  destruct (Z.lt_trichotomy c c') as [Hc|[Hc|Hc]]; [|done|].
  - specialize (Hlt' c Hc). specialize (Hle c'). lia.
  - specialize (Hlt c' Hc). specialize (Hle' c). lia.
Qed.

(** When the fallback applies, the least value is a least mode. *)
Lemma head_unique_least_mode (yq : list Z) :
  yq ≠ [] → (length yq < 3 ∨ length (unique yq) < 2)%nat →
  least_mode (default 0 (head (unique yq))) yq.
Proof.
  intros Hne Hcond. set (c := default 0 (head (unique yq))).
  pose proof (head_unique_elem yq Hne) as Hc. fold c in Hc.
  assert (Hmode : mode_or_zero c yq).
  { destruct Hcond as [Hshort|Heq]; [by apply mode_of_short|].
    apply mode_of_constant; [done|]. by apply unique_short_iff. }
  assert (Hleast : ∀ v, v ∈ yq → c ≤ v) by (intros v; apply head_unique_least).
  clearbody c.
  assert (Hle : ∀ v, (count_occ v yq ≤ count_occ c yq)%nat).
  { destruct yq as [|y ys]; [done|]. apply Hmode. }
  split; [done|]. split; [done|]. intros v Hv.
  assert (Hnin : v ∉ yq).
  { intros Hin. apply Hleast in Hin. lia. }
  rewrite <- count_occ_pos in Hnin. apply count_occ_pos in Hc. lia.
Qed.

Section quantity_models_agree.
Context {X : Type} `{!Learner X}.

(** X16.  Cross-validation and the final refit build the same quantity
    model from the same data: the same SVC when at least three rows have a
    positive quantity with two distinct values, and otherwise a constant
    predictor with the same constant, although the fold computes it as
    [np.bincount(yq).argmax()] and the refit as [uniq_vals[0]].  When some
    row has a positive quantity, the constant is the least of the most
    frequent positive quantities. *)
Theorem quantity_models_agree (Xt : list X) (col : list Z) :
  stage2_model Xt col = refit_quantity_model SVM_MAX_ITER RANDOM_STATE Xt col
  ∧ (∀ c, stage2_model Xt col = Some (Dummy c) →
          filter (λ q, 0 < q) col ≠ [] → least_mode c (filter (λ q, 0 < q) col)).
Proof.
  unfold stage2_model, refit_quantity_model. rewrite mask_select_positive.
  cbn [mbind option_bind]. set (yq := filter (λ q, 0 < q) col).
  assert (Hpos : Forall (λ q, 0 < q) yq) by apply filter_positive_Forall.
  split.
  - destruct (decide (_ ∨ _)) as [Hcond|Hcond];
      destruct (decide (_ ∧ _)) as [Hcond'|Hcond']; [lia| |done|lia].
    do 2 f_equal.
    destruct (decide (length yq = 0%nat)) as [Hz|Hz];
      destruct (decide (length yq ≠ 0%nat)) as [Hz'|Hz']; [lia|done| |lia].
    assert (Hne : yq ≠ []) by (by destruct yq).
    apply (least_mode_unique _ _ yq).
    + by apply bincount_argmax_least_mode.
    + by apply head_unique_least_mode.
  - intros c Hc Hne. case_decide as Hcond.
    + rewrite decide_False in Hc by (by destruct yq). simplify_eq.
      by apply bincount_argmax_least_mode.
    + destruct (mask_select _ Xt) as [xs|]; simpl in Hc; [|done].
      destruct (svc_fit _ _ _ _); simpl in Hc; done.
Qed.
End quantity_models_agree.

Lemma quantity_models_agree_witness :
  stage2_model [0; 1; 2]%nat [0; 7; 2]
  = refit_quantity_model SVM_MAX_ITER RANDOM_STATE [0; 1; 2]%nat [0; 7; 2]
  ∧ least_mode 2 (filter (λ q, 0 < q) [0; 7; 2]).
Proof.
  destruct (quantity_models_agree (Learner0 := toy_learner) [0; 1; 2]%nat [0; 7; 2])
    as [Heq Hleast].
  split; [exact Heq|]. apply Hleast.
  - vm_compute. reflexivity.
  - vm_compute. discriminate.
Defined.

Section weighted_facts.
Context `{!ArgSort}.
Implicit Types (y_true : list (list Z)) (proba : list (list Q)).

Lemma weighted_body_unfold proba (tk : list (list nat)) i row (scores : list Q) :
  weighted_body proba tk (i, row) scores
  = if decide (ones_set row = ∅) then Some scores
    else idxs ← tk !! i;
         ps ← mapM (mat_get proba i) (filter (λ j, j ∈ ones_set row) idxs);
         Some (scores ++ [(Qsum ps / inject_Z (Z.of_nat (size (ones_set row))))%Q]).
Proof. done. Qed.

(** The probabilities at top-K positions can all be read. *)
Lemma topk_cells_read proba (k : Z) i prow (P : nat → Prop) `{!∀ j, Decision (P j)} :
  proba !! i = Some prow →
  mapM (mat_get proba i) (filter P (topk_row k prow))
  = Some (key prow <$> filter P (topk_row k prow)).
Proof.
  intros Hp. apply mapM_Some, Forall2_fmap_r, Forall_Forall2_diag, Forall_forall.
  intros j Hj. apply list_elem_of_filter in Hj as [_ Hj]. apply topk_row_lt in Hj.
  destruct (lookup_lt_is_Some_2 prow j Hj) as [p Hpj].
  unfold mat_get, key. rewrite Hp. simpl. by rewrite Hpj.
Qed.

(** The loop of [weighted_proba_score] appends one score per row with a
    non-empty truth set, in row order. *)
Lemma weighted_loop y_true proba k (rows : list nat) (scores : list Q) :
  Forall (λ i, (i < length proba)%nat) rows →
  for_each (weighted_body proba (topk k proba))
    ((λ i, (i, default [] (y_true !! i))) <$> rows) scores
  = Some (scores ++
      (weighted_term k y_true proba <$> filter (λ i, truth y_true i ≠ ∅) rows)).
Proof.
  intros Hrows. revert scores.
  induction Hrows as [|i rows Hi _ IH]; intros scores.
  - simpl. by rewrite app_nil_r.
  - rewrite fmap_cons.
    change (for_each ?b (?x :: ?l) ?s) with (b x s ≫= for_each b l).
    rewrite weighted_body_unfold, ones_set_truth.
    destruct (lookup_lt_is_Some_2 proba i Hi) as [prow Hp].
    destruct (decide (truth y_true i = ∅)) as [He|Hne].
    + simpl. rewrite IH. by rewrite filter_cons_False by (by intros ?).
    + rewrite (topk_lookup _ _ _ _ Hp). simpl.
      rewrite (topk_cells_read _ _ _ _ _ Hp). simpl. rewrite IH.
      rewrite filter_cons_True by done. rewrite fmap_cons.
      unfold weighted_term at 2. rewrite Hp. simpl. by rewrite <- app_assoc.
Qed.

(** One row: the weighted term is at most the recall term. *)
Lemma weighted_term_bounds y_true proba k i :
  unit_cells proba → truth y_true i ≠ ∅ →
  (0 <= weighted_term k y_true proba i)%Q
  ∧ (weighted_term k y_true proba i
     <= ratio (hits (predicted_set k proba) y_true i) (size (truth y_true i)))%Q.
Proof.
  intros Hunit Hne. unfold weighted_term, hits, predicted_set, ratio.
  set (prow := default [] (proba !! i)). set (t := truth y_true i).
  set (l := filter (λ j, j ∈ t) (topk_row k prow)).
  assert (Hsz : (0 < size t)%nat).
  { destruct (size t) eqn:Hs; [|lia]. apply size_empty_inv, leibniz_equiv in Hs. done. }
  assert (Hpos : (0 < inject_Z (Z.of_nat (size t)))%Q) by (rewrite <- (Zlt_Qlt 0); lia).
  assert (Hl : size (t ∩ list_to_set (topk_row k prow)) = length l).
  { rewrite <- (size_list_to_set (C := gset nat) l)
      by (apply NoDup_filter, topk_row_NoDup).
    f_equal. apply set_eq. intros j. unfold l.
    rewrite elem_of_intersection, !elem_of_list_to_set, list_elem_of_filter. done. }
  rewrite Hl.
  destruct (Qsum_unit_bounds (key prow <$> l)) as [H0 H1].
  { apply Forall_fmap, Forall_forall. intros j Hj. simpl.
    apply list_elem_of_filter in Hj as [_ Hj]. apply topk_row_lt in Hj.
    destruct (lookup_lt_is_Some_2 prow j Hj) as [p Hpj].
    unfold key. rewrite Hpj. simpl. apply (Hunit i j).
    unfold mat_get. unfold prow in Hpj.
    destruct (proba !! i) as [r|]; simpl in *; [done|]. by rewrite lookup_nil in Hpj. }
  rewrite length_fmap in H1. split.
  - apply Qle_shift_div_l; [done|]. lra.
  - apply Qmult_le_compat_r; [done|]. apply Qinv_le_0_compat. lra.
Qed.

Lemma mean_le (ws rs : list Q) :
  Forall2 Qle ws rs → Forall (Qle 0) ws →
  match ws, rs with
  | [], [] => True
  | _ :: _, _ :: _ => ∃ w r, mean ws = Num w ∧ mean rs = Num r ∧ (0 <= w)%Q ∧ (w <= r)%Q
  | _, _ => False
  end.
Proof.
  intros Hle H0. pose proof (Forall2_length _ _ _ Hle) as Hlen.
  pose proof (Qsum_le _ _ Hle) as Hsum.
  assert (Hs0 : (0 <= Qsum ws)%Q).
  { clear -H0. induction H0; simpl; [lra|]. lra. }
  destruct ws as [|w ws], rs as [|r rs]; [done..|].
  unfold mean. rewrite <- Hlen. set (n := inject_Z _).
  assert (Hn : (0 < n)%Q) by (unfold n; rewrite <- (Zlt_Qlt 0); simpl; lia).
  eexists _, _. split; [done|]. split; [done|]. split.
  - apply Qle_shift_div_l; [done|]. lra.
  - apply Qmult_le_compat_r; [done|]. apply Qinv_le_0_compat. lra.
Qed.

(** X17.  On probabilities between 0 and 1, with a probability row for
    every truth row, [weighted_proba_score] returns a number between 0 and
    the value of [recall_at_k]: each true label among the top K counts with
    its probability where recall counts 1. *)
Theorem weighted_proba_score_le_recall y_true proba (k : Z) :
  unit_cells proba → (length y_true ≤ length proba)%nat →
  ∃ w r, weighted_proba_score y_true proba k = Some (Num w)
         ∧ recall_at_k y_true proba k = Some (Num r)
         ∧ (0 <= w)%Q ∧ (w <= r)%Q.
Proof.
  intros Hunit Hlen. unfold weighted_proba_score, recall_at_k. rewrite imap_pair_seq.
  change (@inhabitant (list Z) _) with (@nil Z).
  assert (Hrows : Forall (λ i, (i < length proba)%nat) (seq 0 (length y_true))).
  { apply Forall_forall. intros i Hi. apply elem_of_seq in Hi. lia. }
  rewrite weighted_loop, recall_loop by done. simpl.
  set (R := filter (λ i, truth y_true i ≠ ∅) (seq 0 (length y_true))).
  assert (HinR : ∀ j, j ∈ R → truth y_true j ≠ ∅).
  { intros j Hj. unfold R in Hj. by apply list_elem_of_filter in Hj as [? _]. }
  clearbody R.
  assert (Hle : Forall2 Qle (weighted_term k y_true proba <$> R)
    ((λ i, ratio (hits (predicted_set k proba) y_true i) (size (truth y_true i))) <$> R)).
  { apply Forall2_fmap, Forall_Forall2_diag, Forall_forall. intros j Hj.
    apply weighted_term_bounds; [done|]. by apply HinR. }
  assert (H0 : Forall (Qle 0) (weighted_term k y_true proba <$> R)).
  { apply Forall_fmap, Forall_forall. intros j Hj. simpl.
    apply weighted_term_bounds; [done|]. by apply HinR. }
  pose proof (mean_le _ _ Hle H0) as Hmean. clear Hle H0.
  destruct R as [|i R'].
  - exists 0%Q, 0%Q. simpl. repeat split; (done || lra).
  - rewrite !fmap_cons in *. destruct Hmean as (w & r & Hw & Hr & H0 & Hle).
    exists w, r. rewrite Hw, Hr. done.
Qed.
End weighted_facts.

Lemma weighted_proba_score_le_recall_witness :
  ∃ w r, weighted_proba_score [[1; 0; 1]; [0; 0; 0]]
           [[9 # 10; 1 # 10; 2 # 10]; [1 # 2; 1 # 3; 1 # 4]]%Q 2 = Some (Num w)
         ∧ recall_at_k [[1; 0; 1]; [0; 0; 0]]
             [[9 # 10; 1 # 10; 2 # 10]; [1 # 2; 1 # 3; 1 # 4]]%Q 2 = Some (Num r)
         ∧ (0 <= w)%Q ∧ (w <= r)%Q.
Proof.
  apply (weighted_proba_score_le_recall [[1; 0; 1]; [0; 0; 0]]
           [[9 # 10; 1 # 10; 2 # 10]; [1 # 2; 1 # 3; 1 # 4]]%Q 2).
  - intros [|[|i]] [|[|[|j]]] p Hp; vm_compute in Hp; simplify_eq;
      split; vm_compute; discriminate.
  - simpl. lia.
Defined.

Lemma foldr_insert_length {A} (x : A) (l : list nat) (b : list A) :
  length (foldr (λ j r, <[j := x]> r) b l) = length b.
Proof. induction l as [|j l IH]; simpl; [done|]. by rewrite length_insert. Qed.

Lemma foldr_insert_lookup {A} (x : A) (l : list nat) (b : list A) (j : nat) :
  (j < length b)%nat →
  foldr (λ j r, <[j := x]> r) b l !! j = if decide (j ∈ l) then Some x else b !! j.
Proof.
  intros Hj. induction l as [|j' l IH]; cbn [foldr].
  - rewrite decide_False; [done|]. apply not_elem_of_nil.
  - destruct (decide (j = j')) as [<-|Hne].
    + rewrite list_lookup_insert_eq by (by rewrite foldr_insert_length).
      rewrite decide_True; [done|]. left.
    + rewrite list_lookup_insert_ne by done. rewrite IH.
      destruct (decide (j ∈ l)) as [Hin|Hin].
      * rewrite decide_True; [done|]. by right.
      * rewrite decide_False; [done|]. intros Hin'.
        apply elem_of_cons in Hin' as [?|?]; done.
Qed.

Section evaluate_facts.
Context `{!ArgSort}.
Implicit Types (y_true : list (list Z)) (proba : list (list Q)).

Lemma binarize_row_length (k : Z) (row : list Q) :
  length (binarize_row k row) = length row.
Proof. unfold binarize_row. by rewrite foldr_insert_length, length_replicate. Qed.

Lemma binarize_row_lookup (k : Z) (row : list Q) (j : nat) :
  (j < length row)%nat →
  binarize_row k row !! j = Some (if decide (j ∈ topk_row k row) then 1 else 0).
Proof.
  intros Hj. unfold binarize_row.
  rewrite foldr_insert_lookup by (by rewrite length_replicate).
  case_decide; [done|]. by apply lookup_replicate_2.
Qed.

Lemma ones_set_binarize_row (k : Z) (row : list Q) :
  ones_set (binarize_row k row) = list_to_set (topk_row k row).
Proof.
  apply set_eq. intros j. unfold ones_set.
  rewrite !elem_of_list_to_set, elem_of_where_eq. split.
  - intros Hj. pose proof (lookup_lt_Some _ _ _ Hj) as Hlt.
    rewrite binarize_row_length in Hlt. rewrite binarize_row_lookup in Hj by done.
    by case_decide.
  - intros Hj. rewrite binarize_row_lookup by (by eapply topk_row_lt).
    by rewrite decide_True.
Qed.

(** X18.  The prediction matrix of [evaluate]: a row of zeros of the width
    of the probability row with a one written at each top-K position.  Row
    and probability row have the same length, the cell at [j] is 1 exactly
    when [j] is among the top K, and the set of ones [iou_score] reads back
    from the row is the set of the top-K positions. *)
Theorem binarize_row_marks_topk (k : Z) (row : list Q) :
  length (binarize_row k row) = length row
  ∧ (∀ j, (j < length row)%nat →
       binarize_row k row !! j = Some (if decide (j ∈ topk_row k row) then 1 else 0))
  ∧ ones_set (binarize_row k row) = list_to_set (topk_row k row)
  ∧ Np.sum (binarize_row k row) = Z.of_nat (length (topk_row k row)).
Proof.
  split; [apply binarize_row_length|]. split; [apply binarize_row_lookup|].
  split; [apply ones_set_binarize_row|].
  rewrite sum_binary_size, ones_set_binarize_row.
  - by rewrite size_list_to_set by apply topk_row_NoDup.
  - apply Forall_forall. intros v Hv. apply list_elem_of_lookup in Hv as [j Hj].
    pose proof (lookup_lt_Some _ _ _ Hj) as Hlt. rewrite binarize_row_length in Hlt.
    rewrite binarize_row_lookup in Hj by done. case_decide; simplify_eq; auto.
Qed.

Lemma coverage_terms y_true proba (k : Z) :
  (length y_true ≤ length proba)%nat →
  is_Some (partial_coverage_score y_true proba k).
Proof.
  intros Hlen. unfold partial_coverage_score.
  rewrite (mapM_imap_lookup
    (λ row idxs, (inject_Z (Z.of_nat (size (ones_set row ∩ list_to_set idxs)))
                  / inject_Z (Z.max 1 (Np.sum row)))%Q) _ y_true (topk k proba)).
  - done.
  - done.
  - by rewrite topk_length.
Qed.

Lemma same_shape_binarize y_true proba (k : Z) :
  same_shape y_true proba → same_shape y_true (binarize_row k <$> proba).
Proof.
  unfold same_shape. intros Hs. apply Forall2_fmap_r.
  eapply Forall2_impl; [done|]. intros r r' Hr. simpl. by rewrite binarize_row_length.
Qed.

(** The intersection-over-union entry of [evaluate] compares the truth
    set of each row with the set of its top-K labels. *)
Lemma iou_score_binarize y_true proba (k : Z) :
  (length y_true ≤ length proba)%nat →
  iou_score y_true (binarize_row k <$> proba)
  = Some (mean ((λ i, iou_row (truth y_true i) (predicted_set k proba i))
                  <$> seq 0 (length y_true))).
Proof.
  intros Hlen. unfold iou_score.
  rewrite (mapM_imap_lookup (λ row prow, iou_row (ones_set row) (ones_set prow))
             _ y_true (binarize_row k <$> proba));
    [|done|by rewrite length_fmap].
  simpl. do 2 f_equal. apply list_eq. intros i.
  rewrite list_lookup_fmap.
  destruct (decide (i < length y_true)%nat) as [Hi|Hi].
  - rewrite lookup_seq_lt by done. simpl.
    destruct (lookup_lt_is_Some_2 y_true i Hi) as [row Hrow].
    destruct (lookup_lt_is_Some_2 proba i) as [prow Hprow]; [lia|].
    apply lookup_zip_with_Some. exists row, (binarize_row k prow).
    rewrite list_lookup_fmap, Hprow, Hrow. split; [|done].
    rewrite ones_set_binarize_row, <- ones_set_truth, Hrow.
    by rewrite (predicted_set_lookup _ _ _ _ Hprow).
  - rewrite lookup_seq_ge by lia. simpl. apply lookup_ge_None.
    rewrite length_zip_with. lia.
Qed.

(** X19.  [evaluate] on a truth matrix and a probability matrix of the same
    shape never raises: it returns the dictionary of the seven metrics,
    without a [quantity_acc] entry.  With at least one row, precision,
    recall, F1 and intersection over union are numbers between 0 and 1, and
    so is the Hamming score when the matrices have at least one column; the
    intersection-over-union entry is the mean over the rows of the score of
    the truth set against the set of the top-K labels. *)
Theorem evaluate_same_shape y_true proba :
  same_shape y_true proba →
  ∃ pm, evaluate y_true proba = Some pm
        ∧ m_quantity_acc pm = None
        ∧ m_iou pm = mean ((λ i, iou_row (truth y_true i) (predicted_set TOP_K proba i))
                             <$> seq 0 (length y_true))
        ∧ (y_true ≠ [] →
           unit_metric (m_precision pm) ∧ unit_metric (m_recall pm)
           ∧ unit_metric (m_f1 pm) ∧ unit_metric (m_iou pm)
           ∧ (Forall (λ row, row ≠ []) y_true → unit_metric (m_hamming pm))).
Proof.
  intros Hs. pose proof (Forall2_length _ _ _ Hs) as Hlen.
  assert (Hle : (length y_true ≤ length proba)%nat) by lia.
  unfold evaluate.
  destruct (precision_at_k y_true proba TOP_K) as [p|] eqn:Hp.
  2:{ destruct (decide (y_true = [])) as [->|Hne]; [done|].
      destruct (precision_at_k_positive y_true proba TOP_K Hle) as (q & Hq & _);
        [done|done|congruence]. }
  destruct (recall_at_k_returns_unit y_true proba TOP_K Hle) as (r & Hr & Hru).
  rewrite Hr. simpl.
  unfold f1_at_k. rewrite Hp, Hr. simpl.
  unfold hamming_score. rewrite decide_True by (by apply same_shape_binarize). simpl.
  destruct (weighted_proba_score y_true proba TOP_K) as [w|] eqn:Hw.
  2:{ exfalso. revert Hw. unfold weighted_proba_score. rewrite imap_pair_seq.
      change (@inhabitant (list Z) _) with (@nil Z).
      rewrite weighted_loop; [done|].
      apply Forall_forall. intros i Hi. apply elem_of_seq in Hi. lia. }
  simpl. destruct (coverage_terms y_true proba TOP_K Hle) as [c Hc]. rewrite Hc. simpl.
  rewrite iou_score_binarize by done. simpl.
  eexists. split; [done|]. simpl. split; [done|]. split; [done|].
  intros Hne.
  destruct (precision_at_k_positive y_true proba TOP_K Hle) as (q & Hq & Hqu);
    [done|done|].
  rewrite Hq in Hp. simplify_eq.
  split; [by exists q|]. split; [by exists r|].
  split; [by apply f1_combine_unit|]. split.
  - destruct (mean_unit ((λ i, iou_row (truth y_true i) (predicted_set TOP_K proba i))
                           <$> seq 0 (length y_true))) as (u & Hu & Huu).
    + apply Forall_fmap, Forall_forall. intros i _. apply iou_row_unit.
    + destruct y_true; [done|]. simpl. done.
    + by exists u.
  - intros Hrows. rewrite hamming_rows_Num, mean_f_Num by done.
    apply mean_unit.
    + apply Forall_forall. intros x Hx. apply list_elem_of_lookup in Hx as [i Hi].
      apply lookup_zip_with_Some in Hi as (yt & yp & -> & Hyt & _).
      apply agreement_unit. by eapply Forall_lookup_1 in Hrows.
    + intros Hnil. apply (f_equal length) in Hnil.
      rewrite length_zip_with, length_fmap in Hnil.
      assert (0 < length y_true)%nat by (destruct y_true; [done|simpl; lia]).
      change (length (@nil Q)) with 0%nat in Hnil. lia.
Qed.
End evaluate_facts.

Lemma evaluate_same_shape_witness :
  ∃ pm, evaluate [[1; 0; 1]; [0; 0; 0]]
          [[9 # 10; 1 # 10; 2 # 10]; [1 # 2; 1 # 3; 1 # 4]]%Q = Some pm
        ∧ m_quantity_acc pm = None
        ∧ unit_metric (m_precision pm) ∧ unit_metric (m_hamming pm).
Proof.
  destruct (evaluate_same_shape [[1; 0; 1]; [0; 0; 0]]
              [[9 # 10; 1 # 10; 2 # 10]; [1 # 2; 1 # 3; 1 # 4]]%Q)
    as (pm & Hpm & Hacc & _ & Hunit).
  - repeat constructor.
  - exists pm. split; [exact Hpm|]. split; [exact Hacc|].
    destruct Hunit as (Hp & _ & _ & _ & Hh); [done|].
    split; [exact Hp|]. apply Hh. repeat constructor; done.
Defined.

(** ** Shapes and bookkeeping of a cross-validation run *)

Lemma same_shape_lengths {A B} (M : list (list A)) (M' : list (list B)) :
  same_shape M M' ↔ length <$> M = length <$> M'.
Proof.
  unfold same_shape. split.
  - induction 1 as [|r r' M M' Hr _ IH]; [done|]. rewrite !fmap_cons. by f_equal.
  - revert M'. induction M as [|r M IH]; intros [|r' M'] Heq; try done.
    rewrite !fmap_cons in Heq. simplify_eq. constructor; [done|]. by apply IH.
Qed.

Lemma mat_set_lengths {A} (M M' : list (list A)) i j x :
  mat_set M i j x = Some M' → length <$> M' = length <$> M.
Proof.
  unfold mat_set. destruct (M !! i) as [row|] eqn:Hrow; simpl; [|done].
  case_decide; [|done]. intros ?; simplify_eq.
  rewrite list_fmap_insert, length_insert. apply list_insert_id.
  by rewrite list_lookup_fmap, Hrow.
Qed.

Lemma write_column_lengths {A} (M M' : list (list A)) idx lbl vals :
  write_column M idx lbl vals = Some M' → length <$> M' = length <$> M.
Proof.
  unfold write_column. case_decide; [|done].
  apply (for_each_invariant (λ N, length <$> N = length <$> M)); [|done].
  intros [i v] N N' _ HN Hstep. unfold write_cell in Hstep. simpl in Hstep.
  apply mat_set_lengths in Hstep. congruence.
Qed.

Lemma zeros_like_lengths {A B} (zero : B) (M : list (list A)) :
  length <$> zeros_like zero M = length <$> M.
Proof.
  unfold zeros_like. rewrite <- list_fmap_compose. apply list_fmap_ext.
  intros i row _. simpl. by rewrite length_replicate.
Qed.

Section cross_validation_outputs.
Context `{!ArgSort} {X : Type} `{!Learner X}.
Context {G : Type} `{EqDecision G} (group_le : relation G) `{!RelDecision group_le}.

Lemma stage1_label_lengths Y_bin tr te (Xt_tr Xt_te : list X) lbl proba proba' :
  stage1_label Y_bin tr te Xt_tr Xt_te lbl proba = Some proba' →
  length <$> proba' = length <$> proba.
Proof.
  unfold stage1_label. intros Hrun.
  destruct (column Y_bin tr lbl) as [y_tr|]; simpl in Hrun; [|done].
  case_decide; [by simplify_eq|].
  destruct (fit_calibrated _ _ _ _) as [calib|]; simpl in Hrun; [|done].
  by apply write_column_lengths in Hrun.
Qed.

Lemma stage2_label_lengths Y_cnt tr te (Xt_tr Xt_te : list X) lbl qty qty' :
  stage2_label Y_cnt tr te Xt_tr Xt_te lbl qty = Some qty' →
  length <$> qty' = length <$> qty.
Proof.
  unfold stage2_label. intros Hrun.
  destruct (column Y_cnt tr lbl) as [col|]; simpl in Hrun; [|done].
  destruct (stage2_model Xt_tr col) as [m|]; simpl in Hrun; [|done].
  by apply write_column_lengths in Hrun.
Qed.

(** One fold keeps the shapes of the two result matrices and appends one
    entry, numbered with the fold and carrying a quantity accuracy, to each
    list of metrics. *)
Lemma cv_fold_outputs (Xt : list X) Y_bin Y_cnt it st st' :
  cv_fold Xt Y_bin Y_cnt it st = Some st' →
  length <$> cv_proba st' = length <$> cv_proba st
  ∧ length <$> cv_qty_pred st' = length <$> cv_qty_pred st
  ∧ (∃ pm, cv_train_metrics st' = cv_train_metrics st ++ [(it.1, pm)]
           ∧ is_Some (m_quantity_acc pm))
  ∧ (∃ pm, cv_val_metrics st' = cv_val_metrics st ++ [(it.1, pm)]
           ∧ is_Some (m_quantity_acc pm)).
Proof.
  unfold cv_fold. intros Hrun.
  destruct (select Xt it.2.1) as [Xt_tr|]; simpl in Hrun; [|done].
  destruct (select Xt it.2.2) as [Xt_te|]; simpl in Hrun; [|done].
  destruct (for_each (stage1_label _ _ _ _ _) _ _) as [proba|] eqn:Hs1;
    simpl in Hrun; [|done].
  destruct (for_each (stage2_label _ _ _ _ _) _ _) as [qty|] eqn:Hs2;
    simpl in Hrun; [|done].
  destruct (apply_quantity_safeguard proba qty TOP_K) as [qty'|] eqn:Hsg;
    simpl in Hrun; [|done].
  assert (Hp : length <$> proba = length <$> cv_proba st).
  { revert Hs1.
    apply (for_each_invariant (λ p, length <$> p = length <$> cv_proba st)); [|done].
    intros l p p' _ Hp Hstep. apply stage1_label_lengths in Hstep. congruence. }
  assert (Hq : length <$> qty = length <$> cv_qty_pred st).
  { revert Hs2.
    apply (for_each_invariant (λ q, length <$> q = length <$> cv_qty_pred st)); [|done].
    intros l q q' _ Hq Hstep. apply stage2_label_lengths in Hstep. congruence. }
  assert (Hq' : length <$> qty' = length <$> qty).
  { rewrite apply_quantity_safeguard_cells in Hsg.
    apply visit_cells_inv in Hsg as [_ ->]. symmetry.
    apply same_shape_lengths, safeguard_pure_same_shape. }
  repeat match type of Hrun with
  | (?o ≫= _) = Some _ => destruct o; simpl in Hrun; [|done]
  end.
  simplify_eq. simpl. split; [done|]. split; [congruence|].
  split; eexists; (split; [done|]); simpl; done.
Qed.

Lemma cv_loop_outputs (Xt : list X) Y_bin Y_cnt (its : list (nat * (list nat * list nat)))
    st st' :
  for_each (cv_fold Xt Y_bin Y_cnt) its st = Some st' →
  length <$> cv_proba st' = length <$> cv_proba st
  ∧ length <$> cv_qty_pred st' = length <$> cv_qty_pred st
  ∧ (∃ pms, cv_train_metrics st' = cv_train_metrics st ++ pms
            ∧ pms.*1 = its.*1 ∧ Forall (λ e, is_Some (m_quantity_acc e.2)) pms)
  ∧ (∃ pms, cv_val_metrics st' = cv_val_metrics st ++ pms
            ∧ pms.*1 = its.*1 ∧ Forall (λ e, is_Some (m_quantity_acc e.2)) pms).
Proof.
  revert st. induction its as [|it its IH]; intros st Hrun.
  - simpl in Hrun. simplify_eq. repeat split; try done; exists []; by rewrite app_nil_r.
  - simpl in Hrun. destruct (cv_fold Xt Y_bin Y_cnt it st) as [st1|] eqn:Hfold;
      simpl in Hrun; [|done].
    apply cv_fold_outputs in Hfold
      as (Hp & Hq & (pm & Htr & Hacc) & (pm' & Hva & Hacc')).
    apply IH in Hrun as (Hp' & Hq' & (pms & Htr' & Hn & Hall) & (pms' & Hva' & Hn' & Hall')).
    split; [congruence|]. split; [congruence|]. split.
    + exists ((it.1, pm) :: pms). rewrite Htr', Htr, <- app_assoc. split; [done|].
      rewrite !fmap_cons. split; [by f_equal|]. by constructor.
    + exists ((it.1, pm') :: pms'). rewrite Hva', Hva, <- app_assoc. split; [done|].
      rewrite !fmap_cons. split; [by f_equal|]. by constructor.
Qed.

(** X20.  What a cross-validation run returns: a probability matrix of the
    shape of [Y_bin], a quantity matrix of the shape of [Y_cnt], and two
    lists of metrics with one entry per fold, numbered 1 to 5 in order, each
    carrying a [quantity_acc] entry. *)
Theorem cross_validation_outputs (Xt : list X) Y_bin Y_cnt (groups : list G) res :
  cross_validate_transformed group_le Xt Y_bin Y_cnt groups = Some res →
  same_shape Y_bin (cv_proba res)
  ∧ same_shape Y_cnt (cv_qty_pred res)
  ∧ (cv_train_metrics res).*1 = [1; 2; 3; 4; 5]%nat
  ∧ (cv_val_metrics res).*1 = [1; 2; 3; 4; 5]%nat
  ∧ Forall (λ e, is_Some (m_quantity_acc e.2)) (cv_train_metrics res ++ cv_val_metrics res).
Proof.
  unfold cross_validate_transformed. case_decide; [|done].
  destruct (gkf_split group_le groups K_FOLDS) as [splits|] eqn:Hsplit; simpl; [|done].
  apply gkf_split_length in Hsplit as [Hlen _]. intros Hrun.
  apply cv_loop_outputs in Hrun
    as (Hp & Hq & (pms & Htr & Hn & Hall) & (pms' & Hva & Hn' & Hall')).
  simpl in *. rewrite zeros_like_lengths in Hp. rewrite zeros_like_lengths in Hq.
  assert (Hfolds : (imap (λ i s, (S i, s)) splits).*1 = [1; 2; 3; 4; 5]%nat).
  { rewrite fmap_imap. unfold K_FOLDS in Hlen.
    do 6 (destruct splits as [|? splits]; try done). }
  split; [by apply same_shape_lengths|]. split; [by apply same_shape_lengths|].
  rewrite Htr, Hva. split; [congruence|]. split; [congruence|]. by apply Forall_app.
Qed.
End cross_validation_outputs.

Lemma cross_validation_outputs_witness :
  ∃ res, cross_validate_transformed Z.le cv_Xt cv_Y_bin cv_Y_cnt cv_groups = Some res
         ∧ same_shape cv_Y_bin (cv_proba res)
         ∧ (cv_val_metrics res).*1 = [1; 2; 3; 4; 5]%nat.
Proof.
  destruct (cross_validate_transformed Z.le cv_Xt cv_Y_bin cv_Y_cnt cv_groups)
    as [res|] eqn:Hcv; [|by vm_compute in Hcv].
  exists res. split; [done|].
  destruct (cross_validation_outputs Z.le cv_Xt cv_Y_bin cv_Y_cnt cv_groups res Hcv)
    as (Hp & _ & _ & Hva & _).
  split; [exact Hp|exact Hva].
Defined.

Lemma cross_validation_quantities_witness :
  ∃ res, cross_validate_transformed Z.le cv_Xt cv_Y_bin cv_Y_cnt cv_groups = Some res
         ∧ nonneg (cv_qty_pred res)
         ∧ ∃ v, mat_get (cv_qty_pred res) 0 1 = Some v ∧ 1 ≤ v.
Proof.
  destruct (cross_validate_transformed Z.le cv_Xt cv_Y_bin cv_Y_cnt cv_groups)
    as [res|] eqn:Hcv; [|by vm_compute in Hcv].
  exists res. split; [done|].
  destruct (cross_validation_quantities Z.le cv_Xt cv_Y_bin cv_Y_cnt cv_groups res Hcv)
    as [Hnn Hge].
  split; [exact Hnn|]. apply Hge.
  - vm_compute in Hcv. injection Hcv as <-. simpl. lia.
  - vm_compute in Hcv. injection Hcv as <-. apply elem_of_list_to_set.
    vm_compute. repeat constructor.
Defined.

(** ** The final refit *)

Section final_model_facts.
Context {X : Type} `{!Learner X}.
Context {L : Type} `{Countable L} (label_le : relation L) `{!RelDecision label_le}.
Context {G : Type}.
Implicit Types (df : list (sample L G)) (ils : list (nat * L)).

(** The column of a label in the two target matrices. *)
Lemma make_targets_columns df (classes : list L) i label :
  classes !! i = Some label →
  mapM (λ row : list Z, row !! i) ((λ r, binarize classes (Product_ID r)) <$> df)
  = Some ((λ r, if decide (label ∈ Product_ID r) then 1 else 0) <$> df)
  ∧ mapM (λ row : list Z, row !! i) (cnt_vec classes <$> df)
    = Some ((λ r, default 0 (dict_of_zip (Product_ID r) (Quantity r) !! label)) <$> df).
Proof.
  intros Hi. split; apply mapM_Some, Forall2_fmap, Forall_Forall2_diag, Forall_forall;
    intros r _; simpl.
  - unfold binarize. by rewrite list_lookup_fmap, Hi.
  - unfold cnt_vec. by rewrite list_lookup_fmap, Hi.
Qed.

(** The indicator column of a label holds two distinct values exactly when
    some sample has the label and some sample lacks it. *)
Lemma indicator_column_classes df label :
  (2 ≤ length (unique ((λ r, if decide (label ∈ Product_ID r) then 1 else 0)%Z <$> df)))%nat
  ↔ (∃ r, r ∈ df ∧ label ∈ Product_ID r) ∧ (∃ r, r ∈ df ∧ label ∉ Product_ID r).
Proof.
  set (y := (λ r : sample L G, if decide (label ∈ Product_ID r) then 1 else 0) <$> df).
  assert (Hy : ∀ v, v ∈ y ↔ ∃ r, r ∈ df ∧ v = if decide (label ∈ Product_ID r) then 1 else 0).
  { intros v. unfold y. rewrite list_elem_of_fmap. split.
    - intros (r & -> & Hr). by exists r.
    - intros (r & Hr & ->). by exists r. }
  split.
  - intros Hlen.
    assert (Hne : ¬ ∀ a b, a ∈ y → b ∈ y → a = b).
    { intros Heq. apply unique_short_iff in Heq. lia. }
    destruct (decide (Forall (λ r, label ∈ Product_ID r) df)) as [Hall|Hnall].
    { destruct Hne. intros a b Ha Hb.
      apply Hy in Ha as (ra & Hra & ->). apply Hy in Hb as (rb & Hrb & ->).
      rewrite Forall_forall in Hall. by rewrite !decide_True by by apply Hall. }
    destruct (decide (Forall (λ r, label ∉ Product_ID r) df)) as [Hnone|Hsome].
    { destruct Hne. intros a b Ha Hb.
      apply Hy in Ha as (ra & Hra & ->). apply Hy in Hb as (rb & Hrb & ->).
      rewrite Forall_forall in Hnone. by rewrite !decide_False by by apply Hnone. }
    apply not_Forall_Exists in Hnall; [|apply _].
    apply not_Forall_Exists in Hsome; [|apply _].
    apply Exists_exists in Hnall as (r0 & Hr0 & Hn0).
    apply Exists_exists in Hsome as (r1 & Hr1 & Hn1). simpl in *.
    split; [exists r1|exists r0]; (split; [done|]); [|done].
    by destruct (decide (label ∈ Product_ID r1)).
  - intros [(r1 & Hr1 & Hin) (r0 & Hr0 & Hout)].
    destruct (decide (length (unique y) < 2)%nat) as [Hlt|]; [|lia].
    rewrite unique_short_iff in Hlt.
    assert (1 = 0); [|done]. apply Hlt; apply Hy.
    + exists r1. by rewrite decide_True.
    + exists r0. by rewrite decide_False.
Qed.

Lemma refit_presence_loop (svm_max_iter random_state : Z) (X_final : list X)
    (Y_bin : list (list Z)) ils (c0 c : gmap L calibrated) :
  for_each (refit_presence svm_max_iter random_state X_final Y_bin) ils c0 = Some c →
  ∀ label, label ∈ dom c ↔
    label ∈ dom c0
    ∨ ∃ i y, (i, label) ∈ ils ∧ mapM (λ row : list Z, row !! i) Y_bin = Some y
             ∧ (2 ≤ length (unique y))%nat.
Proof.
  revert c0. induction ils as [|[i0 l0] ils IH]; intros c0 Hrun label.
  - simpl in Hrun. simplify_eq. split; [by left|].
    intros [?|(i & y & Hin & _)]; [done|]. by apply elem_of_nil in Hin.
  - simpl in Hrun.
    destruct (refit_presence _ _ _ _ (i0, l0) c0) as [c1|] eqn:Hstep;
      simpl in Hrun; [|done].
    rewrite (IH _ Hrun label). unfold refit_presence in Hstep. simpl in Hstep.
    destruct (mapM _ Y_bin) as [y0|] eqn:Hy0; simpl in Hstep; [|done].
    case_decide as Hlen.
    + simplify_eq. split.
      * intros [?|(i & y & Hin & Hy & Hu)]; [by left|]. right. exists i, y.
        split; [by right|done].
      * intros [?|(i & y & Hin & Hy & Hu)]; [by left|].
        apply elem_of_cons in Hin as [?|Hin]; [simplify_eq; lia|]. right. eauto.
    + destruct (fit_calibrated _ _ _ _) as [calibrator|]; simpl in Hstep; [|done].
      simplify_eq. rewrite dom_insert_L, elem_of_union, elem_of_singleton. split.
      * intros [[->|?]|(i & y & Hin & Hy & Hu)]; [|by left|].
        -- right. exists i0, y0. split; [left|]. split; [done|lia].
        -- right. exists i, y. split; [by right|done].
      * intros [?|(i & y & Hin & Hy & Hu)]; [left; by right|].
        apply elem_of_cons in Hin as [?|Hin]; [simplify_eq; left; by left|].
        right. eauto.
Qed.

Lemma refit_quantity_loop (svm_max_iter random_state : Z) (X_final : list X)
    (Y_cnt : list (list Z)) ils (q0 q : gmap L quantity_model) :
  for_each (refit_quantity svm_max_iter random_state X_final Y_cnt) ils q0 = Some q →
  dom q = dom q0 ∪ (list_to_set ils.*2 : gset L)
  ∧ ∀ label qm, q !! label = Some qm →
      q0 !! label = Some qm
      ∨ ∃ i col, (i, label) ∈ ils ∧ mapM (λ row : list Z, row !! i) Y_cnt = Some col
                 ∧ refit_quantity_model svm_max_iter random_state X_final col = Some qm.
Proof.
  revert q0. induction ils as [|[i0 l0] ils IH]; intros q0 Hrun.
  - simpl in Hrun. simplify_eq. split; [|intros; by left]. simpl. by rewrite (right_id_L ∅ (∪)).
  - simpl in Hrun.
    destruct (refit_quantity _ _ _ _ (i0, l0) q0) as [q1|] eqn:Hstep;
      simpl in Hrun; [|done].
    apply IH in Hrun as [Hdom Hmodels]. unfold refit_quantity in Hstep. simpl in Hstep.
    destruct (mapM _ Y_cnt) as [col0|] eqn:Hcol0; simpl in Hstep; [|done].
    destruct (refit_quantity_model _ _ _ col0) as [m0|] eqn:Hm0; simpl in Hstep; [|done].
    simplify_eq. split.
    + rewrite Hdom, dom_insert_L, fmap_cons. simpl.
      by rewrite (comm_L (∪) {[l0]} (dom q0)), <- (assoc_L (∪)).
    + intros label qm Hqm. apply Hmodels in Hqm as [Hqm|(i & col & Hin & Hcol & Hm)].
      * destruct (decide (l0 = label)) as [->|Hne].
        -- rewrite lookup_insert_eq in Hqm. simplify_eq. right. exists i0, col0.
           split; [left|done].
        -- rewrite lookup_insert_ne in Hqm by done. by left.
      * right. exists i, col. split; [by right|done].
Qed.

(** X22.  What the final refit exports.  The classes are the sorted
    distinct labels of the data.  There is a quantity model for every class
    and for nothing else; when the quantities of the data fit 64 bits it is
    built by the rule of [refit_quantity_model] from the quantities the
    samples give the label (0 where a sample lacks it).  There is a
    presence classifier exactly for the labels that occur in some sample
    but not in every sample: a label carried by all samples is skipped. *)
Theorem final_model_exports df (max_features n_topics svm_max_iter random_state : Z)
    prep class_clfs classes qty_clfs :
  train_and_export_final_model label_le df max_features n_topics svm_max_iter random_state
  = Some (prep, class_clfs, classes, qty_clfs) →
  classes = classes_ label_le (Product_ID <$> df)
  ∧ dom qty_clfs = (list_to_set classes : gset L)
  ∧ (∀ label, label ∈ dom class_clfs ↔
       (∃ r, r ∈ df ∧ label ∈ Product_ID r) ∧ (∃ r, r ∈ df ∧ label ∉ Product_ID r))
  ∧ (Forall (λ r, Forall fits_int64 (Quantity r)) df →
     ∀ label qm, qty_clfs !! label = Some qm →
       refit_quantity_model svm_max_iter random_state
         (transform prep ((λ r, (Instructions r, Asset r)) <$> df))
         ((λ r, default 0 (dict_of_zip (Product_ID r) (Quantity r) !! label)) <$> df)
       = Some qm).
Proof.
  unfold train_and_export_final_model. intros Hrun.
  destruct (make_targets label_le df) as [[[[X0 Y_bin] Y_cnt] cls]|] eqn:Hmk;
    simpl in Hrun; [|done].
  destruct (for_each (refit_presence _ _ _ _) _ _) as [cc|] eqn:Hcc; simpl in Hrun; [|done].
  destruct (for_each (refit_quantity _ _ _ _) _ _) as [qc|] eqn:Hqc; simpl in Hrun; [|done].
  simplify_eq.
  destruct (make_targets_Some _ _ _ _ _ _ Hmk) as (Hcls & -> & _). split; [done|].
  assert (Hpairs : ∀ i label, (i, label) ∈ imap pair classes ↔ classes !! i = Some label).
  { intros i label. rewrite elem_of_lookup_imap. split.
    - by intros (i' & l' & ? & Hl); simplify_eq.
    - intros Hl. by exists i, label. }
  apply refit_quantity_loop in Hqc as [Hdom Hmodels].
  pose proof (refit_presence_loop _ _ _ _ _ _ _ Hcc) as Hpres. clear Hcc.
  split; [|split].
  - rewrite Hdom, dom_empty_L, (left_id_L ∅ (∪)). f_equal.
    rewrite fmap_imap. apply list_eq. intros i. rewrite list_lookup_imap.
    by destruct (classes !! i).
  - intros label. rewrite Hpres, dom_empty_L. split.
    + intros [Hin|(i & y & Hin & Hy & Hu)]; [by apply not_elem_of_empty in Hin|].
      apply Hpairs in Hin.
      destruct (make_targets_columns df classes i label Hin) as [Hcol _].
      rewrite Hcol in Hy. simplify_eq. by apply indicator_column_classes.
    + intros [(r1 & Hr1 & Hin) Hout]. right.
      assert (Hc : label ∈ classes).
      { rewrite Hcls. unfold classes_. rewrite merge_sort_Permutation, elem_of_remove_dups.
        apply elem_of_concat. exists (Product_ID r1). split; [|done].
        apply list_elem_of_fmap. eauto. }
      apply list_elem_of_lookup in Hc as [i Hi].
      destruct (make_targets_columns df classes i label Hi) as [Hcol _].
      exists i, ((λ r, if decide (label ∈ Product_ID r) then 1 else 0) <$> df).
      split; [by apply Hpairs|]. split; [done|].
      apply indicator_column_classes. eauto.
  - intros Hfits label qm Hqm.
    rewrite (make_targets_fits label_le df Hfits) in Hmk. simplify_eq.
    apply Hmodels in Hqm as [Hqm|(i & col & Hin & Hcol & Hm)];
      [by rewrite lookup_empty in Hqm|].
    apply Hpairs in Hin.
    destruct (make_targets_columns df _ i label Hin) as [_ Hcnt].
    rewrite Hcnt in Hcol. by simplify_eq.
Qed.
End final_model_facts.

Lemma final_model_exports_witness :
  ∃ prep class_clfs classes qty_clfs,
    train_and_export_final_model (X := nat) Z.le df_repeated_and_short
      500 100 SVM_MAX_ITER RANDOM_STATE
    = Some (prep, class_clfs, classes, qty_clfs)
    ∧ classes = [3; 7; 9]
    ∧ dom qty_clfs = list_to_set classes
    ∧ (3 ∈ dom class_clfs ↔
         (∃ r, r ∈ df_repeated_and_short ∧ 3 ∈ Product_ID r)
         ∧ (∃ r, r ∈ df_repeated_and_short ∧ 3 ∉ Product_ID r)).
Proof.
  destruct (train_and_export_final_model (X := nat) Z.le df_repeated_and_short
              500 100 SVM_MAX_ITER RANDOM_STATE)
    as [[[[prep class_clfs] classes] qty_clfs]|] eqn:Hrun; [|by vm_compute in Hrun].
  exists prep, class_clfs, classes, qty_clfs. split; [done|].
  destruct (final_model_exports Z.le df_repeated_and_short 500 100 SVM_MAX_ITER
              RANDOM_STATE prep class_clfs classes qty_clfs Hrun)
    as (Hcls & Hdom & Hpres & _).
  split; [rewrite Hcls; vm_compute; reflexivity|]. split; [exact Hdom|]. apply Hpres.
Defined.

Section coverage_facts.
Context `{!ArgSort}.
Implicit Types (y_true : list (list Z)) (proba : list (list Q)).

(** On a binary truth matrix the terms of [partial_coverage_score] are
    [|truth ∩ top-K| / max(1, |truth|)], row by row. *)
Lemma partial_coverage_closed y_true proba k :
  binary y_true → (length y_true ≤ length proba)%nat →
  partial_coverage_score y_true proba k
  = Some (mean (coverage_term_spec (predicted_set k proba) y_true <$> seq 0 (length y_true))).
Proof.
  intros Hbin Hlen. unfold partial_coverage_score.
  rewrite (mapM_imap_lookup
    (λ row idxs, (inject_Z (Z.of_nat (size (ones_set row ∩ list_to_set idxs)))
                  / inject_Z (Z.max 1 (Np.sum row)))%Q)
    (coverage_term (topk k proba)) y_true (topk k proba)); [|done|].
  - simpl. do 2 f_equal. apply list_eq. intros i.
    rewrite lookup_zip_with, list_lookup_fmap.
    destruct (y_true !! i) as [row|] eqn:Hrow; simpl.
    + assert (Hi : (i < length y_true)%nat) by by eapply lookup_lt_Some.
      destruct (lookup_lt_is_Some_2 proba i) as [prow Hp]; [lia|].
      rewrite (topk_lookup _ _ _ _ Hp), lookup_seq_lt by done. simpl. f_equal.
      unfold coverage_term_spec, hits, ratio.
      rewrite (predicted_set_lookup _ _ _ _ Hp).
      rewrite <- (ones_set_truth y_true i), Hrow. simpl.
      rewrite sum_binary_size by (by eapply Forall_lookup_1 in Hbin).
      by rewrite Nat2Z.inj_max.
    + apply lookup_ge_None in Hrow. by rewrite lookup_seq_ge.
  - unfold topk. rewrite length_fmap. done.
Qed.

Lemma recall_term_unit y_true proba k i :
  truth y_true i ≠ ∅ →
  unit_interval (ratio (hits (predicted_set k proba) y_true i) (size (truth y_true i))).
Proof.
  intros Hne. apply ratio_unit.
  - apply subseteq_size, intersection_subseteq_l.
  - destruct (size (truth y_true i)) eqn:Hsz; [|lia].
    apply size_empty_inv in Hsz. by apply leibniz_equiv in Hsz.
Qed.

(** The coverage terms of all rows and the recall terms of the rows with a
    non-empty truth set have the same sum. *)
Lemma coverage_sum_recall_sum y_true proba k (rows : list nat) :
  (Qsum (coverage_term_spec (predicted_set k proba) y_true <$> rows)
   == Qsum ((λ i, ratio (hits (predicted_set k proba) y_true i) (size (truth y_true i)))
              <$> filter (λ i, truth y_true i ≠ ∅) rows))%Q.
Proof.
  induction rows as [|i rows IH]; [reflexivity|].
  rewrite fmap_cons. cbn [Qsum foldr]. fold (Qsum (coverage_term_spec (predicted_set k proba) y_true <$> rows)).
  rewrite IH. destruct (decide (truth y_true i = ∅)) as [He|Hne].
  - rewrite filter_cons_False by (by intros ?).
    unfold coverage_term_spec, hits. rewrite He, (left_absorb_L ∅ (∩)), size_empty.
    unfold ratio. simpl. field.
  - rewrite filter_cons_True by done. rewrite fmap_cons. cbn [Qsum foldr].
    unfold coverage_term_spec.
    replace (Nat.max 1 (size (truth y_true i))) with (size (truth y_true i)); [reflexivity|].
    destruct (size (truth y_true i)) eqn:Hsz; [|lia].
    apply size_empty_inv in Hsz. by apply leibniz_equiv in Hsz.
Qed.

Lemma filter_all {A} (P : A → Prop) `{!∀ x, Decision (P x)} (l : list A) :
  Forall P l → filter P l = l.
Proof.
  induction 1 as [|x l Hx _ IH]; [done|]. by rewrite filter_cons_True, IH.
Qed.

Lemma shrink_denominator (s : Q) (m n : nat) :
  (0 <= s)%Q → (0 < m ≤ n)%nat →
  (s / inject_Z (Z.of_nat n) <= s / inject_Z (Z.of_nat m))%Q.
Proof.
  intros Hs [Hm Hmn].
  assert (Hm' : (0 < inject_Z (Z.of_nat m))%Q) by (rewrite <- (Zlt_Qlt 0); lia).
  assert (Hn' : (0 < inject_Z (Z.of_nat n))%Q) by (rewrite <- (Zlt_Qlt 0); lia).
  assert (Hmn' : (inject_Z (Z.of_nat m) <= inject_Z (Z.of_nat n))%Q)
    by (rewrite <- Zle_Qle; lia).
  apply Qle_shift_div_l; [done|]. unfold Qdiv.
  rewrite <- Qmult_assoc, (Qmult_comm (/ _)), Qmult_assoc.
  apply Qle_shift_div_r; [done|].
  rewrite !(Qmult_comm s). by apply Qmult_le_compat_r.
Qed.

(** X23.  On a binary truth matrix with at least one row,
    [partial_coverage_score] is a number between 0 and the value of
    [recall_at_k]: both sum the same row scores, coverage divides by the
    number of all rows and recall by the number of rows with a true label.
    They are equal when every row has a true label. *)
Theorem partial_coverage_le_recall y_true proba (k : Z) :
  binary y_true → (length y_true ≤ length proba)%nat → y_true ≠ [] →
  ∃ c r, partial_coverage_score y_true proba k = Some (Num c)
         ∧ recall_at_k y_true proba k = Some (Num r)
         ∧ (0 <= c)%Q ∧ (c <= r)%Q
         ∧ ((∀ i, (i < length y_true)%nat → truth y_true i ≠ ∅) → (c == r)%Q).
Proof.
  intros Hbin Hlen Hne. rewrite partial_coverage_closed by done.
  unfold recall_at_k. rewrite imap_pair_seq.
  change (@inhabitant (list Z) _) with (@nil Z).
  rewrite recall_loop
    by (apply Forall_forall; intros i Hi; apply elem_of_seq in Hi; lia).
  simpl.
  pose proof (coverage_sum_recall_sum y_true proba k (seq 0 (length y_true))) as Hsum.
  set (R := filter (λ i, truth y_true i ≠ ∅) (seq 0 (length y_true))) in *.
  set (rs := (λ i, ratio (hits (predicted_set k proba) y_true i) (size (truth y_true i))) <$> R) in *.
  set (cs := coverage_term_spec (predicted_set k proba) y_true <$> seq 0 (length y_true)) in *.
  assert (Hn : (0 < length y_true)%nat) by (destruct y_true; [done|simpl; lia]).
  assert (Hcs : length cs = length y_true) by (unfold cs; by rewrite length_fmap, length_seq).
  assert (Hrs : (length rs ≤ length y_true)%nat).
  { unfold rs, R. rewrite length_fmap.
    etrans; [apply length_filter|]. by rewrite length_seq. }
  assert (Hrs0 : (0 <= Qsum rs)%Q).
  { apply Qsum_unit_bounds. unfold rs. apply Forall_fmap, Forall_forall. intros i Hi.
    simpl. apply recall_term_unit. unfold R in Hi. by apply list_elem_of_filter in Hi as [? _]. }
  assert (Hall : (∀ i, (i < length y_true)%nat → truth y_true i ≠ ∅) →
                 length rs = length y_true).
  { intros Hfull. unfold rs, R. rewrite length_fmap.
    rewrite filter_all; [by rewrite length_seq|].
    apply Forall_forall. intros i Hi. apply elem_of_seq in Hi. apply Hfull. lia. }
  assert (Hcmean : mean cs = Num (Qsum cs / inject_Z (Z.of_nat (length y_true)))).
  { destruct cs; simpl in Hcs; [lia|]. unfold mean. by rewrite <- Hcs. }
  rewrite Hcmean.
  assert (Hn' : (0 < inject_Z (Z.of_nat (length y_true)))%Q) by (rewrite <- (Zlt_Qlt 0); lia).
  clearbody rs cs. destruct rs as [|r0 rs'].
  - exists (Qsum cs / inject_Z (Z.of_nat (length y_true)))%Q, 0%Q.
    split; [done|]. split; [done|]. simpl in Hsum.
    assert (Hz : (Qsum cs / inject_Z (Z.of_nat (length y_true)) == 0)%Q).
    { rewrite Hsum. unfold Qdiv. ring. }
    split; [rewrite Hz; lra|]. split; [rewrite Hz; lra|].
    intros Hfull. apply Hall in Hfull. simpl in Hfull. lia.
  - set (rs := r0 :: rs') in *.
    assert (Hrpos : (0 < length rs)%nat) by (simpl; lia).
    exists (Qsum cs / inject_Z (Z.of_nat (length y_true)))%Q,
           (Qsum rs / inject_Z (Z.of_nat (length rs)))%Q.
    split; [done|]. split; [done|]. split; [|split].
    + apply Qle_shift_div_l; [done|]. rewrite Hsum. lra.
    + rewrite Hsum. by apply shrink_denominator.
    + intros Hfull. apply Hall in Hfull. by rewrite Hsum, Hfull.
Qed.
End coverage_facts.

Lemma partial_coverage_le_recall_witness :
  ∃ c r, partial_coverage_score [[1; 0; 1]; [0; 0; 0]]
           [[9 # 10; 1 # 10; 2 # 10]; [1 # 2; 1 # 3; 1 # 4]]%Q 1 = Some (Num c)
         ∧ recall_at_k [[1; 0; 1]; [0; 0; 0]]
             [[9 # 10; 1 # 10; 2 # 10]; [1 # 2; 1 # 3; 1 # 4]]%Q 1 = Some (Num r)
         ∧ (0 <= c)%Q ∧ (c <= r)%Q.
Proof.
  destruct (partial_coverage_le_recall [[1; 0; 1]; [0; 0; 0]]
              [[9 # 10; 1 # 10; 2 # 10]; [1 # 2; 1 # 3; 1 # 4]]%Q 1)
    as (c & r & Hc & Hr & H0 & Hle & _).
  - unfold binary. repeat first [by left | by right | constructor].
  - simpl. lia.
  - done.
  - exists c, r. repeat split; assumption.
Defined.
